(** * Sumly: the persistence and aggregation layer ([lib/database.ts])

    A shallow embedding of the module that owns the on-device SQLite
    store of the budgeting application: category and transaction CRUD,
    sign normalisation of amounts, and the monthly summaries.

    Conventions of the model.
    - A JavaScript [number] that holds an amount, and the REAL column
      that stores it, is a double.  The model covers the finite
      integer-valued doubles, as integers ([Z]): [Math.abs], unary
      minus and comparison are exact on them, and a sum or difference
      is rounded to the nearest double ([Double.round]).  Fractional
      amounts are out of scope.  A row id is an integer.
    - A JavaScript string is a [string] whose characters stand for code
      units below 256.
    - A [Date] is its time value: [Some t] with [t] the milliseconds
      since the epoch (UTC), or [None] for an Invalid Date.
    - The store is the pair of tables declared by
      [createTablesStatement], with the constraints written there
      (PRIMARY KEY AUTOINCREMENT, UNIQUE, REFERENCES under
      [PRAGMA foreign_keys = ON]).
    - Every [await db.*Async] is one autocommitted statement.  It either
      takes effect as a whole or raises and changes nothing; the module
      opens no explicit transaction. *)

From Stdlib Require Import ZArith Lia String Ascii List Bool Permutation Sorted.
From stdpp Require Import base option list gmap strings sorting.

Open Scope string_scope.
Open Scope Z_scope.

(** ** Strings *)

Module JsString.

(** [String.prototype.trim] strips white space and line terminators;
    below code unit 256 these are TAB, LF, VT, FF, CR, SP and NBSP. *)
Definition is_white_space (c : ascii) : bool :=
  match nat_of_ascii c with
  | 9%nat | 10%nat | 11%nat | 12%nat | 13%nat | 32%nat | 160%nat => true
  | _ => false
  end.

Fixpoint trimStart (s : string) : string :=
  match s with
  | String c s' => if is_white_space c then trimStart s' else s
  | EmptyString => EmptyString
  end.

Fixpoint trimEnd (s : string) : string :=
  match s with
  | String c s' =>
      match trimEnd s' with
      | EmptyString => if is_white_space c then EmptyString else String c EmptyString
      | t => String c t
      end
  | EmptyString => EmptyString
  end.

Definition trim (s : string) : string := trimEnd (trimStart s).

(** [s.includes(needle)] *)
Definition includes (needle s : string) : bool :=
  match index 0 needle s with
  | Some _ => true
  | None => false
  end.

(** [s.slice(0, n)] for [0 <= n] *)
Definition slice0 (n : nat) (s : string) : string := substring 0 n s.

(** A string is falsy exactly when it is empty. *)
Definition truthy (s : string) : bool :=
  match s with
  | EmptyString => false
  | String _ _ => true
  end.

Definition digit (n : Z) : ascii := ascii_of_nat (48 + Z.to_nat n).

(** The [w] least significant decimal digits of [n], most significant
    first (zero padded). *)
Fixpoint digits (w : nat) (n : Z) (acc : string) : string :=
  match w with
  | O => acc
  | S w' => digits w' (n / 10) (String (digit (n mod 10)) acc)
  end.

Definition pad (w : nat) (n : Z) : string := digits w n EmptyString.

End JsString.

(** ** Numbers (IEEE 754 binary64) *)

Module Double.

(** The double nearest to the integer [x]: the significand has 53
    bits, and a tie goes to the even significand.  Every integer up to
    2^53 in magnitude is a double. *)
Definition round (x : Z) : Z :=
  let e := Z.log2 (Z.abs x) - 52 in
  if e <=? 0 then x
  else
    let ulp := 2 ^ e in
    let q := Z.abs x / ulp in
    let r := Z.abs x mod ulp in
    let q' := if 2 * r <? ulp then q
              else if ulp <? 2 * r then q + 1
              else if Z.even q then q else q + 1 in
    Z.sgn x * (q' * ulp).

(** [a + b] and [a - b] on doubles. *)
Definition add (a b : Z) : Z := round (a + b).
Definition sub (a b : Z) : Z := round (a - b).

(** 2^53: up to this magnitude integer arithmetic on doubles is exact. *)
Definition exact : Z := 9007199254740992.

End Double.

(** ** Dates (ECMA-262, "Date Objects") *)

Module JsDate.
Import JsString.

Definition msPerDay : Z := 86400000.
Definition msPerHour : Z := 3600000.
Definition msPerMinute : Z := 60000.
Definition msPerSecond : Z := 1000.

Definition Day (t : Z) : Z := t / msPerDay.
Definition TimeWithinDay (t : Z) : Z := t mod msPerDay.

Definition isLeapYear (y : Z) : bool :=
  (y mod 4 =? 0) && (negb (y mod 100 =? 0) || (y mod 400 =? 0)).

Definition DaysInYear (y : Z) : Z := if isLeapYear y then 366 else 365.

Definition DayFromYear (y : Z) : Z :=
  365 * (y - 1970) + (y - 1969) / 4 - (y - 1901) / 100 + (y - 1601) / 400.

Definition TimeFromYear (y : Z) : Z := msPerDay * DayFromYear y.

(** The largest [y] with [DayFromYear y <= d]: the mean-year estimate
    is off by one at most. *)
Definition YearFromDay (d : Z) : Z :=
  let e := 1970 + (400 * d) / 146097 in
  if DayFromYear (e + 1) <=? d then e + 1
  else if DayFromYear e <=? d then e
  else e - 1.

Definition YearFromTime (t : Z) : Z := YearFromDay (Day t).

Definition InLeapYear (t : Z) : Z :=
  if isLeapYear (YearFromTime t) then 1 else 0.

Definition DayWithinYear (t : Z) : Z := Day t - DayFromYear (YearFromTime t).

(** Day number within the year of the first day of month [m]
    ([0] = January), [leap] being 1 in a leap year and 0 otherwise. *)
Definition monthStart (m leap : Z) : Z :=
  match m with
  | 0 => 0
  | 1 => 31
  | 2 => 59 + leap
  | 3 => 90 + leap
  | 4 => 120 + leap
  | 5 => 151 + leap
  | 6 => 181 + leap
  | 7 => 212 + leap
  | 8 => 243 + leap
  | 9 => 273 + leap
  | 10 => 304 + leap
  | 11 => 334 + leap
  | _ => 365 + leap
  end.

Definition MonthFromDay (dwy leap : Z) : Z :=
  if dwy <? 31 then 0
  else if dwy <? 59 + leap then 1
  else if dwy <? 90 + leap then 2
  else if dwy <? 120 + leap then 3
  else if dwy <? 151 + leap then 4
  else if dwy <? 181 + leap then 5
  else if dwy <? 212 + leap then 6
  else if dwy <? 243 + leap then 7
  else if dwy <? 273 + leap then 8
  else if dwy <? 304 + leap then 9
  else if dwy <? 334 + leap then 10
  else 11.

Definition MonthFromTime (t : Z) : Z :=
  MonthFromDay (DayWithinYear t) (InLeapYear t).

Definition DateFromTime (t : Z) : Z :=
  DayWithinYear t - monthStart (MonthFromTime t) (InLeapYear t) + 1.

Definition HourFromTime (t : Z) : Z := (t / msPerHour) mod 24.
Definition MinFromTime (t : Z) : Z := (t / msPerMinute) mod 60.
Definition SecFromTime (t : Z) : Z := (t / msPerSecond) mod 60.
Definition msFromTime (t : Z) : Z := t mod msPerSecond.

(** [MakeDay(year, month, date)]: months outside 0..11 carry into the
    year, and [date] counts days from the first of the month, so that
    date 0 is the day before it. *)
Definition MakeDay (year month date : Z) : Z :=
  let ym := year + month / 12 in
  let mn := month mod 12 in
  DayFromYear ym + monthStart mn (if isLeapYear ym then 1 else 0) + date - 1.

Definition MakeTime (hour min sec ms : Z) : Z :=
  hour * msPerHour + min * msPerMinute + sec * msPerSecond + ms.

Definition MakeDate (day time : Z) : Z := day * msPerDay + time.

Definition TimeClip (t : Z) : option Z :=
  if Z.abs t <=? 8640000000000000 then Some t else None.

(** The host's time zone: the offset of local time from UTC in
    milliseconds, [LocalTZA(t, isUTC)] of ECMA-262.  [offsetAtUTC t] is
    the offset in force at the UTC time [t], [offsetAtLocal t] the one
    the host reads the local time [t] with; the two follow the zone's
    changes of offset (daylight saving). *)
Record TimeZone : Type := mkTimeZone {
  offsetAtUTC : Z → Z;
  offsetAtLocal : Z → Z;
}.

(** A zone that keeps one offset throughout; a number used as a zone
    stands for it. *)
Definition fixedOffset (z : Z) : TimeZone := mkTimeZone (λ _, z) (λ _, z).
Coercion fixedOffset : Z >-> TimeZone.

Definition LocalTime (tza : TimeZone) (t : Z) : Z := t + offsetAtUTC tza t.
Definition UTC (tza : TimeZone) (t : Z) : Z := t - offsetAtLocal tza t.

(** A Date object: its time value, [None] when it is NaN. *)
Definition Date : Type := option Z.

(** [date.getFullYear()] and [date.getMonth()]; [None] is NaN. *)
Definition getFullYear (tza : TimeZone) (d : Date) : option Z :=
  t ← d; Some (YearFromTime (LocalTime tza t)).

Definition getMonth (tza : TimeZone) (d : Date) : option Z :=
  t ← d; Some (MonthFromTime (LocalTime tza t)).

(** [new Date(year, month, date)]: the fields are local time, read
    with the offset the zone has at that local time, and a year from 0
    to 99 means 1900 + year. *)
Definition newDate (tza : TimeZone) (year month : option Z) (date : Z) : Date :=
  y ← year;
  m ← month;
  let yr := if (0 <=? y) && (y <=? 99) then 1900 + y else y in
  TimeClip (UTC tza (MakeDate (MakeDay yr m date) (MakeTime 0 0 0 0))).

Definition yearString (y : Z) : string :=
  if (0 <=? y) && (y <=? 9999) then pad 4 y
  else if 0 <=? y then "+" +:+ pad 6 y
  else "-" +:+ pad 6 (- y).

(** [date.toISOString()], in UTC; [None] is the RangeError raised on
    an Invalid Date. *)
Definition toISOString (d : Date) : option string :=
  t ← d;
  Some (yearString (YearFromTime t) +:+ "-" +:+ pad 2 (MonthFromTime t + 1)
        +:+ "-" +:+ pad 2 (DateFromTime t)
        +:+ "T" +:+ pad 2 (HourFromTime t) +:+ ":" +:+ pad 2 (MinFromTime t)
        +:+ ":" +:+ pad 2 (SecFromTime t) +:+ "." +:+ pad 3 (msFromTime t) +:+ "Z").

End JsDate.

Import JsString JsDate.

(** ** The data model ([types/budget]) *)

Inductive CategoryType : Type := income | expense.

#[global] Instance CategoryType_eq_dec : EqDecision CategoryType.
Proof. solve_decision. Defined.

Record Category : Type := mkCategory {
  cat_id : Z;
  cat_name : string;
  cat_type : CategoryType;
  cat_color : string;
  cat_createdAt : string;
}.

Record TransactionRecord : Type := mkTransactionRecord {
  rec_id : Z;
  rec_description : string;
  rec_amount : Z;
  rec_occurredOn : string;
  rec_categoryId : option Z;
  rec_categoryName : option string;
  rec_categoryType : option CategoryType;
  rec_createdAt : string;
}.

(** [color?: string]: [None] when the property is absent. *)
Record CategoryInput : Type := mkCategoryInput {
  ci_name : string;
  ci_type : CategoryType;
  ci_color : option string;
}.

(** [occurredOn] is [None] when the caller leaves it out (undefined). *)
Record TransactionInput : Type := mkTransactionInput {
  ti_description : string;
  ti_amount : Z;
  ti_occurredOn : option string;
  ti_categoryId : option Z;
  ti_type : CategoryType;
}.

Record MonthlyTotals : Type := mkMonthlyTotals {
  mt_income : Z;
  mt_expenses : Z;
  mt_balance : Z;
}.

Record CategoryMonthlyTotal : Type := mkCategoryMonthlyTotal {
  cmt_categoryId : Z;
  cmt_categoryName : string;
  cmt_categoryType : CategoryType;
  cmt_total : Z;
}.

(** ** The store ([createTablesStatement]) *)

(** A row of [categories]; the table maps the primary key [id] to it. *)
Record CategoryRow : Type := mkCategoryRow {
  c_name : string;
  c_type : CategoryType;
  c_color : string;
  c_created_at : string;
}.

(** A row of [transactions]; [t_category_id] is [None] for SQL NULL. *)
Record TransactionRow : Type := mkTransactionRow {
  t_description : string;
  t_amount : Z;
  t_occurred_on : string;
  t_category_id : option Z;
  t_created_at : string;
}.

(** The two tables, for each the largest row id it ever held
    (AUTOINCREMENT keeps it in [sqlite_sequence]), and whether the
    schema has been applied: before that the file holds no table. *)
Record Database : Type := mkDatabase {
  categories : gmap Z CategoryRow;
  transactions : gmap Z TransactionRow;
  seq_categories : Z;
  seq_transactions : Z;
  tables : bool;
}.

Definition emptyDatabase : Database :=
  {| categories := ∅; transactions := ∅; seq_categories := 0; seq_transactions := 0;
     tables := false |}.

(** A JavaScript [Error], by its message. *)
Record Error : Type := mkError { message : string }.

Module Sql.

Definition unique_failed : Error :=
  mkError "UNIQUE constraint failed: categories.name".
Definition foreign_key_failed : Error :=
  mkError "FOREIGN KEY constraint failed".
Definition io_failed : Error := mkError "disk I/O error".
Definition no_such_table (table : string) : Error :=
  mkError ("no such table: " +:+ table).

(** A statement on [table] is compiled against the schema first:
    without the tables it raises and does nothing. *)
Definition prepare {A} (table : string) (q : Database → Error + A * Database)
    (db : Database) : Error + A * Database :=
  if tables db then q db else inl (no_such_table table).

(** The row id AUTOINCREMENT hands out: one more than the largest id
    the table holds or ever held. *)
Definition max_rowid {A} (m : gmap Z A) : Z := foldr Z.max 0 (map_to_list m).*1.
Definition next_rowid {A} (seq : Z) (m : gmap Z A) : Z := Z.max seq (max_rowid m) + 1.

(** [name TEXT NOT NULL UNIQUE], as seen by a row that is being
    written under id [self] ([None] for a new row). *)
Definition name_taken (self : option Z) (name : string) (cs : gmap Z CategoryRow) : Prop :=
  map_Exists (λ j c, Some j ≠ self ∧ c_name c = name) cs.

#[global] Instance name_taken_dec self name cs : Decision (name_taken self name cs).
Proof. unfold name_taken. apply _. Defined.

(** [category_id INTEGER REFERENCES categories(id)] *)
Definition references_ok (cid : option Z) (cs : gmap Z CategoryRow) : bool :=
  match cid with
  | Some i => bool_decide (is_Some (cs !! i))
  | None => true
  end.

(** INSERT INTO categories (name, type, color, created_at) VALUES (...);
    yields [lastInsertRowId]. *)
Definition insert_category (name : string) (type : CategoryType) (color createdAt : string)
    (db : Database) : Error + Z * Database :=
  if decide (name_taken None name (categories db)) then inl unique_failed
  else
    let id := next_rowid (seq_categories db) (categories db) in
    inr (id, {| categories := <[id := mkCategoryRow name type color createdAt]> (categories db);
                transactions := transactions db;
                seq_categories := id;
                seq_transactions := seq_transactions db;
                tables := tables db |}).

(** INSERT OR IGNORE INTO categories ...: a conflicting row is skipped.
    The row id has been drawn by then, and the statement completes, so
    the sequence keeps it: the id is not handed out again. *)
Definition insert_or_ignore_category (name : string) (type : CategoryType)
    (color createdAt : string) (db : Database) : Error + unit * Database :=
  match insert_category name type color createdAt db with
  | inr (_, db') => inr (tt, db')
  | inl _ =>
      inr (tt, {| categories := categories db;
                  transactions := transactions db;
                  seq_categories := next_rowid (seq_categories db) (categories db);
                  seq_transactions := seq_transactions db;
                  tables := tables db |})
  end.

(** SELECT id, name, type, color, created_at FROM categories WHERE id = $id *)
Definition select_category (id : Z) (db : Database) : Error + option Category * Database :=
  inr ((λ c, mkCategory id (c_name c) (c_type c) (c_color c) (c_created_at c))
         <$> categories db !! id, db).

(** SELECT type FROM categories WHERE id = $id *)
Definition select_category_type (id : Z) (db : Database)
    : Error + option CategoryType * Database :=
  inr (c_type <$> categories db !! id, db).

(** UPDATE categories SET name = $name, type = $type, color = $color
    WHERE id = $id; yields [changes]. *)
Definition update_category (id : Z) (name : string) (type : CategoryType) (color : string)
    (db : Database) : Error + Z * Database :=
  match categories db !! id with
  | None => inr (0, db)
  | Some c =>
      if decide (name_taken (Some id) name (categories db)) then inl unique_failed
      else inr (1, {| categories :=
                        <[id := mkCategoryRow name type color (c_created_at c)]> (categories db);
                      transactions := transactions db;
                      seq_categories := seq_categories db;
                      seq_transactions := seq_transactions db;
                      tables := tables db |})
  end.

(** CASE WHEN $type = 'expense' THEN -ABS(amount) ELSE ABS(amount) END *)
Definition signed (type : CategoryType) (amount : Z) : Z :=
  match type with
  | expense => - Z.abs amount
  | income => Z.abs amount
  end.

Definition resign (type : CategoryType) (t : TransactionRow) : TransactionRow :=
  mkTransactionRow (t_description t) (signed type (t_amount t)) (t_occurred_on t)
                   (t_category_id t) (t_created_at t).

(** UPDATE transactions SET amount = CASE ... END WHERE category_id = $id *)
Definition update_transactions_sign (id : Z) (type : CategoryType)
    (db : Database) : Error + unit * Database :=
  inr (tt,
       {| categories := categories db;
          transactions :=
            (λ t, if decide (t_category_id t = Some id) then resign type t else t)
              <$> transactions db;
          seq_categories := seq_categories db;
          seq_transactions := seq_transactions db;
          tables := tables db |}).

(** INSERT INTO transactions (description, amount, occurred_on,
    category_id, created_at) VALUES (...); yields [lastInsertRowId]. *)
Definition insert_transaction (description : string) (amount : Z) (occurredOn : string)
    (categoryId : option Z) (createdAt : string) (db : Database) : Error + Z * Database :=
  if references_ok categoryId (categories db) then
    let id := next_rowid (seq_transactions db) (transactions db) in
    inr (id, {| categories := categories db;
                transactions :=
                  <[id := mkTransactionRow description amount occurredOn categoryId createdAt]>
                    (transactions db);
                seq_categories := seq_categories db;
                seq_transactions := id;
                tables := tables db |})
  else inl foreign_key_failed.

(** UPDATE transactions SET description = $description, amount = $amount,
    occurred_on = $occurredOn, category_id = $categoryId WHERE id = $id;
    yields [changes]. *)
Definition update_transaction (id : Z) (description : string) (amount : Z)
    (occurredOn : string) (categoryId : option Z) (db : Database) : Error + Z * Database :=
  match transactions db !! id with
  | None => inr (0, db)
  | Some t =>
      if references_ok categoryId (categories db) then
        inr (1, {| categories := categories db;
                   transactions :=
                     <[id := mkTransactionRow description amount occurredOn categoryId
                                              (t_created_at t)]> (transactions db);
                   seq_categories := seq_categories db;
                   seq_transactions := seq_transactions db;
                   tables := tables db |})
      else inl foreign_key_failed
  end.

(** DELETE FROM transactions WHERE id = $id *)
Definition delete_transaction (id : Z) (db : Database) : Error + unit * Database :=
  inr (tt, {| categories := categories db;
              transactions := delete id (transactions db);
              seq_categories := seq_categories db;
              seq_transactions := seq_transactions db;
              tables := tables db |}).

(** A row of
    SELECT t.id, t.description, t.amount, t.occurred_on, t.category_id,
           t.created_at, c.name AS category_name, c.type AS category_type
      FROM transactions t LEFT JOIN categories c ON c.id = t.category_id *)
Record JoinedRow : Type := mkJoinedRow {
  j_id : Z;
  j_description : string;
  j_amount : Z;
  j_occurred_on : string;
  j_category_id : option Z;
  j_created_at : string;
  j_category_name : option string;
  j_category_type : option CategoryType;
}.

Definition left_join (db : Database) (id : Z) (t : TransactionRow) : JoinedRow :=
  let c := cid ← t_category_id t; categories db !! cid in
  mkJoinedRow id (t_description t) (t_amount t) (t_occurred_on t) (t_category_id t)
              (t_created_at t) (c_name <$> c) (c_type <$> c).

(** ... WHERE t.id = $id *)
Definition select_transaction (id : Z) (db : Database) : Error + option JoinedRow * Database :=
  inr (left_join db id <$> transactions db !! id, db).

(** occurred_on BETWEEN $start AND $end, on TEXT (binary collation) *)
Definition between (start end_ : string) (t : TransactionRow) : bool :=
  String.leb start (t_occurred_on t) && String.leb (t_occurred_on t) end_.

Definition rows_between (start end_ : string) (db : Database) : list (Z * TransactionRow) :=
  filter (λ kt, between start end_ kt.2 = true) (map_to_list (transactions db)).

(** The running sum of SUM over a REAL column: the values are added
    as doubles, in the order the rows are visited. *)
Definition total (l : list Z) : Z := foldl Double.add 0 l.

(** SUM(...): NULL over no rows. *)
Definition sum (l : list Z) : option Z :=
  match l with
  | [] => None
  | _ => Some (total l)
  end.

(** SELECT SUM(CASE WHEN amount >= 0 THEN amount ELSE 0 END) AS income,
           SUM(CASE WHEN amount < 0 THEN amount ELSE 0 END) AS expenses
      FROM transactions WHERE occurred_on BETWEEN $start AND $end
    An aggregate without GROUP BY always yields its one row. *)
Definition select_monthly_totals (start end_ : string) (db : Database)
    : Error + (option Z * option Z) * Database :=
  let amounts := (λ kt, t_amount kt.2) <$> rows_between start end_ db in
  inr ((sum ((λ a, if 0 <=? a then a else 0) <$> amounts),
        sum ((λ a, if a <? 0 then a else 0) <$> amounts)), db).

(** A row of the per-category breakdown:
    c.id AS category_id, c.name AS category_name,
    c.type AS category_type, SUM(t.amount) AS total *)
Record GroupRow : Type := mkGroupRow {
  g_category_id : Z;
  g_category_name : string;
  g_category_type : CategoryType;
  g_total : Z;
}.

(** FROM transactions t JOIN categories c ON c.id = t.category_id
    WHERE t.occurred_on BETWEEN $start AND $end:
    the grouping columns of [c] with the amount of [t]. *)
Definition inner_join (start end_ : string) (db : Database)
    : list ((Z * string * CategoryType) * Z) :=
  omap (λ kt : Z * TransactionRow,
          cid ← t_category_id kt.2;
          c ← categories db !! cid;
          Some ((cid, c_name c, c_type c), t_amount kt.2))
       (rows_between start end_ db).

(** GROUP BY c.id, c.name, c.type with SUM(t.amount) *)
Definition group_by (rows : list ((Z * string * CategoryType) * Z)) : list GroupRow :=
  (λ k : Z * string * CategoryType,
     mkGroupRow k.1.1 k.1.2 k.2
                (total ((filter (λ r, r.1 = k) rows).*2)))
    <$> remove_dups (rows.*1).

(** Text order of the [type] column: 'income' is above 'expense'. *)
Definition type_rank (type : CategoryType) : Z :=
  match type with
  | income => 1
  | expense => 0
  end.

(** ORDER BY c.type DESC, total DESC: [r1] may come before [r2]. *)
Definition order_by (r1 r2 : GroupRow) : Prop :=
  type_rank (g_category_type r2) < type_rank (g_category_type r1)
  ∨ (g_category_type r1 = g_category_type r2 ∧ g_total r2 <= g_total r1).

#[global] Instance order_by_dec r1 r2 : Decision (order_by r1 r2).
Proof. unfold order_by. apply _. Defined.

(** SELECT ... GROUP BY c.id, c.name, c.type ORDER BY c.type DESC, total DESC *)
Definition select_totals_by_category (start end_ : string) (db : Database)
    : Error + list GroupRow * Database :=
  inr (merge_sort order_by (group_by (inner_join start end_ db)), db).

End Sql.

(** ** The host: store handle, clock, time zone, storage faults *)

(** [handle] is [databaseInstance !== null].  [faults] schedules what
    the storage does to the statements to come: [true] makes the next
    one fail with an I/O error, [false] (or nothing left) lets it run. *)
Record World : Type := mkWorld {
  handle : bool;
  store : Database;
  clock : Z;
  tza : TimeZone;
  faults : list bool;
}.

(** The module is ready for use: the handle is set and the schema is
    in place, as after a [getDatabase()] that succeeded. *)
Definition opened (w : World) : bool := handle w && tables (store w).

Definition IO (A : Type) : Type := World → (Error + A) * World.

#[global] Instance IO_ret : MRet IO := λ A a w, (inr a, w).

#[global] Instance IO_bind : MBind IO := λ A B f m w,
  match m w with
  | (inr a, w') => f a w'
  | (inl e, w') => (inl e, w')
  end.

(** [throw e] *)
Definition throw {A} (e : Error) : IO A := λ w, (inl e, w).

(** [try { m } catch (error) { h error }] *)
Definition try_catch {A} (m : IO A) (h : Error → IO A) : IO A := λ w,
  match m w with
  | (inl e, w') => h e w'
  | r => r
  end.

(** One awaited call of the storage.  A call that raises leaves the
    store as it was. *)
Definition exec {A} (q : Database → Error + A * Database) : IO A := λ w,
  let w' := mkWorld (handle w) (store w) (clock w) (tza w) (tail (faults w)) in
  match faults w with
  | true :: _ => (inl Sql.io_failed, w')
  | _ =>
      match q (store w) with
      | inl e => (inl e, w')
      | inr (a, db) => (inr a, mkWorld (handle w) db (clock w) (tza w) (tail (faults w)))
      end
  end.

(** One awaited statement on [table]. *)
Definition statement {A} (table : string) (q : Database → Error + A * Database) : IO A :=
  exec (Sql.prepare table q).

(** [new Date()] *)
Definition now : IO Date := λ w, (inr (Some (clock w)), w).

Definition localTZA : IO TimeZone := λ w, (inr (tza w), w).

(** The value of an expression that raises RangeError on an Invalid
    Date. *)
Definition orRangeError {A} (o : option A) : IO A :=
  match o with
  | Some a => mret a
  | None => throw (mkError "Invalid time value")
  end.

(** ** The module [lib/database.ts] *)

Definition DEFAULT_CATEGORIES : list (string * CategoryType * string) :=
  [ ("Salary", income, "#2e7d32");
    ("Freelance", income, "#00796b");
    ("Investment Income", income, "#512da8");
    ("Groceries", expense, "#c62828");
    ("Housing", expense, "#ad1457");
    ("Transportation", expense, "#1565c0");
    ("Utilities", expense, "#ef6c00");
    ("Dining Out", expense, "#6a1b9a");
    ("Savings", expense, "#00838f");
    ("Health", expense, "#558b2f") ].

Definition seedDefaultCategories : IO unit :=
  d ← now;
  now_ ← orRangeError (toISOString d);
  foldr (λ category (rest : IO unit),
           statement "categories"
             (Sql.insert_or_ignore_category category.1.1 category.1.2 category.2 now_);;
           rest)
        (mret tt) DEFAULT_CATEGORIES.

(** [execAsync(createTablesStatement)]: CREATE TABLE IF NOT EXISTS
    leaves tables that exist, and their rows, as they are. *)
Definition createTables (db : Database) : Error + unit * Database :=
  inr (tt, {| categories := categories db;
              transactions := transactions db;
              seq_categories := seq_categories db;
              seq_transactions := seq_transactions db;
              tables := true |}).

(** The handle is assigned before the schema is applied. *)
Definition getDatabase : IO unit := λ w,
  if handle w then (inr tt, w)
  else (exec createTables;; seedDefaultCategories)
         (mkWorld true (store w) (clock w) (tza w) (faults w)).

Definition toDateOnlyString (date : Date) : option string :=
  slice0 10 <$> toISOString date.

Definition mapTransactionRow (row : Sql.JoinedRow) : TransactionRecord :=
  {| rec_id := Sql.j_id row;
     rec_description := Sql.j_description row;
     rec_amount := Sql.j_amount row;
     rec_occurredOn := Sql.j_occurred_on row;
     rec_categoryId := Sql.j_category_id row;
     rec_categoryName := Sql.j_category_name row;
     rec_categoryType := Sql.j_category_type row;
     rec_createdAt := Sql.j_created_at row |}.

Definition initializeDatabase : IO unit := getDatabase.

(** [(input.color ?? '').trim() || (input.type === 'expense' ? '#c62828' : '#2e7d32')] *)
Definition colorOrDefault (input : CategoryInput) : string :=
  let color := trim (default "" (ci_color input)) in
  if truthy color then color
  else match ci_type input with
       | expense => "#c62828"
       | income => "#2e7d32"
       end.

(** The handler shared by [createCategory] and [updateCategory]. *)
Definition uniqueToDuplicateName {A} (error : Error) : IO A :=
  if includes "UNIQUE" (message error)
  then throw (mkError "A category with that name already exists.")
  else throw error.

Definition createCategory (input : CategoryInput) : IO Category :=
  getDatabase;;
  let name := trim (ci_name input) in
  if negb (truthy name) then throw (mkError "Category name is required")
  else
    let color := colorOrDefault input in
    d ← now;
    createdAt ← orRangeError (toISOString d);
    try_catch
      (lastInsertRowId ← statement "categories"
                           (Sql.insert_category name (ci_type input) color createdAt);
       inserted ← statement "categories" (Sql.select_category lastInsertRowId);
       match inserted with
       | None => throw (mkError "Unable to load new category")
       | Some c => mret c
       end)
      uniqueToDuplicateName.

Definition updateCategory (id : Z) (input : CategoryInput) : IO Category :=
  getDatabase;;
  let name := trim (ci_name input) in
  if negb (truthy name) then throw (mkError "Category name is required")
  else
    let color := colorOrDefault input in
    try_catch
      (changes ← statement "categories" (Sql.update_category id name (ci_type input) color);
       if changes =? 0 then throw (mkError "Category not found.")
       else
         statement "transactions" (Sql.update_transactions_sign id (ci_type input));;
         updated ← statement "categories" (Sql.select_category id);
         match updated with
         | None => throw (mkError "Unable to load updated category")
         | Some c => mret c
         end)
      uniqueToDuplicateName.

(** The first part of [createTransaction] and of [updateTransaction]:
    [categoryId], [categoryType] and [normalizedAmount] as they stand
    when the write is issued. *)
Definition resolveAmount (input : TransactionInput)
    : IO (option Z * option CategoryType * Z) :=
  let normalizedAmount := Z.abs (ti_amount input) in
  let categoryType : option CategoryType := None in
  let categoryId := ti_categoryId input in
  match categoryId with
  | Some id =>
      category ← statement "categories" (Sql.select_category_type id);
      match category with
      | Some type =>
          mret (categoryId, Some type,
                match type with
                | expense => - Z.abs (ti_amount input)
                | income => Z.abs (ti_amount input)
                end)
      | None => mret (categoryId, categoryType, normalizedAmount)
      end
  | None =>
      mret (categoryId, Some (ti_type input),
            match ti_type input with
            | expense => - Z.abs (ti_amount input)
            | income => Z.abs (ti_amount input)
            end)
  end.

(** [input.occurredOn || toDateOnlyString(new Date())] *)
Definition occurredOnOrToday (input : TransactionInput) : IO string :=
  match ti_occurredOn input with
  | Some s => if truthy s then mret s else d ← now; orRangeError (toDateOnlyString d)
  | None => d ← now; orRangeError (toDateOnlyString d)
  end.

(** [mapTransactionRow({ ...row, category_type: categoryType ?? row.category_type })] *)
Definition withCategoryType (categoryType : option CategoryType) (row : Sql.JoinedRow)
    : TransactionRecord :=
  mapTransactionRow
    (Sql.mkJoinedRow (Sql.j_id row) (Sql.j_description row) (Sql.j_amount row)
       (Sql.j_occurred_on row) (Sql.j_category_id row) (Sql.j_created_at row)
       (Sql.j_category_name row)
       (match categoryType with
        | Some type => Some type
        | None => Sql.j_category_type row
        end)).

Definition createTransaction (input : TransactionInput) : IO TransactionRecord :=
  getDatabase;;
  '(categoryId, categoryType, normalizedAmount) ← resolveAmount input;
  d ← now;
  createdAt ← orRangeError (toISOString d);
  occurredOn ← occurredOnOrToday input;
  lastInsertRowId ← statement "transactions"
                      (Sql.insert_transaction (ti_description input) normalizedAmount
                         occurredOn categoryId createdAt);
  inserted ← statement "transactions" (Sql.select_transaction lastInsertRowId);
  match inserted with
  | None => throw (mkError "Unable to load inserted transaction")
  | Some row => mret (withCategoryType categoryType row)
  end.

Definition updateTransaction (id : Z) (input : TransactionInput) : IO TransactionRecord :=
  getDatabase;;
  '(categoryId, categoryType, normalizedAmount) ← resolveAmount input;
  occurredOn ← occurredOnOrToday input;
  changes ← statement "transactions"
              (Sql.update_transaction id (ti_description input) normalizedAmount
                 occurredOn categoryId);
  if changes =? 0 then throw (mkError "Transaction not found.")
  else
    updated ← statement "transactions" (Sql.select_transaction id);
    match updated with
    | None => throw (mkError "Unable to load updated transaction")
    | Some row => mret (withCategoryType categoryType row)
    end.

Definition deleteTransaction (id : Z) : IO unit :=
  getDatabase;;
  statement "transactions" (Sql.delete_transaction id).

Record Bounds : Type := mkBounds { b_start : string; b_end : string }.

(** [monthBounds(target)] in a host in the zone [tza]; [None] is the
    RangeError of [toISOString]. *)
Definition monthBoundsAt (tza : TimeZone) (target : Date) : option Bounds :=
  let start := newDate tza (getFullYear tza target) (getMonth tza target) 1 in
  let end_ := newDate tza (getFullYear tza target) ((λ m, m + 1) <$> getMonth tza target) 0 in
  s ← toDateOnlyString start;
  e ← toDateOnlyString end_;
  Some (mkBounds s e).

(** [target = new Date()] when the argument is left out. *)
Definition orNow (target : option Date) : IO Date :=
  match target with
  | Some d => mret d
  | None => now
  end.

Definition monthBounds (target : option Date) : IO Bounds :=
  d ← orNow target;
  z ← localTZA;
  orRangeError (monthBoundsAt z d).

Definition fetchMonthlyTotals (target : option Date) : IO MonthlyTotals :=
  d ← orNow target;
  getDatabase;;
  b ← monthBounds (Some d);
  row ← statement "transactions" (Sql.select_monthly_totals (b_start b) (b_end b));
  let income := default 0 row.1 in
  let expenses := Z.abs (default 0 row.2) in
  mret (mkMonthlyTotals income expenses (Double.sub income expenses)).

(** [rows.map((row) => ({ ..., total: row.category_type === 'expense' ? -row.total : row.total }))] *)
Definition toCategoryMonthlyTotal (row : Sql.GroupRow) : CategoryMonthlyTotal :=
  mkCategoryMonthlyTotal (Sql.g_category_id row) (Sql.g_category_name row)
    (Sql.g_category_type row)
    (match Sql.g_category_type row with
     | expense => - Sql.g_total row
     | income => Sql.g_total row
     end).

Definition fetchMonthlyTotalsByCategory (target : option Date) : IO (list CategoryMonthlyTotal) :=
  d ← orNow target;
  getDatabase;;
  b ← monthBounds (Some d);
  rows ← statement "transactions" (Sql.select_totals_by_category (b_start b) (b_end b));
  mret (toCategoryMonthlyTotal <$> rows).

Definition today : IO string :=
  d ← now;
  orRangeError (toDateOnlyString d).

(** ** Vocabulary of the statements proved below *)

(** The host [w] with the store replaced by [db]. *)
Definition withStore (db : Database) (w : World) : World :=
  mkWorld (handle w) db (clock w) (tza w) (faults w).

(** The error [createCategory] and [updateCategory] raise for a name
    that is taken. *)
Definition duplicateName : Error := mkError "A category with that name already exists.".

(** Length of month [m] (0 = January) of year [y]. *)
Definition daysInMonth (y m : Z) : Z :=
  let leap := if isLeapYear y then 1 else 0 in
  monthStart (m + 1) leap - monthStart m leap.

(** The calendar date [y]-[m]-[d] ([m] from 1) as YYYY-MM-DD. *)
Definition isoDate (y m d : Z) : string :=
  pad 4 y +:+ "-" +:+ pad 2 m +:+ "-" +:+ pad 2 d.

(** Local midnight at the start of day [d] of month [m] (0 = January)
    of year [y], as [new Date(y, m, d)] reads its arguments: [d] = 0 is
    the last day of the month before. *)
Definition localMidnight (y m d : Z) : Z := MakeDate (MakeDay y m d) (MakeTime 0 0 0 0).

(** The month before month [m] of year [y]. *)
Definition previousMonth (y m : Z) : Z * Z :=
  if m =? 0 then (y - 1, 11) else (y, m - 1).

(** The sum of a list of amounts, and the sum of their magnitudes, as
    integers.  Where the latter is at most 2^53, every sum of doubles
    over the list is exact, in whatever order it is taken. *)
Definition sumOf (l : list Z) : Z := foldr Z.add 0 l.
Definition magnitude (l : list Z) : Z := foldr (λ a s, Z.abs a + s) 0 l.




(** The stored amounts of the transactions in the window [b] that are
    linked to category [cid]. *)
Definition linkedAmountsIn (b : Bounds) (cid : Z) (db : Database) : list Z :=
  (λ kt : Z * TransactionRow, t_amount kt.2)
    <$> filter (λ kt : Z * TransactionRow, t_category_id kt.2 = Some cid)
               (Sql.rows_between (b_start b) (b_end b) db).

(** The sum as stored, recovered from a reported total. *)
Definition storedSum (r : CategoryMonthlyTotal) : Z :=
  match cmt_categoryType r with
  | expense => - cmt_total r
  | income => cmt_total r
  end.

(** [r1] may stand before [r2] in the report: type descending, then
    stored sum descending. *)
Definition reportOrder (r1 r2 : CategoryMonthlyTotal) : Prop :=
  Sql.type_rank (cmt_categoryType r2) < Sql.type_rank (cmt_categoryType r1)
  ∨ (cmt_categoryType r1 = cmt_categoryType r2 ∧ storedSum r2 <= storedSum r1).

(** What the schema and the module keep true of the store: category
    names are non-empty and unique, and every category a transaction
    refers to exists. *)
Record wellFormed (db : Database) : Prop := mkWellFormed {
  names_nonempty : ∀ k c, categories db !! k = Some c → c_name c ≠ "";
  names_unique : ∀ k1 k2 c1 c2,
    categories db !! k1 = Some c1 → categories db !! k2 = Some c2 →
    c_name c1 = c_name c2 → k1 = k2;
  references_exist : ∀ k t cid,
    transactions db !! k = Some t → t_category_id t = Some cid →
    is_Some (categories db !! cid);
}.

(** A statement keeps [P] when every store it produces from one that
    satisfies [P] satisfies it as well. *)
Definition keeps {A} (P : Database → Prop) (q : Database → Error + A * Database) : Prop :=
  ∀ db a db', P db → q db = inr (a, db') → P db'.

(** A computation preserves [P] when it ends, normally or not, in a
    store that satisfies [P] if it started in one. *)
Definition preserves {A} (P : Database → Prop) (m : IO A) : Prop :=
  ∀ w, P (store w) → P (store (m w).2).

(** The calls of the presentation layer. *)
Inductive Call : Type :=
  | InitializeDatabase
  | CreateCategory (input : CategoryInput)
  | UpdateCategory (id : Z) (input : CategoryInput)
  | CreateTransaction (input : TransactionInput)
  | UpdateTransaction (id : Z) (input : TransactionInput)
  | DeleteTransaction (id : Z)
  | FetchMonthlyTotals (target : option Date)
  | FetchMonthlyTotalsByCategory (target : option Date).

(** The host after a call has settled, whatever its outcome. *)
Definition after (call : Call) (w : World) : World :=
  match call with
  | InitializeDatabase => (initializeDatabase w).2
  | CreateCategory input => (createCategory input w).2
  | UpdateCategory id input => (updateCategory id input w).2
  | CreateTransaction input => (createTransaction input w).2
  | UpdateTransaction id input => (updateTransaction id input w).2
  | DeleteTransaction id => (deleteTransaction id w).2
  | FetchMonthlyTotals target => (fetchMonthlyTotals target w).2
  | FetchMonthlyTotalsByCategory target => (fetchMonthlyTotalsByCategory target w).2
  end.

(** The hosts the application can be in: it starts on an empty store,
    the module is the only writer, and between two calls the clock,
    the time zone and the storage's fault schedule may change and the
    process may restart (which drops the handle, not the store). *)
Inductive reachable : World → Prop :=
  | reachable_install clock tza faults :
      reachable (mkWorld false emptyDatabase clock tza faults)
  | reachable_call call w :
      reachable w → reachable (after call w)
  | reachable_host w kept clock tza faults :
      reachable w → (kept = true → handle w = true) →
      reachable (mkWorld kept (store w) clock tza faults).

(** ** Worked states *)

(** 15 February 2024, 11:00 UTC. *)
Definition noon : Z := 1707994800000.

(** A fresh installation in a host on UTC, after the first call. *)
Definition installed : World :=
  after InitializeDatabase (mkWorld false emptyDatabase noon 0 []).

Definition salaryRow : CategoryRow :=
  mkCategoryRow "Salary" income "#2e7d32" "2024-02-15T11:00:00.000Z".

Definition salary : TransactionInput :=
  mkTransactionInput "salary" 1000 None (Some 1) expense.
Definition groceries : TransactionInput :=
  mkTransactionInput "groceries" 200 None (Some 4) income.
Definition bread : TransactionInput :=
  mkTransactionInput "bread" (-50) (Some "") (Some 4) income.
Definition cash : TransactionInput :=
  mkTransactionInput "cash" 70 None None income.
Definition stale : TransactionInput :=
  mkTransactionInput "coffee" 50 (Some "2024-02-15") (Some 999) expense.

Definition salaryStored : TransactionRow :=
  mkTransactionRow "salary" 1000 "2024-02-15" (Some 1) "2024-02-15T11:00:00.000Z".

(** Three transactions in February 2024: +1000, -200 and -50. *)
Definition booked : World :=
  after (CreateTransaction bread)
    (after (CreateTransaction groceries)
       (after (CreateTransaction salary) installed)).

(** The same with one uncategorised transaction more. *)
Definition bookedWithCash : World := after (CreateTransaction cash) booked.

Definition february : Bounds := mkBounds "2024-02-01" "2024-02-29".

Definition salaryAsExpense : CategoryInput := mkCategoryInput "Salary" expense None.
Definition salaryAgain : CategoryInput := mkCategoryInput "  Salary " expense None.

(** The storage lets the first statement to come run and fails the
    second. *)
Definition failingSecond (w : World) : World :=
  mkWorld (handle w) (store w) (clock w) (tza w) [false; true].

(** The sign an amount has under a type: at most zero for an expense,
    at least zero for an income. *)
Definition signMatches (type : CategoryType) (amount : Z) : Prop :=
  match type with
  | expense => amount <= 0
  | income => 0 <= amount
  end.

(** Every transaction linked to a category carries the sign of the
    category's type; [except] names a category whose transactions are
    exempt. *)
Definition signsMatchExcept (except : option Z) (db : Database) : Prop :=
  ∀ k t cid c,
    transactions db !! k = Some t → t_category_id t = Some cid → Some cid ≠ except →
    categories db !! cid = Some c → signMatches (c_type c) (t_amount t).

Definition signsMatch : Database → Prop := signsMatchExcept None.

Definition consistent (db : Database) : Prop := wellFormed db ∧ signsMatch db.

(** The amount [resolveAmount] hands to the write carries the sign of
    the category the write links the row to, if that category exists. *)
Definition resolved (r : option Z * option CategoryType * Z) (db : Database) : Prop :=
  consistent db
  ∧ ∀ id c, r.1.1 = Some id → categories db !! id = Some c → signMatches (c_type c) r.2.

(** Between the two statements of [updateCategory]: the category has
    its new type, and only its own transactions may be out of line. *)
Definition retyped (id : Z) (type : CategoryType) (changes : Z) (db : Database) : Prop :=
  (changes = 0 ∧ consistent db)
  ∨ (changes ≠ 0 ∧ wellFormed db ∧ signsMatchExcept (Some id) db
     ∧ (c_type <$> categories db !! id) = Some type
     ∧ tables db = true).

(** [triple J P m Q]: run without storage faults from a store that
    satisfies [P], the computation [m] meets no fault, and it either
    returns [a] in a store that satisfies [Q a] or raises in a store
    that satisfies [J]. *)
Definition triple {A} (J P : Database → Prop) (m : IO A) (Q : A → Database → Prop) : Prop :=
  ∀ w, faults w = [] → P (store w) →
       faults (m w).2 = []
       ∧ match (m w).1 with
         | inr a => Q a (store (m w).2)
         | inl _ => J (store (m w).2)
         end.

(** [m] maintains the consistency of the store in runs without
    storage faults. *)
Definition maintains {A} (m : IO A) : Prop :=
  triple consistent consistent m (λ _, consistent).

(** The hosts the application can be in when the storage never fails. *)
Inductive faultless : World → Prop :=
  | faultless_install clock tza :
      faultless (mkWorld false emptyDatabase clock tza [])
  | faultless_call call w :
      faultless w → faultless (after call w)
  | faultless_host w kept clock tza :
      faultless w → (kept = true → handle w = true) →
      faultless (mkWorld kept (store w) clock tza []).

(** ** The listing operations of [lib/database.ts] *)

Module SqlList.

(** ORDER BY type DESC, name ASC: [c1] may come before [c2]. *)
Definition category_order (c1 c2 : Category) : Prop :=
  Sql.type_rank (cat_type c2) < Sql.type_rank (cat_type c1)
  ∨ (cat_type c1 = cat_type c2 ∧ String.le (cat_name c1) (cat_name c2)).

#[global] Instance category_order_dec c1 c2 : Decision (category_order c1 c2).
Proof. unfold category_order. apply _. Defined.

(** SELECT id, name, type, color, created_at as createdAt FROM categories
    ORDER BY type DESC, name ASC *)
Definition select_categories (db : Database) : Error + list Category * Database :=
  inr (merge_sort category_order
         ((λ kc : Z * CategoryRow,
             mkCategory kc.1 (c_name kc.2) (c_type kc.2) (c_color kc.2) (c_created_at kc.2))
            <$> map_to_list (categories db)), db).

(** ORDER BY t.occurred_on DESC, t.created_at DESC: [r1] may come
    before [r2]. *)
Definition transaction_order (r1 r2 : Sql.JoinedRow) : Prop :=
  (Sql.j_occurred_on r1 ≠ Sql.j_occurred_on r2
   ∧ String.le (Sql.j_occurred_on r2) (Sql.j_occurred_on r1))
  ∨ (Sql.j_occurred_on r1 = Sql.j_occurred_on r2
     ∧ String.le (Sql.j_created_at r2) (Sql.j_created_at r1)).

#[global] Instance transaction_order_dec r1 r2 : Decision (transaction_order r1 r2).
Proof. unfold transaction_order. apply _. Defined.

(** LIMIT $limit: a negative limit is no limit. *)
Definition limit_rows {A} (limit : Z) (rows : list A) : list A :=
  if limit <? 0 then rows else take (Z.to_nat limit) rows.

(** SELECT ... FROM transactions t LEFT JOIN categories c ON c.id = t.category_id
    ORDER BY t.occurred_on DESC, t.created_at DESC LIMIT $limit *)
Definition select_transactions (limit : Z) (db : Database)
    : Error + list Sql.JoinedRow * Database :=
  inr (limit_rows limit
         (merge_sort transaction_order
            ((λ kt : Z * TransactionRow, Sql.left_join db kt.1 kt.2)
               <$> map_to_list (transactions db))), db).

(** SELECT ... WHERE t.occurred_on BETWEEN $start AND $end
    ORDER BY t.occurred_on DESC, t.created_at DESC *)
Definition select_transactions_between (start end_ : string) (db : Database)
    : Error + list Sql.JoinedRow * Database :=
  inr (merge_sort transaction_order
         ((λ kt : Z * TransactionRow, Sql.left_join db kt.1 kt.2)
            <$> Sql.rows_between start end_ db), db).

End SqlList.

Definition fetchCategories : IO (list Category) :=
  getDatabase;;
  rows ← statement "categories" SqlList.select_categories;
  mret ((λ row, mkCategory (cat_id row) (cat_name row) (cat_type row) (cat_color row)
                           (cat_createdAt row)) <$> rows).

(** [limit = 50] when the argument is left out. *)
Definition fetchTransactions (limit : option Z) : IO (list TransactionRecord) :=
  getDatabase;;
  rows ← statement "transactions" (SqlList.select_transactions (default 50 limit));
  mret (mapTransactionRow <$> rows).

Definition fetchTransactionsForRange (startDate endDate : string)
    : IO (list TransactionRecord) :=
  getDatabase;;
  rows ← statement "transactions" (SqlList.select_transactions_between startDate endDate);
  mret (mapTransactionRow <$> rows).

(** ** The callers: [components/TransactionForm.tsx], [app/(tabs)/categories.tsx] *)

Definition is_digit (c : ascii) : bool :=
  (48 <=? nat_of_ascii c)%nat && (nat_of_ascii c <=? 57)%nat.

Definition is_dash (c : ascii) : bool := (nat_of_ascii c =? 45)%nat.

(** [dateRegex.test(s)] for [/^\d{4}-\d{2}-\d{2}$/] *)
Definition dateRegex (s : string) : bool :=
  match s with
  | String y1 (String y2 (String y3 (String y4 (String d1
      (String m1 (String m2 (String d2 (String a1 (String a2 EmptyString))))))))) =>
      is_digit y1 && is_digit y2 && is_digit y3 && is_digit y4 && is_dash d1
      && is_digit m1 && is_digit m2 && is_dash d2 && is_digit a1 && is_digit a2
  | _ => false
  end.

(** The [sections] of the categories screen: the income categories,
    then the expense categories, each group only when it has members. *)
Definition sections (categories : list Category) : list (string * list Category) :=
  let income := filter (λ category, cat_type category = income) categories in
  let expenses := filter (λ category, cat_type category = expense) categories in
  (if (0 <? length income)%nat then [("Income", income)] else [])
  ++ (if (0 <? length expenses)%nat then [("Expenses", expenses)] else []).

(** ** Vocabulary of the further statements *)

(** The row of [categories] a listed category stands for. *)
Definition rowOf (c : Category) : CategoryRow :=
  mkCategoryRow (cat_name c) (cat_type c) (cat_color c) (cat_createdAt c).

(** The errors of the validation and lookup paths. *)
Definition nameRequired : Error := mkError "Category name is required".
Definition categoryNotFound : Error := mkError "Category not found.".
Definition transactionNotFound : Error := mkError "Transaction not found.".
Definition invalidTime : Error := mkError "Invalid time value".

(** The color a category gets when the input names none. *)
Definition defaultColor (type : CategoryType) : string :=
  match type with
  | expense => "#c62828"
  | income => "#2e7d32"
  end.

(** The record the listings return for the stored row [t] under [id]. *)
Definition recordOf (db : Database) (id : Z) (t : TransactionRow) : TransactionRecord :=
  mapTransactionRow (Sql.left_join db id t).

(** [r1] may stand before [r2] in a listing: date descending, then
    creation time descending. *)
Definition recordOrder (r1 r2 : TransactionRecord) : Prop :=
  (rec_occurredOn r1 ≠ rec_occurredOn r2
   ∧ String.le (rec_occurredOn r2) (rec_occurredOn r1))
  ∨ (rec_occurredOn r1 = rec_occurredOn r2
     ∧ String.le (rec_createdAt r2) (rec_createdAt r1)).

(** [categoryTotals.slice(0, 4)]: the rows the home screen shows under
    "Top Categories". *)
Definition topCategories (categoryTotals : list CategoryMonthlyTotal)
    : list CategoryMonthlyTotal :=
  take 4 categoryTotals.

(** ** Further worked states *)

(** The store of [booked] as a restarted process finds it. *)
Definition restarted : World := mkWorld false (store booked) noon 0 [].

(** The store of [booked] after the first call of a restarted
    process: the defaults are all there, and seeding has skipped them
    once more. *)
Definition reseeded : World := after InitializeDatabase restarted.

(** A new installation, before the first call. *)
Definition newInstallation : World := mkWorld false emptyDatabase noon 0 [].


Definition pets : CategoryInput := mkCategoryInput "  Pets " expense None.
Definition blank : CategoryInput := mkCategoryInput "   " income (Some "#000000").
Definition salaryAsGroceries : CategoryInput := mkCategoryInput "Groceries" income None.

Definition rentOnThe20th : TransactionInput :=
  mkTransactionInput "rent" 700 (Some "2024-02-20") (Some 5) income.

(** 15 January of the year 50, 12:00 UTC. *)
Definition yearFifty : Z := MakeDate (DayFromYear 50 + 14) (MakeTime 12 0 0 0).

(** Europe/London in 2024: summer time, one hour ahead of UTC, from
    31 March 01:00 UTC to 27 October 01:00 UTC. *)
Definition london : TimeZone :=
  let begins := MakeDate (MakeDay 2024 2 31) (MakeTime 1 0 0 0) in
  let ends := MakeDate (MakeDay 2024 9 27) (MakeTime 1 0 0 0) in
  mkTimeZone
    (λ t, if (begins <=? t) && (t <? ends) then msPerHour else 0)
    (λ t, if (begins + msPerHour <=? t) && (t <? ends + msPerHour) then msPerHour else 0).

(** Noon UTC of 15 July, 28 October and 15 November 2024. *)
Definition july15 : Z := MakeDate (MakeDay 2024 6 15) (MakeTime 12 0 0 0).
Definition october28 : Z := MakeDate (MakeDay 2024 9 28) (MakeTime 12 0 0 0).
Definition november15 : Z := MakeDate (MakeDay 2024 10 15) (MakeTime 12 0 0 0).



(** * Proofs *)

(** ** Running the monad *)

Section Running.
Context {A B : Type}.

Lemma run_bind (m : IO A) (f : A → IO B) w :
  (m ≫= f) w = match m w with
               | (inr a, w') => f a w'
               | (inl e, w') => (inl e, w')
               end.
Proof. reflexivity. Qed.

Lemma run_exec (q : Database → Error + A * Database) w :
  faults w = [] →
  exec q w = match q (store w) with
             | inl e => (inl e, w)
             | inr (a, db) => (inr a, withStore db w)
             end.
Proof.
  intros Hf. destruct w as [o s c z fs]; simpl in *; subst fs.
  unfold exec, withStore; simpl. destruct (q s) as [e|[a db]]; reflexivity.
Qed.

Lemma opened_handle w : opened w = true → handle w = true.
Proof. unfold opened. by intros [? _]%andb_true_iff. Qed.

Lemma opened_tables w : opened w = true → tables (store w) = true.
Proof. unfold opened. by intros [_ ?]%andb_true_iff. Qed.

Lemma run_statement table (q : Database → Error + A * Database) w :
  faults w = [] →
  opened w = true →
  statement table q w = match q (store w) with
                        | inl e => (inl e, w)
                        | inr (a, db) => (inr a, withStore db w)
                        end.
Proof.
  intros Hf Ho. unfold statement. rewrite run_exec by done.
  unfold Sql.prepare. by rewrite (opened_tables w Ho).
Qed.


End Running.

Lemma getDatabase_opened w : opened w = true → getDatabase w = (inr tt, w).
Proof. intros H. unfold getDatabase. rewrite (opened_handle w H). reflexivity. Qed.

Lemma withStore_store db w : store (withStore db w) = db.
Proof. reflexivity. Qed.

Lemma withStore_faults db w : faults (withStore db w) = faults w.
Proof. reflexivity. Qed.

Lemma withStore_handle db w : handle (withStore db w) = handle w.
Proof. reflexivity. Qed.

Lemma withStore_id w : withStore (store w) w = w.
Proof. destruct w; reflexivity. Qed.

Lemma run_try_catch_ok {A} (m : IO A) h w a w' :
  m w = (inr a, w') → try_catch m h w = (inr a, w').
Proof. intros H. unfold try_catch. rewrite H. reflexivity. Qed.

Lemma run_try_catch_err {A} (m : IO A) h w e w' :
  m w = (inl e, w') → try_catch m h w = h e w'.
Proof. intros H. unfold try_catch. rewrite H. reflexivity. Qed.

Lemma run_exec_faulty {A} (q : Database → Error + A * Database) w fs :
  faults w = true :: fs →
  exec q w = (inl Sql.io_failed, mkWorld (handle w) (store w) (clock w) (tza w) fs).
Proof. intros Hf. unfold exec. rewrite Hf. reflexivity. Qed.

Lemma run_statement_faulty {A} table (q : Database → Error + A * Database) w fs :
  faults w = true :: fs →
  statement table q w
  = (inl Sql.io_failed, mkWorld (handle w) (store w) (clock w) (tza w) fs).
Proof. apply run_exec_faulty. Qed.

Lemma run_statement_spared {A} table (q : Database → Error + A * Database) w fs :
  faults w = false :: fs →
  opened w = true →
  statement table q w
  = match q (store w) with
    | inl e => (inl e, mkWorld (handle w) (store w) (clock w) (tza w) fs)
    | inr (a, db) => (inr a, mkWorld (handle w) db (clock w) (tza w) fs)
    end.
Proof.
  intros Hf Ho. unfold statement, exec, Sql.prepare.
  rewrite Hf, (opened_tables w Ho). reflexivity.
Qed.

Lemma run_monthBounds w d b :
  monthBoundsAt (tza w) d = Some b → monthBounds (Some d) w = (inr b, w).
Proof.
  intros H. unfold monthBounds. cbn [orNow].
  rewrite run_bind. cbn [mret IO_ret]. rewrite run_bind. unfold localTZA.
  rewrite H. reflexivity.
Qed.

Lemma run_orNow target w : orNow target w = (inr (default (Some (clock w)) target), w).
Proof. destruct target; reflexivity. Qed.

(** ** The storage primitives *)

Lemma max_rowid_ge {A} (m : gmap Z A) k v : m !! k = Some v → k <= Sql.max_rowid m.
Proof.
  intros Hk. unfold Sql.max_rowid.
  apply elem_of_map_to_list in Hk.
  assert (Hin : k ∈ (map_to_list m).*1) by (apply list_elem_of_fmap; exists (k, v); done).
  clear Hk. induction Hin as [x l|x y l Hin IH]; simpl; lia.
Qed.

Lemma next_rowid_fresh {A} seq (m : gmap Z A) : m !! Sql.next_rowid seq m = None.
Proof.
  destruct (m !! Sql.next_rowid seq m) as [v|] eqn:E; [|done].
  apply max_rowid_ge in E. unfold Sql.next_rowid in E. lia.
Qed.

Lemma next_rowid_above {A} seq (m : gmap Z A) :
  seq < Sql.next_rowid seq m ∧ ∀ k, is_Some (m !! k) → k < Sql.next_rowid seq m.
Proof.
  unfold Sql.next_rowid. split; [lia|]. intros k [v Hk].
  pose proof (max_rowid_ge m k v Hk). lia.
Qed.

Lemma toISOString_valid t : ∃ s, toISOString (Some t) = Some s.
Proof. eexists. reflexivity. Qed.

Lemma toDateOnlyString_valid t : ∃ s, toDateOnlyString (Some t) = Some s.
Proof. eexists. reflexivity. Qed.

Lemma signed_expense a : Sql.signed expense a <= 0 ∧ (a ≠ 0 → Sql.signed expense a < 0).
Proof. simpl. lia. Qed.

Lemma signed_income a : 0 <= Sql.signed income a.
Proof. simpl. lia. Qed.

Lemma truthy_nonempty s : s ≠ "" → truthy s = true.
Proof. destruct s; [congruence|reflexivity]. Qed.

Lemma truthy_spec s : truthy s = true → s ≠ "".
Proof. destruct s; [discriminate|discriminate]. Qed.

Lemma run_occurredOnOrToday input w :
  ∃ s, occurredOnOrToday input w = (inr s, w)
       ∧ s = match ti_occurredOn input with
             | Some o => if truthy o then o else default "" (toDateOnlyString (Some (clock w)))
             | None => default "" (toDateOnlyString (Some (clock w)))
             end.
Proof.
  unfold occurredOnOrToday.
  destruct (toDateOnlyString_valid (clock w)) as [s Hs].
  destruct (ti_occurredOn input) as [o|]; [destruct (truthy o)|].
  - eexists; split; reflexivity.
  - rewrite run_bind. unfold now. rewrite Hs. eexists; split; reflexivity.
  - rewrite run_bind. unfold now. rewrite Hs. eexists; split; reflexivity.
Qed.

Lemma run_resolveAmount_linked input w id c :
  faults w = [] →
  opened w = true →
  ti_categoryId input = Some id →
  categories (store w) !! id = Some c →
  resolveAmount input w
  = (inr (Some id, Some (c_type c), Sql.signed (c_type c) (ti_amount input)), w).
Proof.
  intros Hf Ho Hid Hc. unfold resolveAmount. rewrite Hid.
  rewrite run_bind, run_statement by done.
  unfold Sql.select_category_type. rewrite Hc. simpl. rewrite withStore_id.
  destruct (c_type c); reflexivity.
Qed.

Lemma run_resolveAmount_stale input w id :
  faults w = [] →
  opened w = true →
  ti_categoryId input = Some id →
  categories (store w) !! id = None →
  resolveAmount input w = (inr (Some id, None, Z.abs (ti_amount input)), w).
Proof.
  intros Hf Ho Hid Hc. unfold resolveAmount. rewrite Hid.
  rewrite run_bind, run_statement by done.
  unfold Sql.select_category_type. rewrite Hc. simpl. rewrite withStore_id.
  reflexivity.
Qed.

Lemma run_resolveAmount input w :
  faults w = [] →
  opened w = true →
  ∃ type amount,
    resolveAmount input w = (inr (ti_categoryId input, type, amount), w).
Proof.
  intros Hf Ho. unfold resolveAmount.
  destruct (ti_categoryId input) as [id|]; [|eexists _, _; reflexivity].
  rewrite run_bind, run_statement by done.
  unfold Sql.select_category_type. rewrite withStore_id.
  destruct (categories (store w) !! id) as [c|]; eexists _, _; reflexivity.
Qed.

(** ** Calendar facts *)

Lemma DayFromYear_succ y : DayFromYear (y + 1) = DayFromYear y + DaysInYear y.
Proof.
  unfold DayFromYear, DaysInYear, isLeapYear.
  destruct (Z.eqb_spec (y mod 4) 0), (Z.eqb_spec (y mod 100) 0), (Z.eqb_spec (y mod 400) 0);
    cbn [andb orb negb]; Z.div_mod_to_equations; lia.
Qed.

Lemma YearFromDay_spec y d :
  DayFromYear y <= d < DayFromYear (y + 1) → YearFromDay d = y.
Proof.
  intros Hd. unfold YearFromDay.
  assert (He : y - 1 <= 1970 + 400 * d / 146097 <= y + 1).
  { unfold DayFromYear in Hd. Z.div_mod_to_equations. lia. }
  set (e := 1970 + 400 * d / 146097) in *. clearbody e.
  assert (Hm1 : DayFromYear (y - 1) < DayFromYear y).
  { replace y with (y - 1 + 1) at 2 by lia. rewrite DayFromYear_succ.
    unfold DaysInYear. destruct (isLeapYear _); lia. }
  assert (Hp1 : DayFromYear (y + 1) < DayFromYear (y + 1 + 1)).
  { rewrite (DayFromYear_succ (y + 1)). unfold DaysInYear. destruct (isLeapYear _); lia. }
  assert (E : e = y - 1 ∨ e = y ∨ e = y + 1) by lia.
  destruct E as [-> | [-> | ->]].
  - replace (y - 1 + 1) with y by lia.
    destruct (Z.leb_spec (DayFromYear y) d); lia.
  - destruct (Z.leb_spec (DayFromYear (y + 1)) d); [lia|].
    destruct (Z.leb_spec (DayFromYear y) d); lia.
  - destruct (Z.leb_spec (DayFromYear (y + 1 + 1)) d); [lia|].
    destruct (Z.leb_spec (DayFromYear (y + 1)) d); lia.
Qed.

Lemma YearFromDay_bounds d :
  DayFromYear (YearFromDay d) <= d < DayFromYear (YearFromDay d + 1).
Proof.
  assert (H : ∃ y, DayFromYear y <= d < DayFromYear (y + 1)).
  { set (e := 1970 + 400 * d / 146097).
    assert (Hlo : DayFromYear (e - 1) <= d).
    { unfold e, DayFromYear. Z.div_mod_to_equations. lia. }
    assert (Hhi : d < DayFromYear (e + 1 + 1)).
    { unfold e, DayFromYear. Z.div_mod_to_equations. lia. }
    destruct (Z.le_gt_cases (DayFromYear (e + 1)) d).
    - exists (e + 1). lia.
    - destruct (Z.le_gt_cases (DayFromYear e) d).
      + exists e. lia.
      + exists (e - 1). replace (e - 1 + 1) with e by lia. lia. }
  destruct H as [y Hy]. by rewrite (YearFromDay_spec y d Hy).
Qed.

Ltac each_month m :=
  let E := fresh "E" in
  assert (E : m = 0 ∨ m = 1 ∨ m = 2 ∨ m = 3 ∨ m = 4 ∨ m = 5 ∨ m = 6 ∨ m = 7 ∨ m = 8
              ∨ m = 9 ∨ m = 10 ∨ m = 11) by lia;
  repeat destruct E as [-> | E]; try subst m;
  repeat match goal with
         | |- context [monthStart (?a + 1) _] =>
             let v := eval compute in (a + 1) in change (a + 1) with v
         end;
  cbn [monthStart].

Lemma monthStart_bounds m leap :
  0 <= m <= 11 → 0 <= leap <= 1 →
  0 <= monthStart m leap ∧ monthStart m leap + 28 <= monthStart (m + 1) leap
  ∧ monthStart (m + 1) leap <= 365 + leap.
Proof.
  intros Hm Hl. each_month m; lia.
Qed.

Lemma MonthFromDay_range k leap : 0 <= MonthFromDay k leap <= 11.
Proof.
  unfold MonthFromDay.
  repeat match goal with |- context [?a <? ?b] => destruct (a <? b); [lia|] end. lia.
Qed.

Lemma MonthFromDay_spec m leap k :
  0 <= m <= 11 → 0 <= leap <= 1 →
  monthStart m leap <= k < monthStart (m + 1) leap →
  MonthFromDay k leap = m.
Proof.
  intros Hm Hl. unfold MonthFromDay.
  each_month m; intros Hk;
    repeat match goal with
           | |- context [?a <? ?b] => destruct (Z.ltb_spec a b); try lia
           end.
Qed.

Lemma leap_flag_range y : 0 <= (if isLeapYear y then 1 else 0) <= 1.
Proof. destruct (isLeapYear y); lia. Qed.

Lemma DaysInYear_leap y : DaysInYear y = 365 + (if isLeapYear y then 1 else 0).
Proof. unfold DaysInYear. destruct (isLeapYear y); reflexivity. Qed.

(** The calendar fields of a time value that falls on day [k] of year [y]. *)
Lemma fields_of_day y k s :
  0 <= k < DaysInYear y → 0 <= s < msPerDay →
  let t := MakeDate (DayFromYear y + k) s in
  YearFromTime t = y ∧ DayWithinYear t = k
  ∧ InLeapYear t = (if isLeapYear y then 1 else 0).
Proof.
  intros Hk Hs t.
  assert (HD : Day t = DayFromYear y + k).
  { unfold t, Day, MakeDate, msPerDay in *. Z.div_mod_to_equations. lia. }
  assert (HY : YearFromTime t = y).
  { unfold YearFromTime. rewrite HD. apply YearFromDay_spec.
    rewrite DayFromYear_succ. lia. }
  unfold DayWithinYear, InLeapYear. rewrite HY, HD. repeat split; lia.
Qed.

Lemma fields_of_date y m d s :
  0 <= m <= 11 → 1 <= d <= daysInMonth y m → 0 <= s < msPerDay →
  let t := MakeDate (DayFromYear y + monthStart m (if isLeapYear y then 1 else 0) + d - 1) s in
  YearFromTime t = y ∧ MonthFromTime t = m ∧ DateFromTime t = d.
Proof.
  intros Hm Hd Hs t. unfold daysInMonth in Hd. cbv zeta in Hd.
  pose proof (leap_flag_range y) as Hl.
  pose proof (monthStart_bounds m _ Hm Hl) as Hb.
  set (leap := if isLeapYear y then 1 else 0) in *.
  destruct (fields_of_day y (monthStart m leap + d - 1) s) as (HY & HW & HL).
  { rewrite DaysInYear_leap. fold leap. lia. }
  { exact Hs. }
  replace (DayFromYear y + (monthStart m leap + d - 1))
    with (DayFromYear y + monthStart m leap + d - 1) in * by lia.
  fold t in HY, HW, HL.
  assert (HM : MonthFromTime t = m).
  { unfold MonthFromTime. rewrite HW, HL. fold leap. apply MonthFromDay_spec; lia. }
  unfold DateFromTime. rewrite HM, HW, HL. fold leap. repeat split; lia.
Qed.

(** ** Formatting *)

Lemma toDateOnlyString_fields t :
  0 <= YearFromTime t <= 9999 →
  toDateOnlyString (Some t)
  = Some (isoDate (YearFromTime t) (MonthFromTime t + 1) (DateFromTime t)).
Proof.
  intros Hy. unfold toDateOnlyString, toISOString, yearString, isoDate.
  cbn [mbind option_bind fmap option_fmap option_map].
  rewrite (proj2 (andb_true_iff _ _)) by (split; apply Z.leb_le; lia).
  reflexivity.
Qed.

(** ** [monthBounds] *)

Lemma DayFromYear_bounds y :
  100 <= y <= 9999 → -684000 <= DayFromYear y ∧ DayFromYear (y + 1) <= 2933000.
Proof. intros Hy. unfold DayFromYear. Z.div_mod_to_equations. lia. Qed.

(** The day that local midnight of day [d] of month [m] of year [y]
    prints as, when the zone's offset [z] at that local time is zero
    or behind UTC: the same day. *)
Lemma newDate_fields z y m d :
  - msPerDay < z <= 0 →
  100 <= y <= 9999 → 0 <= m <= 11 → 1 <= d <= daysInMonth y m →
  toDateOnlyString
    (TimeClip (MakeDate
       (DayFromYear y + monthStart m (if isLeapYear y then 1 else 0) + d - 1)
       (MakeTime 0 0 0 0) - z))
  = Some (isoDate y (m + 1) d).
Proof.
  intros Hz Hy Hm Hd.
  pose proof (leap_flag_range y) as Hl.
  pose proof (monthStart_bounds m _ Hm Hl) as Hb.
  pose proof (DayFromYear_bounds y Hy) as HB.
  pose proof (DayFromYear_succ y) as HS. rewrite DaysInYear_leap in HS.
  pose proof Hd as Hd'. unfold daysInMonth in Hd'. cbv zeta in Hd'.
  set (leap := if isLeapYear y then 1 else 0) in *.
  set (D := DayFromYear y + monthStart m leap + d - 1).
  assert (E : MakeDate D (MakeTime 0 0 0 0) - z = MakeDate D (- z)).
  { unfold MakeDate, MakeTime. lia. }
  rewrite E.
  destruct (fields_of_date y m d (- z)) as (HY & HM & HD); [done|done|lia|].
  fold leap D in HY, HM, HD.
  unfold TimeClip.
  rewrite (proj2 (Z.leb_le _ _)) by (unfold MakeDate, msPerDay in *; lia).
  rewrite toDateOnlyString_fields by lia.
  by rewrite HY, HM, HD.
Qed.

Lemma daysInMonth_range y m : 0 <= m <= 11 → 28 <= daysInMonth y m <= 31.
Proof.
  intros Hm. unfold daysInMonth. cbv zeta.
  pose proof (leap_flag_range y) as Hl.
  set (leap := if isLeapYear y then 1 else 0) in *. clearbody leap.
  each_month m; lia.
Qed.

Lemma MakeDay_first y m :
  0 <= m <= 11 →
  MakeDay y m 1 = DayFromYear y + monthStart m (if isLeapYear y then 1 else 0) + 1 - 1.
Proof.
  intros Hm. unfold MakeDay. cbv zeta.
  rewrite Z.div_small, Z.mod_small by lia. by rewrite Z.add_0_r.
Qed.

Lemma MakeDay_last y m :
  0 <= m <= 11 →
  MakeDay y (m + 1) 0
  = DayFromYear y + monthStart m (if isLeapYear y then 1 else 0) + daysInMonth y m - 1.
Proof.
  intros Hm. unfold MakeDay, daysInMonth. cbv zeta.
  destruct (decide (m = 11)) as [->|Hne].
  - change ((11 + 1) / 12) with 1. change ((11 + 1) mod 12) with 0.
    rewrite DayFromYear_succ, DaysInYear_leap. cbn [monthStart].
    change (11 + 1) with 12. cbn [monthStart]. lia.
  - rewrite Z.div_small, Z.mod_small by lia. rewrite !Z.add_0_r. lia.
Qed.

(** When the offset [z] at that local time is ahead of UTC, local
    midnight falls on the previous UTC day: day [d] of a month prints
    as day [d - 1], for [d] from 2 up to the first day of the next
    month. *)
Lemma newDate_fields_east z y m d :
  0 < z < msPerDay →
  100 <= y <= 9999 → 0 <= m <= 11 → 2 <= d <= daysInMonth y m + 1 →
  toDateOnlyString
    (TimeClip (MakeDate
       (DayFromYear y + monthStart m (if isLeapYear y then 1 else 0) + d - 1)
       (MakeTime 0 0 0 0) - z))
  = Some (isoDate y (m + 1) (d - 1)).
Proof.
  intros Hz Hy Hm Hd.
  pose proof (leap_flag_range y) as Hl.
  pose proof (monthStart_bounds m _ Hm Hl) as Hb.
  pose proof (DayFromYear_bounds y Hy) as HB.
  pose proof (DayFromYear_succ y) as HS. rewrite DaysInYear_leap in HS.
  pose proof Hd as Hd'. unfold daysInMonth in Hd'. cbv zeta in Hd'.
  set (leap := if isLeapYear y then 1 else 0) in *.
  set (D := DayFromYear y + monthStart m leap + (d - 1) - 1).
  assert (E : MakeDate (DayFromYear y + monthStart m leap + d - 1) (MakeTime 0 0 0 0) - z
              = MakeDate D (msPerDay - z)).
  { unfold D, MakeDate, MakeTime. lia. }
  rewrite E.
  destruct (fields_of_date y m (d - 1) (msPerDay - z)) as (HY & HM & HD);
    [done|lia|lia|].
  fold leap D in HY, HM, HD.
  unfold TimeClip.
  rewrite (proj2 (Z.leb_le _ _)) by (unfold D, MakeDate, msPerDay in *; lia).
  rewrite toDateOnlyString_fields by lia.
  by rewrite HY, HM, HD.
Qed.

Lemma previousMonth_last y m :
  0 <= m <= 11 →
  let p := previousMonth y m in
  0 <= p.2 <= 11
  ∧ DayFromYear y + monthStart m (if isLeapYear y then 1 else 0) + 1 - 1
    = DayFromYear p.1 + monthStart p.2 (if isLeapYear p.1 then 1 else 0)
      + (daysInMonth p.1 p.2 + 1) - 1.
Proof.
  intros Hm. unfold previousMonth, daysInMonth. cbv zeta.
  destruct (Z.eqb_spec m 0) as [->|Hne]; cbn [fst snd].
  - split; [lia|]. pose proof (DayFromYear_succ (y - 1)) as HS.
    rewrite DaysInYear_leap in HS. replace (y - 1 + 1) with y in HS by lia.
    change (11 + 1) with 12. cbn [monthStart]. lia.
  - split; [lia|]. replace (m - 1 + 1) with m by lia. lia.
Qed.

(** [new Date(y, m, d)] for a year that is taken as it is. *)
Lemma newDate_full_year tza y m d :
  100 <= y →
  newDate tza (Some y) (Some m) d
  = TimeClip (localMidnight y m d - offsetAtLocal tza (localMidnight y m d)).
Proof.
  intros Hy. unfold newDate, UTC, localMidnight.
  cbn [mbind option_bind].
  replace ((0 <=? y) && (y <=? 99)) with false
    by (symmetry; apply andb_false_iff; right; apply Z.leb_gt; lia).
  reflexivity.
Qed.

(** [new Date(y, m, d)] for a year of one or two digits. *)
Lemma newDate_two_digit_year tza y m d :
  0 <= y <= 99 →
  newDate tza (Some y) (Some m) d = newDate tza (Some (1900 + y)) (Some m) d.
Proof.
  intros Hy. unfold newDate. cbn [mbind option_bind].
  replace ((0 <=? y) && (y <=? 99)) with true
    by (symmetry; apply andb_true_iff; split; apply Z.leb_le; lia).
  replace ((0 <=? 1900 + y) && (1900 + y <=? 99)) with false
    by (symmetry; apply andb_false_iff; right; apply Z.leb_gt; lia).
  reflexivity.
Qed.

(** The two bounds of [monthBounds], each by the offset the zone has at
    the local midnight the bound is built from. *)
Lemma firstOfMonth_behind tza y m :
  100 <= y <= 9999 → 0 <= m <= 11 →
  - msPerDay < offsetAtLocal tza (localMidnight y m 1) <= 0 →
  toDateOnlyString (newDate tza (Some y) (Some m) 1) = Some (isoDate y (m + 1) 1).
Proof.
  intros Hy Hm Hz. pose proof (daysInMonth_range y m Hm) as Hd.
  rewrite newDate_full_year by lia.
  set (z := offsetAtLocal tza _) in *. clearbody z.
  unfold localMidnight. rewrite MakeDay_first by done.
  apply newDate_fields; (done || lia).
Qed.

Lemma lastOfMonth_behind tza y m :
  100 <= y <= 9999 → 0 <= m <= 11 →
  - msPerDay < offsetAtLocal tza (localMidnight y (m + 1) 0) <= 0 →
  toDateOnlyString (newDate tza (Some y) (Some (m + 1)) 0)
  = Some (isoDate y (m + 1) (daysInMonth y m)).
Proof.
  intros Hy Hm Hz. pose proof (daysInMonth_range y m Hm) as Hd.
  rewrite newDate_full_year by lia.
  set (z := offsetAtLocal tza _) in *. clearbody z.
  unfold localMidnight. rewrite MakeDay_last by done.
  apply newDate_fields; (done || lia).
Qed.

Lemma firstOfMonth_ahead tza y m :
  101 <= y <= 9999 → 0 <= m <= 11 →
  0 < offsetAtLocal tza (localMidnight y m 1) < msPerDay →
  let p := previousMonth y m in
  toDateOnlyString (newDate tza (Some y) (Some m) 1)
  = Some (isoDate p.1 (p.2 + 1) (daysInMonth p.1 p.2)).
Proof.
  intros Hy Hm Hz p.
  destruct (previousMonth_last y m Hm) as [Hp Hlast]. fold p in Hp, Hlast.
  pose proof (daysInMonth_range p.1 p.2 Hp) as Hdp.
  assert (Hpy : 100 <= p.1 <= 9999).
  { unfold p, previousMonth. destruct (m =? 0); cbn [fst]; lia. }
  rewrite newDate_full_year by lia.
  set (z := offsetAtLocal tza _) in *. clearbody z.
  unfold localMidnight. rewrite MakeDay_first by done. rewrite Hlast.
  rewrite newDate_fields_east by (done || lia).
  by replace (daysInMonth p.1 p.2 + 1 - 1) with (daysInMonth p.1 p.2) by lia.
Qed.

Lemma lastOfMonth_ahead tza y m :
  100 <= y <= 9999 → 0 <= m <= 11 →
  0 < offsetAtLocal tza (localMidnight y (m + 1) 0) < msPerDay →
  toDateOnlyString (newDate tza (Some y) (Some (m + 1)) 0)
  = Some (isoDate y (m + 1) (daysInMonth y m - 1)).
Proof.
  intros Hy Hm Hz. pose proof (daysInMonth_range y m Hm) as Hd.
  rewrite newDate_full_year by lia.
  set (z := offsetAtLocal tza _) in *. clearbody z.
  unfold localMidnight. rewrite MakeDay_last by done.
  apply newDate_fields_east; (done || lia).
Qed.

(** [monthBounds] from its two bounds. *)
Lemma monthBoundsAt_bounds tza t s e :
  let y := YearFromTime (LocalTime tza t) in
  let m := MonthFromTime (LocalTime tza t) in
  toDateOnlyString (newDate tza (Some y) (Some m) 1) = Some s →
  toDateOnlyString (newDate tza (Some y) (Some (m + 1)) 0) = Some e →
  monthBoundsAt tza (Some t) = Some (mkBounds s e).
Proof.
  intros y m Hs He. unfold monthBoundsAt, getFullYear, getMonth.
  cbn [mbind option_bind fmap option_fmap option_map]. fold y m.
  by rewrite Hs, He.
Qed.

Lemma local_month_range tza t : 0 <= MonthFromTime (LocalTime tza t) <= 11.
Proof. apply MonthFromDay_range. Qed.

(** Where the zone is at or behind UTC at both local midnights the
    bounds are built from, and for a local year that prints with four
    digits, [monthBounds] is the first and the last day of the target's
    local month. *)
Theorem monthBoundsAt_west tza t :
  let y := YearFromTime (LocalTime tza t) in
  let m := MonthFromTime (LocalTime tza t) in
  100 <= y <= 9999 →
  - msPerDay < offsetAtLocal tza (localMidnight y m 1) <= 0 →
  - msPerDay < offsetAtLocal tza (localMidnight y (m + 1) 0) <= 0 →
  monthBoundsAt tza (Some t)
  = Some (mkBounds (isoDate y (m + 1) 1) (isoDate y (m + 1) (daysInMonth y m))).
Proof.
  intros y m Hy Hs He. pose proof (local_month_range tza t) as Hm.
  apply monthBoundsAt_bounds.
  - by apply firstOfMonth_behind.
  - by apply lastOfMonth_behind.
Qed.

(** Where the zone is ahead of UTC at both local midnights, both
    bounds are one day early: the window starts on the last day of the
    previous month and ends on the day before the last day of the
    target's month. *)
Theorem monthBoundsAt_east tza t :
  let y := YearFromTime (LocalTime tza t) in
  let m := MonthFromTime (LocalTime tza t) in
  let p := previousMonth y m in
  101 <= y <= 9999 →
  0 < offsetAtLocal tza (localMidnight y m 1) < msPerDay →
  0 < offsetAtLocal tza (localMidnight y (m + 1) 0) < msPerDay →
  monthBoundsAt tza (Some t)
  = Some (mkBounds (isoDate p.1 (p.2 + 1) (daysInMonth p.1 p.2))
                   (isoDate y (m + 1) (daysInMonth y m - 1))).
Proof.
  intros y m p Hy Hs He. pose proof (local_month_range tza t) as Hm.
  apply monthBoundsAt_bounds.
  - by apply firstOfMonth_ahead.
  - apply lastOfMonth_ahead; (done || lia).
Qed.

(** Where the zone leaves summer time within the month (ahead of UTC
    on the first day, at or behind it on the last), only the start is
    a day early: the window starts on the last day of the previous
    month and ends on the last day of the target's month. *)
Theorem monthBoundsAt_across_change tza t :
  let y := YearFromTime (LocalTime tza t) in
  let m := MonthFromTime (LocalTime tza t) in
  let p := previousMonth y m in
  101 <= y <= 9999 →
  0 < offsetAtLocal tza (localMidnight y m 1) < msPerDay →
  - msPerDay < offsetAtLocal tza (localMidnight y (m + 1) 0) <= 0 →
  monthBoundsAt tza (Some t)
  = Some (mkBounds (isoDate p.1 (p.2 + 1) (daysInMonth p.1 p.2))
                   (isoDate y (m + 1) (daysInMonth y m))).
Proof.
  intros y m p Hy Hs He. pose proof (local_month_range tza t) as Hm.
  apply monthBoundsAt_bounds.
  - by apply firstOfMonth_ahead.
  - apply lastOfMonth_behind; (done || lia).
Qed.

(** ** Invariants of the store *)

Create HintDb preserves.

Section Preservation.
Variable P : Database → Prop.

Lemma preserves_ret {A} (a : A) : preserves P (mret a).
Proof. intros w H. exact H. Qed.

Lemma preserves_throw {A} e : preserves P (throw (A := A) e).
Proof. intros w H. exact H. Qed.

Lemma preserves_now : preserves P now.
Proof. intros w H. exact H. Qed.

Lemma preserves_localTZA : preserves P localTZA.
Proof. intros w H. exact H. Qed.

Lemma preserves_orRangeError {A} (o : option A) : preserves P (orRangeError o).
Proof. intros w H. destruct o; exact H. Qed.

Lemma preserves_bind {A B} (m : IO A) (f : A → IO B) :
  preserves P m → (∀ a, preserves P (f a)) → preserves P (m ≫= f).
Proof.
  intros Hm Hf w H. rewrite run_bind. specialize (Hm w H).
  destruct (m w) as [[e|a] w']; [exact Hm|]. apply Hf, Hm.
Qed.

Lemma preserves_try_catch {A} (m : IO A) h :
  preserves P m → (∀ e, preserves P (h e)) → preserves P (try_catch m h).
Proof.
  intros Hm Hh w H. unfold try_catch. specialize (Hm w H).
  destruct (m w) as [[e|a] w']; [apply Hh, Hm|exact Hm].
Qed.

Lemma preserves_exec {A} (q : Database → Error + A * Database) :
  keeps P q → preserves P (exec q).
Proof.
  intros Hq w H. unfold exec.
  destruct (faults w) as [|[] fs]; [| exact H |];
    (destruct (q (store w)) as [e|[a db]] eqn:E; [exact H|exact (Hq _ _ _ H E)]).
Qed.

Lemma keeps_prepare {A} table (q : Database → Error + A * Database) :
  keeps P q → keeps P (Sql.prepare table q).
Proof.
  intros Hq db a db' H. unfold Sql.prepare.
  destruct (tables db); [apply Hq, H|discriminate].
Qed.

Lemma preserves_statement {A} table (q : Database → Error + A * Database) :
  keeps P q → preserves P (statement table q).
Proof. intros Hq. apply preserves_exec, keeps_prepare, Hq. Qed.

Lemma preserves_uniqueToDuplicateName {A} e :
  preserves P (uniqueToDuplicateName (A := A) e).
Proof. intros w H. unfold uniqueToDuplicateName. destruct (includes _ _); exact H. Qed.

End Preservation.

#[global] Hint Resolve preserves_ret preserves_throw preserves_now preserves_localTZA
  preserves_orRangeError preserves_try_catch preserves_statement
  preserves_uniqueToDuplicateName : preserves.

Lemma keeps_read {A} P (f : Database → A) : keeps P (λ db, inr (f db, db)).
Proof. intros db a db' H [= _ <-]. exact H. Qed.

Lemma wellFormed_empty : wellFormed emptyDatabase.
Proof. split; cbn; intros *; rewrite lookup_empty; discriminate. Qed.

(** The invariants read the rows only. *)
Lemma wellFormed_rows db db' :
  categories db' = categories db → transactions db' = transactions db →
  wellFormed db → wellFormed db'.
Proof. intros Hc Ht [Hne Hun Hfk]. split; rewrite ?Hc, ?Ht; assumption. Qed.

Lemma insert_category_keeps name type color createdAt :
  name ≠ "" → keeps wellFormed (Sql.insert_category name type color createdAt).
Proof.
  intros Hname db id db' [Hne Hun Hfk]. unfold Sql.insert_category.
  destruct (decide _) as [|Hfree]; [discriminate|]. intros [= <- <-].
  set (new := Sql.next_rowid _ _).
  assert (Hnew : categories db !! new = None) by apply next_rowid_fresh.
  split; cbn [categories transactions].
  - intros k c. rewrite lookup_insert. case_decide; [intros [= <-]; exact Hname|apply Hne].
  - intros k1 k2 c1 c2. rewrite !lookup_insert.
    repeat case_decide; subst; try congruence.
    + intros [= <-] H2 E. cbn in E. destruct Hfree. exists k2, c2. by repeat split.
    + intros H1 [= <-] E. cbn in E. destruct Hfree. exists k1, c1. by repeat split.
    + apply Hun.
  - intros k t cid Ht Hc. destruct (Hfk k t cid Ht Hc) as [c Hcid].
    exists c. rewrite lookup_insert_ne; [exact Hcid|congruence].
Qed.

Lemma insert_or_ignore_category_keeps name type color createdAt :
  name ≠ "" → keeps wellFormed (Sql.insert_or_ignore_category name type color createdAt).
Proof.
  intros Hname db a db' H. unfold Sql.insert_or_ignore_category.
  destruct (Sql.insert_category _ _ _ _ db) as [e|[id db2]] eqn:E.
  - intros [= _ <-]. by apply (wellFormed_rows db).
  - intros [= _ <-]. exact (insert_category_keeps _ _ _ _ Hname _ _ _ H E).
Qed.

Lemma update_category_keeps id name type color :
  name ≠ "" → keeps wellFormed (Sql.update_category id name type color).
Proof.
  intros Hname db n db' [Hne Hun Hfk]. unfold Sql.update_category.
  destruct (categories db !! id) as [c|] eqn:Hc.
  2:{ intros [= _ <-]. by split. }
  destruct (decide _) as [|Hfree]; [discriminate|]. intros [= _ <-].
  split; cbn [categories transactions].
  - intros k c'. rewrite lookup_insert. case_decide; [intros [= <-]; exact Hname|apply Hne].
  - intros k1 k2 c1 c2. rewrite !lookup_insert.
    repeat case_decide; subst; try congruence.
    + intros [= <-] H2 E. cbn in E. destruct Hfree. exists k2, c2.
      split; [done|]. split; [congruence|done].
    + intros H1 [= <-] E. cbn in E. destruct Hfree. exists k1, c1.
      split; [done|]. split; [congruence|done].
    + apply Hun.
  - intros k t cid Ht Hcid. destruct (Hfk k t cid Ht Hcid) as [c' Hc'].
    rewrite lookup_insert. case_decide; eauto.
Qed.

Lemma update_transactions_sign_keeps id type :
  keeps wellFormed (Sql.update_transactions_sign id type).
Proof.
  intros db [] db' [Hne Hun Hfk] [= <-]. split; cbn [categories transactions]; try done.
  intros k t cid. rewrite lookup_fmap.
  destruct (transactions db !! k) as [t0|] eqn:Ht0; [|discriminate].
  cbn. intros [= <-] Hc. apply (Hfk k t0 cid Ht0).
  destruct (decide _); exact Hc.
Qed.

Lemma references_ok_spec cid cs :
  Sql.references_ok (Some cid) cs = true → is_Some (cs !! cid).
Proof. cbn. apply bool_decide_eq_true_1. Qed.

Lemma insert_transaction_keeps description amount occurredOn categoryId createdAt :
  keeps wellFormed (Sql.insert_transaction description amount occurredOn categoryId createdAt).
Proof.
  intros db id db' [Hne Hun Hfk]. unfold Sql.insert_transaction.
  destruct (Sql.references_ok _ _) eqn:Hok; [|discriminate]. intros [= _ <-].
  split; cbn [categories transactions]; try done.
  intros k t cid. rewrite lookup_insert. case_decide; [|apply Hfk].
  intros [= <-] Hc. cbn in Hc. subst categoryId. by apply references_ok_spec.
Qed.

Lemma update_transaction_keeps id description amount occurredOn categoryId :
  keeps wellFormed (Sql.update_transaction id description amount occurredOn categoryId).
Proof.
  intros db n db' [Hne Hun Hfk]. unfold Sql.update_transaction.
  destruct (transactions db !! id) as [t0|]; [|intros [= _ <-]; by split].
  destruct (Sql.references_ok _ _) eqn:Hok; [|discriminate]. intros [= _ <-].
  split; cbn [categories transactions]; try done.
  intros k t cid. rewrite lookup_insert. case_decide; [|apply Hfk].
  intros [= <-] Hc. cbn in Hc. subst categoryId. by apply references_ok_spec.
Qed.

Lemma delete_transaction_keeps id : keeps wellFormed (Sql.delete_transaction id).
Proof.
  intros db [] db' [Hne Hun Hfk] [= <-]. split; cbn [categories transactions]; try done.
  intros k t cid Ht. apply lookup_delete_Some in Ht as [_ Ht]. by apply (Hfk k t).
Qed.

#[global] Hint Resolve insert_category_keeps insert_or_ignore_category_keeps
  update_category_keeps update_transactions_sign_keeps insert_transaction_keeps
  update_transaction_keeps delete_transaction_keeps : preserves.

Lemma seed_names_nonempty :
  Forall (λ category : string * CategoryType * string, category.1.1 ≠ "") DEFAULT_CATEGORIES.
Proof. repeat constructor; discriminate. Qed.

Lemma seedDefaultCategories_preserves : preserves wellFormed seedDefaultCategories.
Proof.
  unfold seedDefaultCategories.
  apply preserves_bind; [auto with preserves|]. intros d.
  apply preserves_bind; [auto with preserves|]. intros now_.
  induction seed_names_nonempty as [|category l Hc Hl IH]; cbn [foldr];
    [auto with preserves|].
  apply preserves_bind; [auto with preserves|]. intros _. exact IH.
Qed.

Lemma createTables_keeps : keeps wellFormed createTables.
Proof. intros db [] db' [Hne Hun Hfk] [= <-]. by split. Qed.

Lemma getDatabase_preserves : preserves wellFormed getDatabase.
Proof.
  intros w H. unfold getDatabase. destruct (handle w); [exact H|].
  apply (preserves_bind wellFormed); [| |exact H].
  - apply preserves_exec, createTables_keeps.
  - intros _. apply seedDefaultCategories_preserves.
Qed.

#[global] Hint Resolve getDatabase_preserves : preserves.

Lemma createCategory_preserves input : preserves wellFormed (createCategory input).
Proof.
  unfold createCategory.
  apply preserves_bind; [auto with preserves|]. intros _.
  destruct (truthy (trim (ci_name input))) eqn:Hname; cbn [negb]; [|auto with preserves].
  apply truthy_spec in Hname.
  apply preserves_bind; [auto with preserves|]. intros d.
  apply preserves_bind; [auto with preserves|]. intros createdAt.
  apply preserves_try_catch; [|auto with preserves].
  apply preserves_bind; [auto with preserves|]. intros id.
  apply preserves_bind; [apply preserves_statement, keeps_read|].
  intros [c|]; auto with preserves.
Qed.

Lemma updateCategory_preserves id input : preserves wellFormed (updateCategory id input).
Proof.
  unfold updateCategory.
  apply preserves_bind; [auto with preserves|]. intros _.
  destruct (truthy (trim (ci_name input))) eqn:Hname; cbn [negb]; [|auto with preserves].
  apply truthy_spec in Hname.
  apply preserves_try_catch; [|auto with preserves].
  apply preserves_bind; [auto with preserves|]. intros changes.
  destruct (changes =? 0); [auto with preserves|].
  apply preserves_bind; [auto with preserves|]. intros _.
  apply preserves_bind; [apply preserves_statement, keeps_read|].
  intros [c|]; auto with preserves.
Qed.

Lemma resolveAmount_preserves input : preserves wellFormed (resolveAmount input).
Proof.
  unfold resolveAmount. destruct (ti_categoryId input) as [id|]; [|auto with preserves].
  apply preserves_bind; [apply preserves_statement, keeps_read|].
  intros [type|]; auto with preserves.
Qed.

Lemma occurredOnOrToday_preserves input : preserves wellFormed (occurredOnOrToday input).
Proof.
  unfold occurredOnOrToday.
  destruct (ti_occurredOn input) as [s|]; [destruct (truthy s)|];
    auto using preserves_bind with preserves.
Qed.

#[global] Hint Resolve resolveAmount_preserves occurredOnOrToday_preserves : preserves.

Lemma createTransaction_preserves input : preserves wellFormed (createTransaction input).
Proof.
  unfold createTransaction.
  apply preserves_bind; [auto with preserves|]. intros _.
  apply preserves_bind; [auto with preserves|]. intros [[categoryId categoryType] amount].
  apply preserves_bind; [auto with preserves|]. intros d.
  apply preserves_bind; [auto with preserves|]. intros createdAt.
  apply preserves_bind; [auto with preserves|]. intros occurredOn.
  apply preserves_bind; [auto with preserves|]. intros id.
  apply preserves_bind; [apply preserves_statement, keeps_read|].
  intros [row|]; auto with preserves.
Qed.

Lemma updateTransaction_preserves id input :
  preserves wellFormed (updateTransaction id input).
Proof.
  unfold updateTransaction.
  apply preserves_bind; [auto with preserves|]. intros _.
  apply preserves_bind; [auto with preserves|]. intros [[categoryId categoryType] amount].
  apply preserves_bind; [auto with preserves|]. intros occurredOn.
  apply preserves_bind; [auto with preserves|]. intros changes.
  destruct (changes =? 0); [auto with preserves|].
  apply preserves_bind; [apply preserves_statement, keeps_read|].
  intros [row|]; auto with preserves.
Qed.

Lemma deleteTransaction_preserves id : preserves wellFormed (deleteTransaction id).
Proof.
  unfold deleteTransaction.
  apply preserves_bind; [auto with preserves|]. intros _. auto with preserves.
Qed.

Lemma orNow_preserves target : preserves wellFormed (orNow target).
Proof. unfold orNow. destruct target; auto with preserves. Qed.

Lemma monthBounds_preserves target : preserves wellFormed (monthBounds target).
Proof.
  unfold monthBounds.
  apply preserves_bind; [apply orNow_preserves|]. intros d.
  apply preserves_bind; auto with preserves.
Qed.

#[global] Hint Resolve orNow_preserves monthBounds_preserves : preserves.

Lemma fetchMonthlyTotals_preserves target :
  preserves wellFormed (fetchMonthlyTotals target).
Proof.
  unfold fetchMonthlyTotals.
  apply preserves_bind; [auto with preserves|]. intros d.
  apply preserves_bind; [auto with preserves|]. intros _.
  apply preserves_bind; [auto with preserves|]. intros b.
  apply preserves_bind; [apply preserves_statement, keeps_read|].
  auto with preserves.
Qed.

Lemma fetchMonthlyTotalsByCategory_preserves target :
  preserves wellFormed (fetchMonthlyTotalsByCategory target).
Proof.
  unfold fetchMonthlyTotalsByCategory.
  apply preserves_bind; [auto with preserves|]. intros d.
  apply preserves_bind; [auto with preserves|]. intros _.
  apply preserves_bind; [auto with preserves|]. intros b.
  apply preserves_bind; [apply preserves_statement, keeps_read|].
  auto with preserves.
Qed.
Theorem reachable_wellFormed w : reachable w → wellFormed (store w).
Proof.
  induction 1 as [| call w Hw IH | w handle clock tza faults Hw IH Hh].
  - apply wellFormed_empty.
  - destruct call; cbn [after].
    + by apply getDatabase_preserves.
    + by apply createCategory_preserves.
    + by apply updateCategory_preserves.
    + by apply createTransaction_preserves.
    + by apply updateTransaction_preserves.
    + by apply deleteTransaction_preserves.
    + by apply fetchMonthlyTotals_preserves.
    + by apply fetchMonthlyTotalsByCategory_preserves.
  - exact IH.
Qed.

(** ** Sign consistency of the store *)

Section Triples.
Variable J : Database → Prop.

Lemma triple_ret {A} (Q : A → Database → Prop) a : triple J (Q a) (mret a) Q.
Proof. intros w Hf H. split; [exact Hf|exact H]. Qed.

Lemma triple_throw {A} (Q : A → Database → Prop) e : triple J J (throw e) Q.
Proof. intros w Hf H. split; [exact Hf|exact H]. Qed.

Lemma triple_weaken {A} (P P' : Database → Prop) (m : IO A) (Q Q' : A → Database → Prop) :
  triple J P' m Q' → (∀ db, P db → P' db) → (∀ a db, Q' a db → Q a db) → triple J P m Q.
Proof.
  intros Hm HP HQ w Hf H. destruct (Hm w Hf (HP _ H)) as [Hf' Hpost].
  split; [exact Hf'|]. destruct ((m w).1); [exact Hpost|by apply HQ].
Qed.

Lemma triple_bind {A B} P (m : IO A) Q (f : A → IO B) R :
  triple J P m Q → (∀ a, triple J (Q a) (f a) R) → triple J P (m ≫= f) R.
Proof.
  intros Hm Hf w Hw H. rewrite run_bind. destruct (Hm w Hw H) as [Hw' Hpost].
  destruct (m w) as [[e|a] w']; cbn [fst snd] in *; [by split|].
  by apply Hf.
Qed.

Lemma triple_try_catch {A} P (m : IO A) Q h :
  triple J P m Q → (∀ e, triple J J (h e) Q) → triple J P (try_catch m h) Q.
Proof.
  intros Hm Hh w Hw H. unfold try_catch. destruct (Hm w Hw H) as [Hw' Hpost].
  destruct (m w) as [[e|a] w']; cbn [fst snd] in *; [by apply Hh|by split].
Qed.

Lemma triple_exec {A} (P : Database → Prop) (q : Database → Error + A * Database)
    (Q : A → Database → Prop) :
  (∀ db, P db → match q db with
                | inl _ => J db
                | inr (a, db') => Q a db'
                end) →
  triple J P (exec q) Q.
Proof.
  intros Hq w Hw H. rewrite run_exec by done. specialize (Hq _ H).
  destruct (q (store w)) as [e|[a db]]; cbn [fst snd]; by split.
Qed.

Lemma triple_statement {A} (P : Database → Prop) table
    (q : Database → Error + A * Database) (Q : A → Database → Prop) :
  (∀ db, P db → if tables db
                then match q db with
                     | inl _ => J db
                     | inr (a, db') => Q a db'
                     end
                else J db) →
  triple J P (statement table q) Q.
Proof.
  intros Hq. apply triple_exec. intros db H. specialize (Hq db H).
  unfold Sql.prepare. by destruct (tables db).
Qed.

Lemma triple_read {A} table (f : Database → A) :
  triple J J (statement table (λ db, inr (f db, db))) (λ a db, J db ∧ a = f db).
Proof. apply triple_statement. intros db H. by destruct (tables db). Qed.

Lemma triple_now P : triple J P now (λ _, P).
Proof. intros w Hf H. by split. Qed.

Lemma triple_localTZA P : triple J P localTZA (λ _, P).
Proof. intros w Hf H. by split. Qed.

Lemma triple_orRangeError {A} (P : Database → Prop) (o : option A) :
  (∀ db, P db → J db) → triple J P (orRangeError o) (λ _, P).
Proof. intros HP w Hf H. destruct o; (split; [exact Hf|]); cbn; auto. Qed.

Lemma triple_occurredOnOrToday (P : Database → Prop) input :
  triple J P (occurredOnOrToday input) (λ _, P).
Proof.
  intros w Hf H. destruct (run_occurredOnOrToday input w) as (s & -> & _). by split.
Qed.

Lemma triple_uniqueToDuplicateName {A} (Q : A → Database → Prop) e :
  triple J J (uniqueToDuplicateName e) Q.
Proof.
  intros w Hf H. unfold uniqueToDuplicateName. destruct (includes _ _); by split.
Qed.

Lemma triple_orNow target : triple J J (orNow target) (λ _, J).
Proof. intros w Hf H. unfold orNow. destruct target; by split. Qed.

(** A computation that keeps [J] at every step, whatever it returns. *)
Lemma triple_keeps_exec {A} (q : Database → Error + A * Database) :
  keeps J q → triple J J (exec q) (λ _, J).
Proof.
  intros Hq. apply triple_exec. intros db H.
  destruct (q db) as [e|[a db']] eqn:E; [exact H|exact (Hq _ _ _ H E)].
Qed.

Lemma triple_keeps {A} table (q : Database → Error + A * Database) :
  keeps J q → triple J J (statement table q) (λ _, J).
Proof. intros Hq. apply triple_keeps_exec, keeps_prepare, Hq. Qed.

End Triples.

Lemma signMatches_signed type amount : signMatches type (Sql.signed type amount).
Proof. destruct type; cbn; lia. Qed.

Lemma signMatches_resolved type amount :
  signMatches type (match type with
                    | expense => - Z.abs amount
                    | income => Z.abs amount
                    end).
Proof. exact (signMatches_signed type amount). Qed.

(** The invariants read the rows only. *)
Lemma consistent_rows db db' :
  categories db' = categories db → transactions db' = transactions db →
  consistent db → consistent db'.
Proof.
  intros Hc Ht [Hwf Hs]. split; [by apply (wellFormed_rows db)|].
  unfold signsMatch, signsMatchExcept in *. rewrite Hc, Ht. exact Hs.
Qed.

Lemma createTables_consistent : keeps consistent createTables.
Proof. intros db [] db' H [= <-]. by apply (consistent_rows db). Qed.

Lemma consistent_empty : consistent emptyDatabase.
Proof.
  split; [apply wellFormed_empty|]. intros k t cid c Ht. cbn in Ht.
  rewrite lookup_empty in Ht. discriminate.
Qed.

Lemma insert_category_consistent name type color createdAt :
  name ≠ "" → keeps consistent (Sql.insert_category name type color createdAt).
Proof.
  intros Hname db id db' [Hwf Hs] Hq. split.
  { exact (insert_category_keeps _ _ _ _ Hname _ _ _ Hwf Hq). }
  revert Hq. unfold Sql.insert_category.
  destruct (decide _); [discriminate|]. intros [= <- <-].
  intros k t cid c Ht Hcid _. cbn [categories transactions] in *.
  destruct (references_exist _ Hwf k t cid Ht Hcid) as [c0 Hc0].
  rewrite lookup_insert_ne.
  - by apply (Hs k t cid c).
  - intros E. rewrite <- E, next_rowid_fresh in Hc0. discriminate.
Qed.

Lemma insert_or_ignore_category_consistent name type color createdAt :
  name ≠ "" → keeps consistent (Sql.insert_or_ignore_category name type color createdAt).
Proof.
  intros Hname db a db' H. unfold Sql.insert_or_ignore_category.
  destruct (Sql.insert_category _ _ _ _ db) as [e|[id db2]] eqn:E.
  - intros [= _ <-]. by apply (consistent_rows db).
  - intros [= _ <-]. exact (insert_category_consistent _ _ _ _ Hname _ _ _ H E).
Qed.

Lemma delete_transaction_consistent id : keeps consistent (Sql.delete_transaction id).
Proof.
  intros db a db' [Hwf Hs] Hq. split.
  { exact (delete_transaction_keeps _ _ _ _ Hwf Hq). }
  injection Hq as _ <-. intros k t cid c Ht. cbn [categories transactions] in *.
  apply lookup_delete_Some in Ht as [_ Ht]. by apply (Hs k t cid c).
Qed.

Lemma insert_transaction_consistent description r occurredOn createdAt db :
  resolved r db →
  match Sql.insert_transaction description r.2 occurredOn r.1.1 createdAt db with
  | inl _ => consistent db
  | inr (_, db') => consistent db'
  end.
Proof.
  intros [[Hwf Hs] Hr].
  destruct (Sql.insert_transaction _ _ _ _ _ db) as [e|[id db']] eqn:Hq; [by split|].
  split. { exact (insert_transaction_keeps _ _ _ _ _ _ _ _ Hwf Hq). }
  revert Hq. unfold Sql.insert_transaction.
  destruct (Sql.references_ok _ _); [|discriminate]. intros [= _ <-].
  intros k t cid c. cbn [categories transactions]. rewrite lookup_insert.
  case_decide.
  - intros [= <-] Hcid _ Hc. cbn in *. by apply (Hr cid c).
  - intros Ht Hcid _ Hc. by apply (Hs k t cid c).
Qed.

Lemma update_transaction_consistent id description r occurredOn db :
  resolved r db →
  match Sql.update_transaction id description r.2 occurredOn r.1.1 db with
  | inl _ => consistent db
  | inr (_, db') => consistent db'
  end.
Proof.
  intros [[Hwf Hs] Hr].
  destruct (Sql.update_transaction _ _ _ _ _ db) as [e|[n db']] eqn:Hq; [by split|].
  split. { exact (update_transaction_keeps _ _ _ _ _ _ _ _ Hwf Hq). }
  revert Hq. unfold Sql.update_transaction.
  destruct (transactions db !! id) as [t0|]; [|intros [= _ <-]; exact Hs].
  destruct (Sql.references_ok _ _); [|discriminate]. intros [= _ <-].
  intros k t cid c. cbn [categories transactions]. rewrite lookup_insert.
  case_decide.
  - intros [= <-] Hcid _ Hc. cbn in *. by apply (Hr cid c).
  - intros Ht Hcid _ Hc. by apply (Hs k t cid c).
Qed.

Lemma update_category_retyped id name type color db :
  name ≠ "" → consistent db → tables db = true →
  match Sql.update_category id name type color db with
  | inl _ => consistent db
  | inr (changes, db') => retyped id type changes db'
  end.
Proof.
  intros Hname [Hwf Hs] Htb.
  destruct (Sql.update_category _ _ _ _ db) as [e|[n db']] eqn:Hq; [by split|].
  pose proof (update_category_keeps _ _ _ _ Hname _ _ _ Hwf Hq) as Hwf'.
  revert Hq Hwf'. unfold Sql.update_category.
  destruct (categories db !! id) as [c0|] eqn:Hc0.
  2:{ intros [= <- <-] _. left. split; [done|]. by split. }
  destruct (decide _); [discriminate|]. intros [= <- <-] Hwf'.
  right. split; [done|]. split; [exact Hwf'|]. cbn [categories transactions tables].
  split; [|by rewrite lookup_insert_eq].
  intros k t cid c. cbn [categories transactions]. intros Ht Hcid Hne. rewrite lookup_insert_ne by congruence.
  by apply (Hs k t cid c).
Qed.

Lemma update_transactions_sign_consistent id type changes db :
  changes ≠ 0 → retyped id type changes db →
  match Sql.update_transactions_sign id type db with
  | inl _ => consistent db
  | inr (_, db') => consistent db'
  end.
Proof.
  intros Hch [[? _]|(_ & Hwf & Hs & Hty & _)]; [done|].
  cbn. split. { exact (update_transactions_sign_keeps _ _ _ _ _ Hwf eq_refl). }
  intros k t cid c. cbn [categories transactions]. rewrite lookup_fmap.
  destruct (transactions db !! k) as [t0|] eqn:Ht0; [|discriminate].
  cbn. intros [= <-]. destruct (decide (t_category_id t0 = Some id)) as [E|E].
  - cbn. intros Hcid _ Hc. rewrite E in Hcid. injection Hcid as <-.
    rewrite Hc in Hty. injection Hty as ->. apply signMatches_signed.
  - intros Hcid _ Hc. apply (Hs k t0 cid c); congruence.
Qed.

Lemma maintains_ret {A} (a : A) : maintains (mret a).
Proof. apply (triple_ret consistent (λ _, consistent)). Qed.

Lemma maintains_throw {A} e : maintains (throw (A := A) e).
Proof. apply (triple_throw consistent (λ _, consistent)). Qed.

Lemma seedDefaultCategories_maintains : maintains seedDefaultCategories.
Proof.
  unfold maintains, seedDefaultCategories.
  eapply triple_bind; [apply triple_now|]. intros d.
  eapply triple_bind; [by apply triple_orRangeError|]. intros now_.
  induction seed_names_nonempty as [|category l Hc Hl IH]; cbn [foldr];
    [apply maintains_ret|].
  eapply triple_bind; [|intros u; exact IH].
  by apply triple_keeps, insert_or_ignore_category_consistent.
Qed.

Lemma getDatabase_maintains : maintains getDatabase.
Proof.
  intros w Hf H. unfold getDatabase. destruct (handle w); [by split|].
  assert (Hm : maintains (exec createTables;; seedDefaultCategories)).
  { unfold maintains.
    eapply triple_bind; [apply triple_keeps_exec, createTables_consistent|].
    intros u. apply seedDefaultCategories_maintains. }
  exact (Hm (mkWorld true (store w) (clock w) (tza w) (faults w)) Hf H).
Qed.

Lemma createCategory_maintains input : maintains (createCategory input).
Proof.
  unfold maintains, createCategory.
  eapply triple_bind; [apply getDatabase_maintains|]. intros ?. cbn beta.
  destruct (truthy (trim (ci_name input))) eqn:Hname; cbn [negb]; [|apply maintains_throw].
  apply truthy_spec in Hname.
  eapply triple_bind; [apply triple_now|]. intros d.
  eapply triple_bind; [by apply triple_orRangeError|]. intros createdAt.
  apply triple_try_catch; [|intros e; apply triple_uniqueToDuplicateName].
  eapply triple_bind; [by apply triple_keeps, insert_category_consistent|]. intros id.
  eapply triple_bind; [apply triple_keeps, keeps_read|].
  intros [c|]; [apply maintains_ret|apply maintains_throw].
Qed.

Lemma updateCategory_maintains id input : maintains (updateCategory id input).
Proof.
  unfold maintains, updateCategory.
  eapply triple_bind; [apply getDatabase_maintains|]. intros ?. cbn beta.
  destruct (truthy (trim (ci_name input))) eqn:Hname; cbn [negb]; [|apply maintains_throw].
  apply truthy_spec in Hname.
  apply triple_try_catch; [|intros e; apply triple_uniqueToDuplicateName].
  eapply triple_bind.
  { apply (triple_statement consistent consistent _ _ (retyped id (ci_type input))).
    intros db H. destruct (tables db) eqn:Htb; [|exact H].
    by apply update_category_retyped. }
  intros changes. destruct (Z.eqb_spec changes 0) as [->|Hch].
  { eapply triple_weaken; [apply maintains_throw| |done].
    intros db [[_ H]|[? _]]; done. }
  eapply triple_bind.
  { apply (triple_statement consistent _ _ _ (λ _, consistent)).
    intros db H. destruct (tables db) eqn:Htb.
    - by apply (update_transactions_sign_consistent id _ changes).
    - destruct H as [[? _]|(_ & _ & _ & _ & Htb')]; [done|congruence]. }
  intros ?. cbn beta.
  eapply triple_bind; [apply triple_keeps, keeps_read|].
  intros [c|]; [apply maintains_ret|apply maintains_throw].
Qed.

Lemma resolveAmount_resolved input :
  triple consistent consistent (resolveAmount input) resolved.
Proof.
  unfold resolveAmount. destruct (ti_categoryId input) as [id|] eqn:Hid.
  - eapply triple_bind; [apply (triple_read consistent)|].
    intros category. cbn beta.
    destruct category as [type|].
    + intros w Hf [H Hty]. split; [exact Hf|]. cbn. split; [exact H|].
      intros id' c [= <-] Hc. cbn. rewrite Hc in Hty. injection Hty as ->.
      apply signMatches_resolved.
    + intros w Hf [H Hty]. split; [exact Hf|]. cbn. split; [exact H|].
      intros id' c [= <-] Hc. rewrite Hc in Hty. discriminate.
  - intros w Hf H. split; [exact Hf|]. cbn. split; [exact H|]. discriminate.
Qed.

Lemma resolved_consistent r db : resolved r db → consistent db.
Proof. by intros [H _]. Qed.

Lemma createTransaction_maintains input : maintains (createTransaction input).
Proof.
  unfold maintains, createTransaction.
  eapply triple_bind; [apply getDatabase_maintains|]. intros ?. cbn beta.
  eapply triple_bind; [apply resolveAmount_resolved|].
  intros [[categoryId categoryType] amount].
  set (r := (categoryId, categoryType, amount)).
  eapply triple_bind; [apply triple_now|]. intros d.
  eapply triple_bind; [apply triple_orRangeError, resolved_consistent|]. intros createdAt.
  eapply triple_bind; [apply triple_occurredOnOrToday|]. intros occurredOn.
  eapply triple_bind.
  { apply (triple_statement consistent _ _ _ (λ _, consistent)).
    intros db H. destruct (tables db); [|exact (resolved_consistent _ _ H)].
    exact (insert_transaction_consistent _ r _ _ db H). }
  intros id.
  eapply triple_bind; [apply triple_keeps, keeps_read|].
  intros [row|]; [apply maintains_ret|apply maintains_throw].
Qed.

Lemma updateTransaction_maintains id input : maintains (updateTransaction id input).
Proof.
  unfold maintains, updateTransaction.
  eapply triple_bind; [apply getDatabase_maintains|]. intros ?. cbn beta.
  eapply triple_bind; [apply resolveAmount_resolved|].
  intros [[categoryId categoryType] amount].
  set (r := (categoryId, categoryType, amount)).
  eapply triple_bind; [apply triple_occurredOnOrToday|]. intros occurredOn.
  eapply triple_bind.
  { apply (triple_statement consistent _ _ _ (λ _, consistent)).
    intros db H. destruct (tables db); [|exact (resolved_consistent _ _ H)].
    exact (update_transaction_consistent _ _ r _ db H). }
  intros changes. destruct (changes =? 0); [apply maintains_throw|].
  eapply triple_bind; [apply triple_keeps, keeps_read|].
  intros [row|]; [apply maintains_ret|apply maintains_throw].
Qed.

Lemma deleteTransaction_maintains id : maintains (deleteTransaction id).
Proof.
  unfold maintains, deleteTransaction.
  eapply triple_bind; [apply getDatabase_maintains|]. intros ?. cbn beta.
  apply triple_keeps, delete_transaction_consistent.
Qed.

Lemma monthBounds_maintains target : maintains (monthBounds target).
Proof.
  unfold maintains, monthBounds.
  eapply triple_bind; [apply triple_orNow|]. intros d.
  eapply triple_bind; [apply triple_localTZA|]. intros z.
  by apply triple_orRangeError.
Qed.

Lemma fetchMonthlyTotals_maintains target : maintains (fetchMonthlyTotals target).
Proof.
  unfold maintains, fetchMonthlyTotals.
  eapply triple_bind; [apply triple_orNow|]. intros d.
  eapply triple_bind; [apply getDatabase_maintains|]. intros ?. cbn beta.
  eapply triple_bind; [apply monthBounds_maintains|]. intros b.
  eapply triple_bind; [apply triple_keeps, keeps_read|]. intros row.
  apply maintains_ret.
Qed.

Lemma fetchMonthlyTotalsByCategory_maintains target :
  maintains (fetchMonthlyTotalsByCategory target).
Proof.
  unfold maintains, fetchMonthlyTotalsByCategory.
  eapply triple_bind; [apply triple_orNow|]. intros d.
  eapply triple_bind; [apply getDatabase_maintains|]. intros ?. cbn beta.
  eapply triple_bind; [apply monthBounds_maintains|]. intros b.
  eapply triple_bind; [apply triple_keeps, keeps_read|]. intros rows.
  apply maintains_ret.
Qed.

(** The invariant of the data model: as long as the storage has not
    failed, every transaction linked to a category carries the sign of
    that category's type (at most zero for expense, at least zero for
    income), whatever calls were made. *)
Theorem faultless_consistent w : faultless w → faults w = [] ∧ consistent (store w).
Proof.
  induction 1 as [| call w Hw [Hf IH] | w handle clock tza Hw [Hf IH] Hh].
  - split; [reflexivity|apply consistent_empty].
  - assert (H : ∀ A (m : IO A), maintains m →
                faults (m w).2 = [] ∧ consistent (store (m w).2)).
    { intros A m Hm. destruct (Hm w Hf IH) as [Hf' Hpost].
      split; [exact Hf'|]. by destruct ((m w).1). }
    destruct call; cbn [after]; apply H.
    + apply getDatabase_maintains.
    + apply createCategory_maintains.
    + apply updateCategory_maintains.
    + apply createTransaction_maintains.
    + apply updateTransaction_maintains.
    + apply deleteTransaction_maintains.
    + apply fetchMonthlyTotals_maintains.
    + apply fetchMonthlyTotalsByCategory_maintains.
  - split; [reflexivity|exact IH].
Qed.

Corollary faultless_signs w k t cid c :
  faultless w →
  transactions (store w) !! k = Some t → t_category_id t = Some cid →
  categories (store w) !! cid = Some c →
  signMatches (c_type c) (t_amount t).
Proof.
  intros Hw Ht Hcid Hc. destruct (faultless_consistent w Hw) as [_ [_ Hs]].
  by apply (Hs k t cid c).
Qed.

(** ** The transaction repository *)

(** C1.  Creating a transaction against a category that exists stores
    one new row whose amount carries the sign of the category's type,
    whatever the sign (and the type) the caller supplied: at most zero
    for an expense category, and strictly negative when the supplied
    amount is not zero; at least zero for an income category. *)
Theorem createTransaction_sign_follows_category
    (w : World) (input : TransactionInput) (id : Z) (c : CategoryRow) :
  opened w = true →
  faults w = [] →
  ti_categoryId input = Some id →
  categories (store w) !! id = Some c →
  ∃ r w' row,
    createTransaction input w = (inr r, w')
    ∧ transactions (store w) !! rec_id r = None
    ∧ transactions (store w') = <[rec_id r := row]> (transactions (store w))
    ∧ categories (store w') = categories (store w)
    ∧ t_category_id row = Some id
    ∧ rec_amount r = t_amount row
    ∧ match c_type c with
      | expense => t_amount row <= 0 ∧ (ti_amount input ≠ 0 → t_amount row < 0)
      | income => 0 <= t_amount row
      end.
Proof.
  intros Ho Hf Hid Hc.
  unfold createTransaction.
  rewrite run_bind, getDatabase_opened by done.
  rewrite run_bind, (run_resolveAmount_linked _ _ id c) by done.
  rewrite run_bind. unfold now at 1.
  destruct (toISOString_valid (clock w)) as [created Hcr].
  rewrite run_bind, Hcr. cbn [orRangeError mret IO_ret].
  destruct (run_occurredOnOrToday input w) as (occ & Hocc & _).
  rewrite run_bind, Hocc.
  rewrite run_bind, run_statement by done.
  unfold Sql.insert_transaction. cbn [Sql.references_ok].
  rewrite bool_decide_eq_true_2 by (rewrite Hc; eauto).
  set (newid := Sql.next_rowid _ _).
  rewrite run_bind, run_statement by done.
  unfold Sql.select_transaction. rewrite withStore_store. cbn [transactions].
  rewrite lookup_insert_eq. cbn [fmap option_fmap option_map].
  eexists _, _, _. split; [reflexivity|].
  cbn [rec_id withCategoryType mapTransactionRow Sql.j_id Sql.left_join].
  split; [apply next_rowid_fresh|].
  split; [reflexivity|]. split; [reflexivity|]. split; [reflexivity|].
  split; [reflexivity|].
  cbn [t_amount]. destruct (c_type c).
  - apply signed_income.
  - apply signed_expense.
Qed.

Lemma createTransaction_sign_follows_category_witness :
  opened installed = true ∧ faults installed = []
  ∧ ti_categoryId salary = Some 1
  ∧ categories (store installed) !! 1 = Some salaryRow
  ∧ ∃ r w', createTransaction salary installed = (inr r, w') ∧ 0 <= rec_amount r.
Proof.
  do 4 (split; [reflexivity|]).
  destruct (createTransaction_sign_follows_category installed salary 1 salaryRow
              eq_refl eq_refl eq_refl eq_refl)
    as (r & w' & row & Hrun & _ & _ & _ & _ & Hr & Hs).
  exists r, w'. split; [exact Hrun|]. rewrite Hr. exact Hs.
Defined.

(** C4, as the code has it.  A create, or an update of an existing
    transaction, whose [categoryId] names no category is refused by
    the store: the write raises the foreign-key violation, which the
    module passes on, and nothing is stored. *)
Theorem stale_categoryId_is_rejected (w : World) (input : TransactionInput) (id : Z) :
  opened w = true →
  faults w = [] →
  ti_categoryId input = Some id →
  categories (store w) !! id = None →
  createTransaction input w = (inl Sql.foreign_key_failed, w)
  ∧ ∀ tid, is_Some (transactions (store w) !! tid) →
           updateTransaction tid input w = (inl Sql.foreign_key_failed, w).
Proof.
  intros Ho Hf Hid Hc.
  destruct (toISOString_valid (clock w)) as [created Hcr].
  destruct (run_occurredOnOrToday input w) as (occ & Hocc & _).
  split.
  - unfold createTransaction.
    rewrite run_bind, getDatabase_opened by done.
    rewrite run_bind, (run_resolveAmount_stale _ _ id) by done.
    rewrite run_bind. unfold now at 1.
    rewrite run_bind, Hcr. cbn [orRangeError mret IO_ret].
    rewrite run_bind, Hocc.
    rewrite run_bind, run_statement by done.
    unfold Sql.insert_transaction. cbn [Sql.references_ok].
    rewrite bool_decide_eq_false_2 by (rewrite Hc; apply is_Some_None).
    reflexivity.
  - intros tid [t Ht]. unfold updateTransaction.
    rewrite run_bind, getDatabase_opened by done.
    rewrite run_bind, (run_resolveAmount_stale _ _ id) by done.
    rewrite run_bind, Hocc.
    rewrite run_bind, run_statement by done.
    unfold Sql.update_transaction. rewrite Ht. cbn [Sql.references_ok].
    rewrite bool_decide_eq_false_2 by (rewrite Hc; apply is_Some_None).
    reflexivity.
Qed.

Lemma stale_categoryId_is_rejected_witness :
  opened booked = true ∧ faults booked = []
  ∧ ti_categoryId stale = Some 999
  ∧ categories (store booked) !! 999 = None
  ∧ createTransaction stale booked = (inl Sql.foreign_key_failed, booked)
  ∧ updateTransaction 1 stale booked = (inl Sql.foreign_key_failed, booked).
Proof.
  do 4 (split; [reflexivity|]).
  destruct (stale_categoryId_is_rejected booked stale 999 eq_refl eq_refl eq_refl eq_refl)
    as [Hcreate Hupdate].
  split; [exact Hcreate|]. apply Hupdate. exists salaryStored. reflexivity.
Defined.

(** C4, as stated, fails: with category 999 absent and the caller's
    type [expense], neither operation succeeds, and the amount the
    module has prepared for the write is +50, not -50. *)
Lemma stale_categoryId_counterexample :
  ti_categoryId stale = Some 999 ∧ ti_type stale = expense ∧ ti_amount stale = 50
  ∧ categories (store booked) !! 999 = None
  ∧ resolveAmount stale booked = (inr (Some 999, None, 50), booked)
  ∧ (createTransaction stale booked).1 = inl Sql.foreign_key_failed
  ∧ (updateTransaction 1 stale booked).1 = inl Sql.foreign_key_failed
  ∧ ¬ (∃ r w', createTransaction stale booked = (inr r, w')
               ∧ rec_amount r = - Z.abs (ti_amount stale)).
Proof.
  do 4 (split; [reflexivity|]).
  split; [vm_compute; reflexivity|].
  split; [vm_compute; reflexivity|].
  split; [vm_compute; reflexivity|].
  intros (r & w' & Hrun & _).
  assert (H : (createTransaction stale booked).1 = inl Sql.foreign_key_failed)
    by (vm_compute; reflexivity).
  rewrite Hrun in H. discriminate H.
Qed.

(** C9.  Deleting a transaction succeeds whether or not the id exists;
    afterwards the id is absent and every other row is as before, and
    deleting it once more succeeds and changes nothing. *)
Theorem deleteTransaction_idempotent (w : World) (id : Z) :
  opened w = true →
  faults w = [] →
  ∃ w', deleteTransaction id w = (inr tt, w')
        ∧ transactions (store w') = delete id (transactions (store w))
        ∧ categories (store w') = categories (store w)
        ∧ transactions (store w') !! id = None
        ∧ deleteTransaction id w' = (inr tt, w').
Proof.
  intros Ho Hf.
  exists (withStore (mkDatabase (categories (store w)) (delete id (transactions (store w)))
                       (seq_categories (store w)) (seq_transactions (store w))
                       (tables (store w))) w).
  unfold deleteTransaction. rewrite !run_bind, getDatabase_opened by done.
  rewrite run_statement by done. simpl.
  repeat split.
  - apply lookup_delete_eq.
  - rewrite getDatabase_opened by done.
    rewrite run_statement by done. simpl.
    rewrite delete_delete_eq. unfold withStore; simpl. reflexivity.
Qed.

Lemma deleteTransaction_idempotent_witness :
  opened booked = true ∧ faults booked = []
  ∧ is_Some (transactions (store booked) !! 2)
  ∧ transactions (store booked) !! 77 = None
  ∧ (∃ w', deleteTransaction 2 booked = (inr tt, w')
           ∧ transactions (store w') !! 2 = None
           ∧ deleteTransaction 2 w' = (inr tt, w'))
  ∧ (∃ w', deleteTransaction 77 booked = (inr tt, w')).
Proof.
  do 2 (split; [reflexivity|]).
  split; [apply (bool_decide_unpack _); vm_compute; exact I|]. split; [reflexivity|].
  split.
  - destruct (deleteTransaction_idempotent booked 2 eq_refl eq_refl)
      as (w' & Hrun & _ & _ & Hgone & Hagain).
    exists w'. auto.
  - destruct (deleteTransaction_idempotent booked 77 eq_refl eq_refl)
      as (w' & Hrun & _).
    exists w'. exact Hrun.
Defined.




(** ** The category repository *)

(** C2.  A successful [updateCategory] rewrites the amount of every
    transaction linked to the category to the sign of the type it is
    given (minus the magnitude for expense, the magnitude for income),
    changes nothing else in those rows, and leaves every other
    transaction as it was.  This holds for every update, and so for
    those that change the type. *)
Theorem updateCategory_cascades
    (w : World) (id : Z) (input : CategoryInput) (c : CategoryRow) :
  opened w = true →
  faults w = [] →
  categories (store w) !! id = Some c →
  trim (ci_name input) ≠ "" →
  ¬ Sql.name_taken (Some id) (trim (ci_name input)) (categories (store w)) →
  ∃ r w',
    updateCategory id input w = (inr r, w')
    ∧ cat_id r = id ∧ cat_type r = ci_type input
    ∧ (c_type <$> categories (store w') !! id) = Some (ci_type input)
    ∧ ∀ k, match transactions (store w) !! k with
           | None => transactions (store w') !! k = None
           | Some t =>
               ∃ t', transactions (store w') !! k = Some t'
                     ∧ (t_category_id t = Some id →
                        t_amount t' = match ci_type input with
                                      | expense => - Z.abs (t_amount t)
                                      | income => Z.abs (t_amount t)
                                      end
                        ∧ t_description t' = t_description t
                        ∧ t_occurred_on t' = t_occurred_on t
                        ∧ t_category_id t' = t_category_id t
                        ∧ t_created_at t' = t_created_at t)
                     ∧ (t_category_id t ≠ Some id → t' = t)
           end.
Proof.
  intros Ho Hf Hc Hname Hfree.
  unfold updateCategory.
  rewrite run_bind, getDatabase_opened by done.
  rewrite truthy_nonempty by done. cbn [negb].
  erewrite run_try_catch_ok; cycle 1.
  { rewrite run_bind, run_statement by done.
    unfold Sql.update_category. rewrite Hc.
    rewrite decide_False by done. cbn [Z.eqb].
    rewrite run_bind, run_statement by done.
    unfold Sql.update_transactions_sign.
    rewrite run_bind, run_statement by done.
    unfold Sql.select_category. rewrite !withStore_store. cbn [categories].
    rewrite lookup_insert_eq. cbn [fmap option_fmap option_map]. reflexivity. }
  eexists _, _. split; [reflexivity|].
  split; [reflexivity|]. split; [reflexivity|].
  cbn [store withStore categories transactions].
  split; [rewrite lookup_insert_eq; reflexivity|].
  intros k. rewrite lookup_fmap.
  destruct (transactions (store w) !! k) as [t|]; [|reflexivity].
  cbn [fmap option_fmap option_map]. eexists. split; [reflexivity|].
  split.
  - intros Hl. rewrite decide_True by done.
    destruct (ci_type input); repeat split; reflexivity.
  - intros Hl. rewrite decide_False by done. reflexivity.
Qed.

Lemma salaryAsExpense_name_free :
  ¬ Sql.name_taken (Some 1) (trim (ci_name salaryAsExpense)) (categories (store booked)).
Proof. apply (bool_decide_eq_false_1 _). vm_compute. reflexivity. Defined.

Lemma updateCategory_cascades_witness :
  opened booked = true ∧ faults booked = []
  ∧ categories (store booked) !! 1 = Some salaryRow
  ∧ trim (ci_name salaryAsExpense) ≠ ""
  ∧ ¬ Sql.name_taken (Some 1) (trim (ci_name salaryAsExpense)) (categories (store booked))
  ∧ ∃ r w', updateCategory 1 salaryAsExpense booked = (inr r, w')
            ∧ cat_type r = expense
            ∧ (t_amount <$> transactions (store booked) !! 1) = Some 1000
            ∧ (t_amount <$> transactions (store w') !! 1) = Some (-1000).
Proof.
  do 3 (split; [reflexivity|]). split; [discriminate|].
  split; [exact salaryAsExpense_name_free|].
  destruct (updateCategory_cascades booked 1 salaryAsExpense salaryRow eq_refl eq_refl eq_refl)
    as (r & w' & Hrun & _ & Ht & _ & Hrows); [discriminate|exact salaryAsExpense_name_free|].
  exists r, w'. split; [exact Hrun|]. split; [exact Ht|]. split; [reflexivity|].
  specialize (Hrows 1).
  change (transactions (store booked) !! 1) with (Some salaryStored) in Hrows.
  destruct Hrows as (t' & Ht' & Hlinked & _).
  rewrite Ht'. cbn [fmap option_fmap option_map]. f_equal.
  exact (proj1 (Hlinked eq_refl)).
Defined.

(** C6, as the code has it.  [updateCategory] issues the write to
    [categories] and the cascade as two statements of their own.
    When the first runs and the cascade fails, the call fails with the
    storage's error, the category row keeps its new name, type and
    color, and every transaction keeps the amount it had: nothing is
    rolled back. *)
Theorem updateCategory_not_atomic
    (w : World) (id : Z) (input : CategoryInput) (c : CategoryRow) (fs : list bool) :
  opened w = true →
  faults w = false :: true :: fs →
  categories (store w) !! id = Some c →
  trim (ci_name input) ≠ "" →
  ¬ Sql.name_taken (Some id) (trim (ci_name input)) (categories (store w)) →
  ∃ w',
    updateCategory id input w = (inl Sql.io_failed, w')
    ∧ categories (store w') !! id
      = Some (mkCategoryRow (trim (ci_name input)) (ci_type input) (colorOrDefault input)
                            (c_created_at c))
    ∧ transactions (store w') = transactions (store w).
Proof.
  intros Ho Hf Hc Hname Hfree.
  unfold updateCategory.
  rewrite run_bind, getDatabase_opened by done.
  rewrite truthy_nonempty by done. cbn [negb].
  erewrite run_try_catch_err; cycle 1.
  { rewrite run_bind, (run_statement_spared _ _ _ _ Hf Ho).
    unfold Sql.update_category. rewrite Hc.
    rewrite decide_False by done. cbn [Z.eqb].
    rewrite run_bind. erewrite run_statement_faulty by reflexivity.
    reflexivity. }
  eexists. split; [reflexivity|].
  cbn [store categories transactions]. split; [|reflexivity].
  apply lookup_insert_eq.
Qed.

Lemma updateCategory_not_atomic_witness :
  opened (failingSecond booked) = true
  ∧ faults (failingSecond booked) = [false; true]
  ∧ categories (store (failingSecond booked)) !! 1 = Some salaryRow
  ∧ trim (ci_name salaryAsExpense) ≠ ""
  ∧ ¬ Sql.name_taken (Some 1) (trim (ci_name salaryAsExpense))
        (categories (store (failingSecond booked)))
  ∧ ∃ w', updateCategory 1 salaryAsExpense (failingSecond booked) = (inl Sql.io_failed, w')
          ∧ (c_type <$> categories (store w') !! 1) = Some expense
          ∧ transactions (store w') = transactions (store (failingSecond booked)).
Proof.
  do 3 (split; [reflexivity|]). split; [discriminate|].
  split; [exact salaryAsExpense_name_free|].
  destruct (updateCategory_not_atomic (failingSecond booked) 1 salaryAsExpense salaryRow []
              eq_refl eq_refl eq_refl)
    as (w' & Hrun & Hcat & Htx); [discriminate|exact salaryAsExpense_name_free|].
  exists w'. split; [exact Hrun|]. split; [|exact Htx].
  rewrite Hcat. reflexivity.
Defined.

(** C6, as stated, fails: category 1 is an income category with a
    transaction of +1000 linked to it; the update to expense is
    written, the cascade fails, and the store is left with the
    category typed expense and the transaction still at +1000. *)
Lemma updateCategory_atomicity_counterexample :
  (c_type <$> categories (store (failingSecond booked)) !! 1) = Some income
  ∧ (updateCategory 1 salaryAsExpense (failingSecond booked)).1 = inl Sql.io_failed
  ∧ (c_type <$> categories (store (updateCategory 1 salaryAsExpense (failingSecond booked)).2)
                  !! 1) = Some expense
  ∧ ((λ t, (t_category_id t, t_amount t))
       <$> transactions (store (updateCategory 1 salaryAsExpense (failingSecond booked)).2)
            !! 1) = Some (Some 1, 1000).
Proof. repeat split; vm_compute; reflexivity. Qed.

(** A cascade that fails leaves a reachable store in which a linked
    transaction no longer carries the sign of its category's type. *)
Lemma reachable_inconsistent :
  ∃ w, reachable w ∧ ¬ signsMatch (store w).
Proof.
  exists (after (UpdateCategory 1 salaryAsExpense) (failingSecond booked)). split.
  - apply reachable_call, reachable_host; [|done].
    do 4 apply reachable_call. apply reachable_install.
  - intros Hs.
    assert (H : signMatches expense 1000).
    { apply (Hs 1 salaryStored 1
                (mkCategoryRow "Salary" expense "#c62828" "2024-02-15T11:00:00.000Z"));
        [vm_compute; reflexivity|reflexivity|discriminate|vm_compute; reflexivity]. }
    cbn in H. lia.
Qed.

Lemma createCategory_duplicate_name
    (w : World) (input : CategoryInput) (id : Z) (c : CategoryRow) :
  opened w = true →
  faults w = [] →
  categories (store w) !! id = Some c →
  c_name c ≠ "" →
  trim (ci_name input) = c_name c →
  createCategory input w = (inl duplicateName, w).
Proof.
  intros Ho Hf Hc Hne Hname.
  unfold createCategory.
  rewrite run_bind, getDatabase_opened by done.
  rewrite Hname, truthy_nonempty by done. cbn [negb].
  rewrite run_bind. unfold now at 1.
  destruct (toISOString_valid (clock w)) as [created Hcr].
  rewrite run_bind, Hcr. cbn [orRangeError mret IO_ret].
  erewrite run_try_catch_err; cycle 1.
  { rewrite run_bind, run_statement by done.
    unfold Sql.insert_category.
    rewrite decide_True; [reflexivity|].
    exists id, c. split; [done|]. split; [discriminate|reflexivity]. }
  reflexivity.
Qed.

(** C8.  In every reachable state, creating a category whose trimmed
    name is the stored name of an existing one fails: the INSERT
    raises the UNIQUE violation, [createCategory] replaces it by the
    user-facing error, and the host, with it the existing category, is
    as before. *)
Theorem createCategory_rejects_duplicate_name
    (w : World) (input : CategoryInput) (id : Z) (c : CategoryRow) :
  reachable w →
  opened w = true →
  faults w = [] →
  categories (store w) !! id = Some c →
  trim (ci_name input) = c_name c →
  (∀ color createdAt,
     Sql.insert_category (trim (ci_name input)) (ci_type input) color createdAt (store w)
     = inl Sql.unique_failed)
  ∧ includes "UNIQUE" (message Sql.unique_failed) = true
  ∧ createCategory input w = (inl duplicateName, w).
Proof.
  intros Hw Ho Hf Hc Hname.
  pose proof (names_nonempty _ (reachable_wellFormed w Hw) id c Hc) as Hne.
  split; [|split; [reflexivity|by apply (createCategory_duplicate_name w input id c)]].
  intros color createdAt. unfold Sql.insert_category.
  rewrite decide_True; [reflexivity|].
  exists id, c. split; [done|]. split; [discriminate|by rewrite Hname].
Qed.

Lemma createCategory_rejects_duplicate_name_witness :
  reachable installed
  ∧ opened installed = true ∧ faults installed = []
  ∧ categories (store installed) !! 1 = Some salaryRow
  ∧ trim (ci_name salaryAgain) = c_name salaryRow
  ∧ createCategory salaryAgain installed = (inl duplicateName, installed).
Proof.
  assert (Hr : reachable installed) by apply reachable_call, reachable_install.
  split; [exact Hr|]. do 4 (split; [reflexivity|]).
  exact (proj2 (proj2 (createCategory_rejects_duplicate_name installed salaryAgain 1 salaryRow
                         Hr eq_refl eq_refl eq_refl eq_refl))).
Defined.

(** ** [monthBounds] ahead of UTC *)

(** C5 at a failing input.  The target is noon of 15 February 2024 in
    a host one hour ahead of UTC: the local year is 2024, a leap year,
    and the local month is February.  [monthBounds] returns 31 January
    and 28 February where the month runs from 1 to 29 February: the
    bounds are built at local midnight and printed in UTC. *)
Example monthBounds_february_2024_east :
  getFullYear 3600000 (Some 1707994800000) = Some 2024
  ∧ getMonth 3600000 (Some 1707994800000) = Some 1
  ∧ isLeapYear 2024 = true
  ∧ monthBoundsAt 3600000 (Some 1707994800000)
    = Some (mkBounds "2024-01-31" "2024-02-28").
Proof. repeat split; reflexivity. Qed.

(** ** The category listing *)

#[global] Instance category_order_total : Total SqlList.category_order.
Proof.
  intros c1 c2. unfold SqlList.category_order.
  destruct (total String.le (cat_name c1) (cat_name c2));
    destruct (cat_type c1), (cat_type c2); cbn; auto with lia.
Qed.

#[global] Instance category_order_transitive : Transitive SqlList.category_order.
Proof.
  intros c1 c2 c3. unfold SqlList.category_order.
  destruct (cat_type c1), (cat_type c2), (cat_type c3); cbn;
    intros [?|[? ?]] [?|[? ?]]; try lia; try discriminate;
    right; (split; [done|]); by etrans.
Qed.

Lemma elem_of_categories (cs : gmap Z CategoryRow) (c : Category) :
  c ∈ (λ kc : Z * CategoryRow,
         mkCategory kc.1 (c_name kc.2) (c_type kc.2) (c_color kc.2) (c_created_at kc.2))
        <$> map_to_list cs
  ↔ cs !! cat_id c = Some (rowOf c).
Proof.
  rewrite list_elem_of_fmap. split.
  - intros ([k r] & -> & Hk). apply elem_of_map_to_list in Hk. cbn. by destruct r.
  - intros Hc. exists (cat_id c, rowOf c). split; [by destruct c|].
    by apply elem_of_map_to_list.
Qed.

Lemma categories_ids_NoDup (cs : gmap Z CategoryRow) :
  NoDup (cat_id <$>
           ((λ kc : Z * CategoryRow,
               mkCategory kc.1 (c_name kc.2) (c_type kc.2) (c_color kc.2) (c_created_at kc.2))
              <$> map_to_list cs)).
Proof.
  rewrite <- list_fmap_compose. apply NoDup_fst_map_to_list.
Qed.

Lemma list_fmap_id_category (rows : list Category) :
  (λ row, mkCategory (cat_id row) (cat_name row) (cat_type row) (cat_color row)
                     (cat_createdAt row)) <$> rows = rows.
Proof.
  induction rows as [|[] rows IH]; [reflexivity|]. rewrite fmap_cons. by rewrite IH.
Qed.

Lemma fetchCategories_member (w : World) :
  opened w = true →
  faults w = [] →
  ∃ rows,
    fetchCategories w = (inr rows, w)
    ∧ ∀ c, c ∈ rows ↔ categories (store w) !! cat_id c = Some (rowOf c).
Proof.
  intros Ho Hf. unfold fetchCategories.
  rewrite run_bind, getDatabase_opened by done.
  rewrite run_bind, run_statement by done.
  unfold SqlList.select_categories. rewrite withStore_id.
  cbn [mret IO_ret]. rewrite list_fmap_id_category.
  eexists. split; [reflexivity|].
  intros c. rewrite merge_sort_Permutation. apply elem_of_categories.
Qed.

(** [fetchCategories] lists every stored category once, income before
    expense and by name within a type, and leaves the host as it is. *)
Theorem fetchCategories_lists_all (w : World) :
  opened w = true →
  faults w = [] →
  ∃ rows,
    fetchCategories w = (inr rows, w)
    ∧ (∀ c, c ∈ rows ↔ categories (store w) !! cat_id c = Some (rowOf c))
    ∧ NoDup (cat_id <$> rows)
    ∧ StronglySorted SqlList.category_order rows.
Proof.
  intros Ho Hf. unfold fetchCategories.
  rewrite run_bind, getDatabase_opened by done.
  rewrite run_bind, run_statement by done.
  unfold SqlList.select_categories. rewrite withStore_id.
  cbn [mret IO_ret]. rewrite list_fmap_id_category.
  eexists. split; [reflexivity|]. split; [|split].
  - intros c. rewrite merge_sort_Permutation. apply elem_of_categories.
  - rewrite merge_sort_Permutation. apply categories_ids_NoDup.
  - apply StronglySorted_merge_sort; apply _.
Qed.

(** ** Creating and updating categories *)

Lemma colorOrDefault_blank input :
  trim (default "" (ci_color input)) = "" → colorOrDefault input = defaultColor (ci_type input).
Proof. unfold colorOrDefault. intros ->. by destruct (ci_type input). Qed.

Lemma colorOrDefault_given input :
  trim (default "" (ci_color input)) ≠ "" →
  colorOrDefault input = trim (default "" (ci_color input)).
Proof. unfold colorOrDefault. intros H. by rewrite truthy_nonempty. Qed.

(** A category with a fresh, non-blank name is stored under a new id,
    above every id the table holds or ever held, with the trimmed
    name, the given type, the time of the call, and the given color,
    trimmed, or the type's default color when none is given or the
    given one is blank; nothing else changes, and [fetchCategories]
    lists it afterwards. *)
Theorem createCategory_stores (w : World) (input : CategoryInput) :
  opened w = true →
  faults w = [] →
  trim (ci_name input) ≠ "" →
  ¬ Sql.name_taken None (trim (ci_name input)) (categories (store w)) →
  ∃ r w',
    createCategory input w = (inr r, w')
    ∧ cat_name r = trim (ci_name input)
    ∧ cat_type r = ci_type input
    ∧ toISOString (Some (clock w)) = Some (cat_createdAt r)
    ∧ (∀ color, ci_color input = Some color → trim color ≠ "" → cat_color r = trim color)
    ∧ (trim (default "" (ci_color input)) = "" → cat_color r = defaultColor (ci_type input))
    ∧ (∀ k, is_Some (categories (store w) !! k) → k < cat_id r)
    ∧ seq_categories (store w) < cat_id r
    ∧ categories (store w') = <[cat_id r := rowOf r]> (categories (store w))
    ∧ transactions (store w') = transactions (store w)
    ∧ ∃ rows, fetchCategories w' = (inr rows, w') ∧ r ∈ rows.
Proof.
  intros Ho Hf Hname Hfree.
  destruct (toISOString_valid (clock w)) as [created Hcr].
  assert (Hrun : ∃ r w',
             createCategory input w = (inr r, w')
             ∧ opened w' = true ∧ faults w' = []
             ∧ r = mkCategory (Sql.next_rowid (seq_categories (store w)) (categories (store w)))
                     (trim (ci_name input)) (ci_type input) (colorOrDefault input) created
             ∧ categories (store w') = <[cat_id r := rowOf r]> (categories (store w))
             ∧ transactions (store w') = transactions (store w)).
  { unfold createCategory.
    rewrite run_bind, getDatabase_opened by done.
    rewrite truthy_nonempty by done. cbn [negb].
    rewrite run_bind. unfold now at 1.
    rewrite run_bind, Hcr. cbn [orRangeError mret IO_ret].
    erewrite run_try_catch_ok; cycle 1.
    { rewrite run_bind, run_statement by done.
      unfold Sql.insert_category. rewrite decide_False by done.
      rewrite run_bind, run_statement by done.
      unfold Sql.select_category. rewrite withStore_store. cbn [categories].
      rewrite lookup_insert_eq. cbn [fmap option_fmap option_map]. reflexivity. }
    eexists _, _. split; [reflexivity|]. repeat split; done. }
  destruct Hrun as (r & w' & Hrun & Ho' & Hf' & -> & Hcats & Htx).
  eexists _, w'. split; [exact Hrun|].
  cbn [cat_name cat_type cat_color cat_id cat_createdAt] in *.
  do 2 (split; [reflexivity|]). split; [exact Hcr|].
  split. { intros color Hc Hne. rewrite colorOrDefault_given; by rewrite Hc. }
  split; [apply colorOrDefault_blank|].
  split; [apply (proj2 (next_rowid_above _ _))|].
  split; [apply (proj1 (next_rowid_above _ _))|].
  split; [exact Hcats|]. split; [exact Htx|].
  destruct (fetchCategories_member w' Ho' Hf') as (rows & Hrows & Hin).
  exists rows. split; [exact Hrows|]. apply Hin. rewrite Hcats. apply lookup_insert_eq.
Qed.

(** Updating an id that names no category raises "Category not found."
    and changes nothing: no row is written and no amount is rewritten. *)
Theorem updateCategory_not_found (w : World) (id : Z) (input : CategoryInput) :
  opened w = true →
  faults w = [] →
  trim (ci_name input) ≠ "" →
  categories (store w) !! id = None →
  updateCategory id input w = (inl categoryNotFound, w).
Proof.
  intros Ho Hf Hname Hc. unfold updateCategory.
  rewrite run_bind, getDatabase_opened by done.
  rewrite truthy_nonempty by done. cbn [negb].
  erewrite run_try_catch_err; cycle 1.
  { rewrite run_bind, run_statement by done.
    unfold Sql.update_category. rewrite Hc. rewrite withStore_id. reflexivity. }
  reflexivity.
Qed.

(** Renaming a category to the name of another one raises the
    duplicate-name error and changes nothing: the category keeps its
    name and type, and no amount is rewritten. *)
Theorem updateCategory_rejects_taken_name
    (w : World) (id : Z) (input : CategoryInput) (c : CategoryRow) :
  opened w = true →
  faults w = [] →
  trim (ci_name input) ≠ "" →
  categories (store w) !! id = Some c →
  Sql.name_taken (Some id) (trim (ci_name input)) (categories (store w)) →
  updateCategory id input w = (inl duplicateName, w).
Proof.
  intros Ho Hf Hname Hc Htaken. unfold updateCategory.
  rewrite run_bind, getDatabase_opened by done.
  rewrite truthy_nonempty by done. cbn [negb].
  erewrite run_try_catch_err; cycle 1.
  { rewrite run_bind, run_statement by done.
    unfold Sql.update_category. rewrite Hc. rewrite decide_True by done. reflexivity. }
  reflexivity.
Qed.

(** ** Opening the store *)

Lemma insert_or_ignore_effect name type color createdAt db :
  ∃ db',
    Sql.insert_or_ignore_category name type color createdAt db = inr (tt, db')
    ∧ tables db' = tables db
    ∧ transactions db' = transactions db
    ∧ (∀ k c, categories db !! k = Some c → categories db' !! k = Some c)
    ∧ (∃ k c, categories db' !! k = Some c ∧ c_name c = name)
    ∧ (∀ k c, categories db' !! k = Some c →
              categories db !! k = Some c
              ∨ (categories db !! k = None ∧ c = mkCategoryRow name type color createdAt)).
Proof.
  unfold Sql.insert_or_ignore_category, Sql.insert_category.
  destruct (decide _) as [Htaken|Hfree].
  - eexists. split; [reflexivity|]. cbn [categories transactions tables].
    split; [reflexivity|]. split; [reflexivity|]. split; [done|].
    split; [|by left]. destruct Htaken as (k & c & Hk & _ & Hn). by exists k, c.
  - eexists. split; [reflexivity|]. cbn [categories transactions tables].
    set (new := Sql.next_rowid _ _).
    assert (Hnew : categories db !! new = None) by apply next_rowid_fresh.
    split; [reflexivity|]. split; [reflexivity|]. split; [|split].
    + intros k c Hk. rewrite lookup_insert_ne; [done|congruence].
    + exists new, (mkCategoryRow name type color createdAt).
      by rewrite lookup_insert_eq.
    + intros k c. rewrite lookup_insert. case_decide; [|by left].
      subst k. intros [= <-]. by right.
Qed.

Lemma run_seed (l : list (string * CategoryType * string)) (now_ : string) (w : World) :
  faults w = [] →
  opened w = true →
  ∃ w',
    foldr (λ category (rest : IO unit),
             statement "categories"
               (Sql.insert_or_ignore_category category.1.1 category.1.2 category.2 now_);;
             rest) (mret tt) l w = (inr tt, w')
    ∧ opened w' = true ∧ faults w' = []
    ∧ transactions (store w') = transactions (store w)
    ∧ (∀ k c, categories (store w) !! k = Some c → categories (store w') !! k = Some c)
    ∧ (∀ d, d ∈ l → ∃ k c, categories (store w') !! k = Some c ∧ c_name c = d.1.1)
    ∧ (∀ k c, categories (store w') !! k = Some c →
              categories (store w) !! k = Some c
              ∨ (categories (store w) !! k = None
                 ∧ ∃ d, d ∈ l ∧ c = mkCategoryRow d.1.1 d.1.2 d.2 now_)).
Proof.
  revert w. induction l as [|d l IH]; intros w Hf Ho.
  { exists w. cbn [foldr]. split; [reflexivity|]. repeat split; try done.
    - intros d Hd. inversion Hd.
    - by left. }
  cbn [foldr]. rewrite run_bind, run_statement by done.
  destruct (insert_or_ignore_effect d.1.1 d.1.2 d.2 now_ (store w))
    as (db1 & -> & Htb1 & Htx1 & Hkeep1 & Hname1 & Hnew1).
  assert (Ho1 : opened (withStore db1 w) = true).
  { unfold opened in *. cbn [handle store withStore]. by rewrite Htb1. }
  destruct (IH (withStore db1 w) Hf Ho1)
    as (w' & -> & Ho' & Hf' & Htx & Hkeep & Hnames & Hnew).
  cbn [store withStore] in *.
  exists w'. split; [reflexivity|]. split; [exact Ho'|]. split; [exact Hf'|].
  split; [congruence|]. split; [auto|]. split.
  - intros d' Hd'. apply elem_of_cons in Hd' as [->|Hd']; [|auto].
    destruct Hname1 as (k & c & Hk & Hn). exists k, c. auto.
  - intros k c Hk. destruct (Hnew k c Hk) as [Hold|[Hnone (d' & Hd' & ->)]].
    + destruct (Hnew1 k c Hold) as [?|[? ->]]; [by left|].
      right. split; [done|]. exists d. split; [apply list_elem_of_here|done].
    + right. split.
      * destruct (categories (store w) !! k) as [c0|] eqn:E; [|done].
        rewrite (Hkeep1 k c0 E) in Hnone. discriminate.
      * exists d'. split; [by apply list_elem_of_further|done].
Qed.

Lemma getDatabase_first_call (w : World) :
  handle w = false →
  faults w = [] →
  ∃ w',
    getDatabase w = (inr tt, w')
    ∧ opened w' = true ∧ faults w' = []
    ∧ transactions (store w') = transactions (store w)
    ∧ (∀ k c, categories (store w) !! k = Some c → categories (store w') !! k = Some c)
    ∧ (∀ d, d ∈ DEFAULT_CATEGORIES →
            ∃ k c, categories (store w') !! k = Some c ∧ c_name c = d.1.1)
    ∧ (∀ k c, categories (store w') !! k = Some c →
              categories (store w) !! k = Some c
              ∨ (categories (store w) !! k = None
                 ∧ ∃ d, d ∈ DEFAULT_CATEGORIES ∧ c_name c = d.1.1 ∧ c_type c = d.1.2
                        ∧ c_color c = d.2))
    ∧ (wellFormed (store w) → wellFormed (store w')).
Proof.
  intros Hh Hf.
  pose proof (getDatabase_preserves w) as Hwf.
  unfold getDatabase in Hwf |- * at 1. rewrite Hh in *.
  set (w0 := mkWorld true (store w) (clock w) (tza w) (faults w)) in *.
  rewrite run_bind, run_exec in * by done. cbn [createTables] in *.
  set (w1 := withStore _ w0) in *.
  unfold seedDefaultCategories in *.
  rewrite run_bind in *. unfold now at 1 in Hwf. unfold now at 1.
  destruct (toISOString_valid (clock w1)) as [now_ Hnow].
  rewrite run_bind, Hnow in *. cbn [orRangeError mret IO_ret] in *.
  destruct (run_seed DEFAULT_CATEGORIES now_ w1 Hf eq_refl)
    as (w' & Hrun & Ho' & Hf' & Htx & Hkeep & Hnames & Hnew).
  rewrite Hrun in *. cbn [store withStore w0 w1 categories transactions] in *.
  exists w'. split; [reflexivity|]. split; [exact Ho'|]. split; [exact Hf'|].
  split; [exact Htx|].
  split; [exact Hkeep|]. split; [exact Hnames|]. split; [|exact Hwf].
  intros k c Hk. destruct (Hnew k c Hk) as [?|[? (d & Hd & ->)]]; [by left|].
  right. split; [done|]. by exists d.
Qed.

(** The first call on a store, new or kept from an earlier run, opens
    the handle and seeds the defaults by name: every category and
    transaction that was there stays as it is, every default name is
    present afterwards, every row that is new is one of the defaults,
    names stay unique, and a further call does nothing. *)
Theorem initializeDatabase_seeds (w : World) :
  handle w = false →
  faults w = [] →
  ∃ w',
    initializeDatabase w = (inr tt, w')
    ∧ opened w' = true
    ∧ transactions (store w') = transactions (store w)
    ∧ (∀ k c, categories (store w) !! k = Some c → categories (store w') !! k = Some c)
    ∧ (∀ d, d ∈ DEFAULT_CATEGORIES →
            ∃ k c, categories (store w') !! k = Some c ∧ c_name c = d.1.1)
    ∧ (∀ k c, categories (store w') !! k = Some c →
              categories (store w) !! k = Some c
              ∨ (categories (store w) !! k = None
                 ∧ ∃ d, d ∈ DEFAULT_CATEGORIES ∧ c_name c = d.1.1 ∧ c_type c = d.1.2
                        ∧ c_color c = d.2))
    ∧ (wellFormed (store w) → wellFormed (store w'))
    ∧ initializeDatabase w' = (inr tt, w').
Proof.
  intros Hh Hf.
  destruct (getDatabase_first_call w Hh Hf)
    as (w' & Hrun & Ho' & _ & Htx & Hkeep & Hnames & Hnew & Hwf).
  exists w'. unfold initializeDatabase.
  split; [exact Hrun|]. split; [exact Ho'|]. split; [exact Htx|].
  split; [exact Hkeep|]. split; [exact Hnames|]. split; [exact Hnew|].
  split; [exact Hwf|]. by apply getDatabase_opened.
Qed.

(** A blank name is refused once the handle is there, before any
    statement of the operation itself.  Both operations call
    [getDatabase()] first: if that fails they fail with its error, and
    otherwise they raise the validation error in the host that
    [getDatabase()] leaves.  On a store that is open this is the host
    as it was, fault schedule included; on the first call of a process
    whose storage does not fail it is the host with the schema applied
    and every default category seeded, the rows that were there kept
    as they were. *)
Theorem blank_name_is_refused (w : World) (id : Z) (input : CategoryInput) :
  trim (ci_name input) = "" →
  let refused {A} : (Error + A) * World :=
    match getDatabase w with
    | (inr _, w') => (inl nameRequired, w')
    | (inl e, w') => (inl e, w')
    end in
  createCategory input w = refused
  ∧ updateCategory id input w = refused
  ∧ (opened w = true →
     createCategory input w = (inl nameRequired, w)
     ∧ updateCategory id input w = (inl nameRequired, w))
  ∧ (handle w = false → faults w = [] →
     ∃ w', createCategory input w = (inl nameRequired, w')
           ∧ updateCategory id input w = (inl nameRequired, w')
           ∧ opened w' = true
           ∧ transactions (store w') = transactions (store w)
           ∧ (∀ k c, categories (store w) !! k = Some c →
                     categories (store w') !! k = Some c)
           ∧ (∀ d, d ∈ DEFAULT_CATEGORIES →
                   ∃ k c, categories (store w') !! k = Some c ∧ c_name c = d.1.1)).
Proof.
  intros Hname refused. unfold createCategory, updateCategory, refused.
  rewrite !run_bind, Hname. cbn [truthy negb].
  split; [by destruct (getDatabase w) as [[e|[]] w']|].
  split; [by destruct (getDatabase w) as [[e|[]] w']|].
  split; [intros Ho; by rewrite getDatabase_opened|].
  intros Hh Hf.
  destruct (getDatabase_first_call w Hh Hf)
    as (w' & -> & Ho' & _ & Htx & Hkeep & Hnames & _).
  exists w'. done.
Qed.

(** ** Creating and updating transactions *)

Lemma run_resolveAmount_unlinked input w :
  ti_categoryId input = None →
  resolveAmount input w
  = (inr (None, Some (ti_type input), Sql.signed (ti_type input) (ti_amount input)), w).
Proof.
  intros Hid. unfold resolveAmount. rewrite Hid. by destruct (ti_type input).
Qed.

Lemma run_occurredOnOrToday_given input w s :
  ti_occurredOn input = Some s → s ≠ "" → occurredOnOrToday input w = (inr s, w).
Proof.
  intros Hocc Hs. unfold occurredOnOrToday. rewrite Hocc.
  by rewrite truthy_nonempty.
Qed.

(** A transaction without category takes the sign of the type the
    caller gives: at most zero for expense (below zero unless the
    amount is zero), at least zero for income.  The record returned
    names no category and reports the caller's type, and a date the
    caller supplies is stored as it is. *)
Theorem createTransaction_uncategorised (w : World) (input : TransactionInput) :
  opened w = true →
  faults w = [] →
  ti_categoryId input = None →
  ∃ r w' row,
    createTransaction input w = (inr r, w')
    ∧ transactions (store w) !! rec_id r = None
    ∧ transactions (store w') = <[rec_id r := row]> (transactions (store w))
    ∧ categories (store w') = categories (store w)
    ∧ t_category_id row = None
    ∧ t_description row = ti_description input
    ∧ t_amount row = match ti_type input with
                     | expense => - Z.abs (ti_amount input)
                     | income => Z.abs (ti_amount input)
                     end
    ∧ rec_amount r = t_amount row
    ∧ rec_categoryId r = None ∧ rec_categoryName r = None
    ∧ rec_categoryType r = Some (ti_type input)
    ∧ (∀ s, ti_occurredOn input = Some s → s ≠ "" →
            t_occurred_on row = s ∧ rec_occurredOn r = s).
Proof.
  intros Ho Hf Hid.
  unfold createTransaction.
  rewrite run_bind, getDatabase_opened by done.
  rewrite run_bind, run_resolveAmount_unlinked by done.
  rewrite run_bind. unfold now at 1.
  destruct (toISOString_valid (clock w)) as [created Hcr].
  rewrite run_bind, Hcr. cbn [orRangeError mret IO_ret].
  destruct (run_occurredOnOrToday input w) as (occ & Hocc & Hocc').
  rewrite run_bind, Hocc.
  rewrite run_bind, run_statement by done.
  unfold Sql.insert_transaction. cbn [Sql.references_ok].
  set (newid := Sql.next_rowid _ _).
  rewrite run_bind, run_statement by done.
  unfold Sql.select_transaction. rewrite withStore_store. cbn [transactions].
  rewrite lookup_insert_eq. cbn [fmap option_fmap option_map].
  eexists _, _, _. split; [reflexivity|].
  cbn [rec_id rec_amount rec_categoryId rec_categoryName rec_categoryType rec_occurredOn
       withCategoryType mapTransactionRow Sql.left_join Sql.j_id Sql.j_amount
       Sql.j_category_id Sql.j_category_name Sql.j_category_type Sql.j_occurred_on
       t_category_id t_description t_amount t_occurred_on mbind option_bind
       fmap option_fmap option_map].
  split; [apply next_rowid_fresh|].
  do 4 (split; [reflexivity|]).
  split; [by destruct (ti_type input)|].
  do 4 (split; [reflexivity|]).
  intros s Hs Hne. rewrite Hs, truthy_nonempty in Hocc' by done. by subst occ.
Qed.

(** Updating an id that names no transaction raises "Transaction not
    found." and changes nothing, whatever the input: a [categoryId]
    that names no category goes unnoticed, since no row is written. *)
Theorem updateTransaction_not_found (w : World) (id : Z) (input : TransactionInput) :
  opened w = true →
  faults w = [] →
  transactions (store w) !! id = None →
  updateTransaction id input w = (inl transactionNotFound, w).
Proof.
  intros Ho Hf Ht.
  destruct (run_resolveAmount input w Hf Ho) as (type & amount & Hres).
  destruct (run_occurredOnOrToday input w) as (occ & Hocc & _).
  unfold updateTransaction.
  rewrite run_bind, getDatabase_opened by done.
  rewrite run_bind, Hres.
  rewrite run_bind, Hocc.
  rewrite run_bind, run_statement by done.
  unfold Sql.update_transaction. rewrite Ht. rewrite withStore_id. reflexivity.
Qed.

(** The effective type of an input in a store: the type of the
    category it names, or the caller's type when it names none. *)
Lemma run_resolveAmount_effective input w type :
  faults w = [] →
  opened w = true →
  match ti_categoryId input with
  | Some cid => c_type <$> categories (store w) !! cid
  | None => Some (ti_type input)
  end = Some type →
  resolveAmount input w
  = (inr (ti_categoryId input, Some type, Sql.signed type (ti_amount input)), w).
Proof.
  intros Hf Ho Hty. destruct (ti_categoryId input) as [cid|] eqn:Hid.
  - destruct (categories (store w) !! cid) as [c|] eqn:Hc; [|discriminate].
    injection Hty as <-. by apply run_resolveAmount_linked.
  - injection Hty as <-. by apply run_resolveAmount_unlinked.
Qed.

(** Updating an existing transaction replaces its description, date
    and category by the input's and its amount by the input's
    magnitude under the sign of the effective type (the category's
    type, or the caller's when the input names no category); the row
    keeps its id and creation time, and no other row changes. *)
Theorem updateTransaction_rewrites_row
    (w : World) (id : Z) (input : TransactionInput) (t : TransactionRow)
    (type : CategoryType) (day : string) :
  opened w = true →
  faults w = [] →
  transactions (store w) !! id = Some t →
  match ti_categoryId input with
  | Some cid => c_type <$> categories (store w) !! cid
  | None => Some (ti_type input)
  end = Some type →
  ti_occurredOn input = Some day → day ≠ "" →
  ∃ r w',
    updateTransaction id input w = (inr r, w')
    ∧ transactions (store w')
      = <[id := mkTransactionRow (ti_description input)
                  (match type with
                   | expense => - Z.abs (ti_amount input)
                   | income => Z.abs (ti_amount input)
                   end)
                  day (ti_categoryId input) (t_created_at t)]> (transactions (store w))
    ∧ categories (store w') = categories (store w)
    ∧ rec_id r = id ∧ rec_createdAt r = t_created_at t
    ∧ rec_amount r = match type with
                     | expense => - Z.abs (ti_amount input)
                     | income => Z.abs (ti_amount input)
                     end
    ∧ rec_categoryType r = Some type.
Proof.
  intros Ho Hf Ht Hty Hday Hne.
  assert (Hfk : Sql.references_ok (ti_categoryId input) (categories (store w)) = true).
  { destruct (ti_categoryId input) as [cid|]; [|reflexivity]. cbn.
    apply bool_decide_eq_true_2.
    destruct (categories (store w) !! cid); [eauto|discriminate]. }
  unfold updateTransaction.
  rewrite run_bind, getDatabase_opened by done.
  rewrite run_bind, (run_resolveAmount_effective input w type) by done.
  rewrite run_bind, (run_occurredOnOrToday_given input w day) by done.
  rewrite run_bind, run_statement by done.
  unfold Sql.update_transaction. rewrite Ht, Hfk. cbn [Z.eqb].
  rewrite run_bind, run_statement by done.
  unfold Sql.select_transaction. rewrite withStore_store. cbn [transactions].
  rewrite lookup_insert_eq. cbn [fmap option_fmap option_map].
  eexists _, _. split; [reflexivity|].
  cbn [store withStore transactions categories].
  split; [by destruct type|]. split; [reflexivity|]. split; [reflexivity|].
  split; [reflexivity|]. split; [by destruct type|]. reflexivity.
Qed.

Lemma run_createTransaction input w :
  opened w = true →
  faults w = [] →
  Sql.references_ok (ti_categoryId input) (categories (store w)) = true →
  ∃ r row w',
    createTransaction input w = (inr r, w')
    ∧ opened w' = true ∧ faults w' = [] ∧ clock w' = clock w ∧ tza w' = tza w
    ∧ store w' = mkDatabase (categories (store w))
                   (<[rec_id r := row]> (transactions (store w)))
                   (seq_categories (store w)) (rec_id r) (tables (store w))
    ∧ rec_id r = Sql.next_rowid (seq_transactions (store w)) (transactions (store w))
    ∧ t_amount row = rec_amount r
    ∧ t_category_id row = ti_categoryId input
    ∧ t_occurred_on row = rec_occurredOn r
    ∧ (∀ s, occurredOnOrToday input w = (inr s, w) → rec_occurredOn r = s)
    ∧ (∀ x, resolveAmount input w = (inr x, w) → rec_amount r = x.2).
Proof.
  intros Ho Hf Hfk.
  destruct (run_resolveAmount input w Hf Ho) as (type & amount & Hres).
  destruct (toISOString_valid (clock w)) as [created Hcr].
  destruct (run_occurredOnOrToday input w) as (occ & Hocc & _).
  unfold createTransaction.
  rewrite run_bind, getDatabase_opened by done.
  rewrite run_bind, Hres.
  rewrite run_bind. unfold now at 1.
  rewrite run_bind, Hcr. cbn [orRangeError mret IO_ret].
  rewrite run_bind, Hocc.
  rewrite run_bind, run_statement by done.
  unfold Sql.insert_transaction. rewrite Hfk.
  rewrite run_bind, run_statement by done.
  unfold Sql.select_transaction. rewrite withStore_store. cbn [transactions].
  rewrite lookup_insert_eq. cbn [fmap option_fmap option_map].
  eexists _, _, _. split; [reflexivity|].
  cbn [rec_id rec_amount rec_occurredOn withCategoryType mapTransactionRow Sql.left_join
       Sql.j_id Sql.j_amount Sql.j_occurred_on t_amount t_category_id t_occurred_on
       withStore handle faults clock tza store].
  do 4 (split; [done|]).
  do 5 (split; [reflexivity|]). split.
  - by intros s [= <-].
  - by intros x [= <-].
Qed.

(** Row ids are handed out once.  The id of a new transaction is above
    every id in the table; deleting the transaction gives back the
    table as it was before the create, and the next transaction
    created still gets a larger id, never the one just freed. *)
Theorem transaction_ids_are_not_reused (w : World) (input1 input2 : TransactionInput) :
  opened w = true →
  faults w = [] →
  Sql.references_ok (ti_categoryId input1) (categories (store w)) = true →
  Sql.references_ok (ti_categoryId input2) (categories (store w)) = true →
  ∃ r1 w1 w2 r2 w3,
    createTransaction input1 w = (inr r1, w1)
    ∧ (∀ k, is_Some (transactions (store w) !! k) → k < rec_id r1)
    ∧ deleteTransaction (rec_id r1) w1 = (inr tt, w2)
    ∧ transactions (store w2) = transactions (store w)
    ∧ createTransaction input2 w2 = (inr r2, w3)
    ∧ rec_id r1 < rec_id r2.
Proof.
  intros Ho Hf Hfk1 Hfk2.
  destruct (run_createTransaction input1 w Ho Hf Hfk1)
    as (r1 & row1 & w1 & Hrun1 & Ho1 & Hf1 & _ & _ & Hst1 & Hid1 & _).
  assert (Hdel : ∃ w2, deleteTransaction (rec_id r1) w1 = (inr tt, w2)
                       ∧ opened w2 = true ∧ faults w2 = []
                       ∧ categories (store w2) = categories (store w)
                       ∧ transactions (store w2) = transactions (store w)
                       ∧ seq_transactions (store w2) = rec_id r1).
  { unfold deleteTransaction. rewrite run_bind, getDatabase_opened by done.
    rewrite run_statement by done. cbn [Sql.delete_transaction].
    eexists. split; [reflexivity|]. split; [exact Ho1|]. rewrite Hst1.
    cbn [store withStore transactions categories seq_transactions faults].
    repeat split; try done.
    rewrite delete_insert_eq. apply delete_id.
    rewrite Hid1. apply next_rowid_fresh. }
  destruct Hdel as (w2 & Hrun2 & Ho2 & Hf2 & Hc2 & Ht2 & Hs2).
  rewrite <- Hc2 in Hfk2.
  destruct (run_createTransaction input2 w2 Ho2 Hf2 Hfk2)
    as (r2 & row2 & w3 & Hrun3 & _ & _ & _ & _ & _ & Hid2 & _).
  exists r1, w1, w2, r2, w3. split; [exact Hrun1|].
  split. { intros k Hk. rewrite Hid1. by apply (proj2 (next_rowid_above _ _)). }
  split; [exact Hrun2|]. split; [exact Ht2|]. split; [exact Hrun3|].
  rewrite Hid2, Hs2. apply (proj1 (next_rowid_above _ _)).
Qed.

(** ** The transaction listings *)

#[global] Instance transaction_order_total : Total SqlList.transaction_order.
Proof.
  intros r1 r2. unfold SqlList.transaction_order.
  destruct (decide (Sql.j_occurred_on r1 = Sql.j_occurred_on r2)) as [E|E].
  - destruct (total String.le (Sql.j_created_at r1) (Sql.j_created_at r2)); auto.
  - destruct (total String.le (Sql.j_occurred_on r1) (Sql.j_occurred_on r2)); auto.
Qed.

#[global] Instance transaction_order_transitive : Transitive SqlList.transaction_order.
Proof.
  intros r1 r2 r3. unfold SqlList.transaction_order.
  intros [[N12 L12]|[E12 L12]] [[N23 L23]|[E23 L23]].
  - left. split; [|by etrans]. intros E. rewrite E in L12.
    apply N23. by apply (anti_symm String.le).
  - left. rewrite <- E23. done.
  - left. rewrite E12. done.
  - right. split; [congruence|by etrans].
Qed.

Lemma StronglySorted_fmap_impl {A B} (R : relation A) (R' : relation B) (f : A → B) l :
  (∀ x y, R x y → R' (f x) (f y)) →
  StronglySorted R l → StronglySorted R' (f <$> l).
Proof.
  intros HR. induction 1 as [|x l Hl IH Hx]; [constructor|].
  rewrite fmap_cons. constructor; [exact IH|].
  apply Forall_fmap. eapply Forall_impl; [exact Hx|]. intros y. apply HR.
Qed.

Lemma transaction_order_record r1 r2 :
  SqlList.transaction_order r1 r2 → recordOrder (mapTransactionRow r1) (mapTransactionRow r2).
Proof. intros H. exact H. Qed.

Lemma between_spec start end_ t :
  Sql.between start end_ t = true
  ↔ String.le start (t_occurred_on t) ∧ String.le (t_occurred_on t) end_.
Proof.
  unfold Sql.between, String.le. rewrite andb_true_iff.
  split; intros [H1 H2]; split; by apply Is_true_true.
Qed.

Lemma elem_of_records (db : Database) (l : list (Z * TransactionRow))
    (r : TransactionRecord) :
  r ∈ mapTransactionRow
        <$> ((λ kt : Z * TransactionRow, Sql.left_join db kt.1 kt.2) <$> l)
  ↔ ∃ t, (rec_id r, t) ∈ l ∧ r = recordOf db (rec_id r) t.
Proof.
  rewrite <- list_fmap_compose, list_elem_of_fmap. split.
  - intros ([k t] & -> & Hk). by exists t.
  - intros (t & Ht & Hr). by exists (rec_id r, t).
Qed.

Lemma records_ids_NoDup (db : Database) (l : list (Z * TransactionRow)) :
  NoDup (l.*1) →
  NoDup (rec_id <$>
           (mapTransactionRow
              <$> ((λ kt : Z * TransactionRow, Sql.left_join db kt.1 kt.2) <$> l))).
Proof. by rewrite <- !list_fmap_compose. Qed.

Lemma rows_between_NoDup start end_ db : NoDup ((Sql.rows_between start end_ db).*1).
Proof.
  unfold Sql.rows_between.
  eapply sublist_NoDup; [apply (NoDup_fst_map_to_list (transactions db))|].
  apply fmap_sublist, sublist_filter.
Qed.

Lemma elem_of_rows_between start end_ db k t :
  (k, t) ∈ Sql.rows_between start end_ db
  ↔ transactions db !! k = Some t
    ∧ String.le start (t_occurred_on t) ∧ String.le (t_occurred_on t) end_.
Proof.
  unfold Sql.rows_between. rewrite list_elem_of_filter, elem_of_map_to_list.
  cbn. rewrite between_spec. tauto.
Qed.

(** [fetchTransactionsForRange] returns exactly the stored
    transactions dated from [startDate] to [endDate] inclusive (as
    text), each once and joined with its category, newest date first
    and, within a date, latest created first.  A range whose end lies
    before its start is empty. *)
Theorem fetchTransactionsForRange_lists_range (w : World) (startDate endDate : string) :
  opened w = true →
  faults w = [] →
  ∃ rows,
    fetchTransactionsForRange startDate endDate w = (inr rows, w)
    ∧ (∀ r, r ∈ rows ↔
            ∃ t, transactions (store w) !! rec_id r = Some t
                 ∧ (String.le startDate (t_occurred_on t)
                    ∧ String.le (t_occurred_on t) endDate)
                 ∧ r = recordOf (store w) (rec_id r) t)
    ∧ NoDup (rec_id <$> rows)
    ∧ StronglySorted recordOrder rows
    ∧ (¬ String.le startDate endDate → rows = []).
Proof.
  intros Ho Hf. unfold fetchTransactionsForRange.
  rewrite run_bind, getDatabase_opened by done.
  rewrite run_bind, run_statement by done.
  unfold SqlList.select_transactions_between. rewrite withStore_id.
  cbn [mret IO_ret].
  set (sorted := merge_sort _ _).
  assert (Hin : ∀ r, r ∈ mapTransactionRow <$> sorted ↔
            ∃ t, transactions (store w) !! rec_id r = Some t
                 ∧ (String.le startDate (t_occurred_on t)
                    ∧ String.le (t_occurred_on t) endDate)
                 ∧ r = recordOf (store w) (rec_id r) t).
  { intros r. unfold sorted. rewrite merge_sort_Permutation, elem_of_records.
    split; intros (t & Ht & Hr); exists t.
    - apply elem_of_rows_between in Ht. tauto.
    - split; [|tauto]. apply elem_of_rows_between. tauto. }
  eexists. split; [reflexivity|]. split; [exact Hin|]. split; [|split].
  - unfold sorted. rewrite merge_sort_Permutation.
    apply records_ids_NoDup, rows_between_NoDup.
  - apply (StronglySorted_fmap_impl SqlList.transaction_order); [done|].
    apply StronglySorted_merge_sort; apply _.
  - intros Hempty.
    destruct (mapTransactionRow <$> sorted) as [|r rows] eqn:E; [reflexivity|].
    destruct (proj1 (Hin r)) as (t & _ & [H1 H2] & _); [try rewrite E; apply list_elem_of_here|].
    destruct Hempty. by etrans.
Qed.

Lemma elem_of_all_rows (m : gmap Z TransactionRow) k t :
  (k, t) ∈ map_to_list m ↔ m !! k = Some t.
Proof. apply elem_of_map_to_list. Qed.

(** [fetchTransactions] returns the head of the complete listing
    (every stored transaction once, newest date first and, within a
    date, latest created first): its first [limit] rows, 50 when no
    limit is given, and all of them when the limit is negative or the
    table is no larger than the limit. *)
Theorem fetchTransactions_lists_newest (w : World) (limit : option Z) :
  opened w = true →
  faults w = [] →
  ∃ rows rest,
    fetchTransactions limit w = (inr rows, w)
    ∧ (∀ r, r ∈ (rows ++ rest)%list ↔
            ∃ t, transactions (store w) !! rec_id r = Some t
                 ∧ r = recordOf (store w) (rec_id r) t)
    ∧ NoDup (rec_id <$> (rows ++ rest)%list)
    ∧ StronglySorted recordOrder (rows ++ rest)%list
    ∧ length rows = (if default 50 limit <? 0 then size (transactions (store w))
                     else Nat.min (Z.to_nat (default 50 limit))
                                  (size (transactions (store w))))
    ∧ (default 50 limit < 0 ∨ Z.of_nat (size (transactions (store w))) <= default 50 limit →
       rest = []).
Proof.
  intros Ho Hf. unfold fetchTransactions.
  rewrite run_bind, getDatabase_opened by done.
  rewrite run_bind, run_statement by done.
  unfold SqlList.select_transactions. rewrite withStore_id. cbn [mret IO_ret].
  set (n := default 50 limit).
  set (sorted := merge_sort _ _).
  assert (Hlen : length sorted = size (transactions (store w))).
  { unfold sorted. rewrite merge_sort_Permutation, length_fmap. apply length_map_to_list. }
  exists (mapTransactionRow <$> SqlList.limit_rows n sorted),
         (mapTransactionRow <$> (if n <? 0 then [] else drop (Z.to_nat n) sorted)).
  assert (Hall : ((mapTransactionRow <$> SqlList.limit_rows n sorted)
                  ++ (mapTransactionRow
                        <$> (if n <? 0 then [] else drop (Z.to_nat n) sorted)))%list
                 = mapTransactionRow <$> sorted).
  { rewrite <- fmap_app. f_equal. unfold SqlList.limit_rows.
    destruct (n <? 0); [apply app_nil_r|apply take_drop]. }
  split; [reflexivity|]. rewrite Hall. split; [|split; [|split; [|split]]].
  - intros r. unfold sorted. rewrite merge_sort_Permutation, elem_of_records.
    split; intros (t & Ht & Hr); exists t; (split; [|done]); by apply elem_of_all_rows.
  - unfold sorted. rewrite merge_sort_Permutation.
    apply records_ids_NoDup, NoDup_fst_map_to_list.
  - apply (StronglySorted_fmap_impl SqlList.transaction_order); [done|].
    apply StronglySorted_merge_sort; apply _.
  - rewrite length_fmap. unfold SqlList.limit_rows.
    destruct (n <? 0); [exact Hlen|]. rewrite length_take. by rewrite Hlen.
  - intros Hn. destruct (Z.ltb_spec n 0) as [|Hpos]; [reflexivity|].
    destruct Hn as [|Hn]; [lia|]. rewrite drop_ge; [reflexivity|]. rewrite Hlen. lia.
Qed.

(** In every reachable state a listed transaction that has a category
    id has a category name and type: the join never dangles, because
    no write can link a transaction to a category that does not exist
    and categories are never deleted. *)
Theorem listed_category_is_named (w : World) (id : Z) (t : TransactionRow) :
  reachable w →
  transactions (store w) !! id = Some t →
  (rec_categoryId (recordOf (store w) id t) = None
   ∧ rec_categoryName (recordOf (store w) id t) = None
   ∧ rec_categoryType (recordOf (store w) id t) = None)
  ∨ (∃ cid c,
       rec_categoryId (recordOf (store w) id t) = Some cid
       ∧ categories (store w) !! cid = Some c
       ∧ rec_categoryName (recordOf (store w) id t) = Some (c_name c)
       ∧ rec_categoryType (recordOf (store w) id t) = Some (c_type c)).
Proof.
  intros Hw Ht. pose proof (reachable_wellFormed w Hw) as Hwf.
  unfold recordOf, mapTransactionRow, Sql.left_join. cbn.
  destruct (t_category_id t) as [cid|] eqn:Hcid; [right|by left].
  destruct (references_exist _ Hwf id t cid Ht Hcid) as [c Hc].
  exists cid, c. cbn. rewrite Hc. done.
Qed.

(** ** The month window at the edges *)

(** A target in the years 0 to 99 is moved to the twentieth century:
    the Date constructor reads a year below 100 as 1900 plus that
    year, so the window returned is the same month 1900 years later
    (here where the zone is at or behind UTC at the two local
    midnights of that later month). *)
Theorem monthBoundsAt_two_digit_year tza t :
  let y := YearFromTime (LocalTime tza t) in
  let m := MonthFromTime (LocalTime tza t) in
  0 <= y <= 99 →
  - msPerDay < offsetAtLocal tza (localMidnight (1900 + y) m 1) <= 0 →
  - msPerDay < offsetAtLocal tza (localMidnight (1900 + y) (m + 1) 0) <= 0 →
  monthBoundsAt tza (Some t)
  = Some (mkBounds (isoDate (1900 + y) (m + 1) 1)
                   (isoDate (1900 + y) (m + 1) (daysInMonth (1900 + y) m))).
Proof.
  intros y m Hy Hs He. pose proof (local_month_range tza t) as Hm.
  apply monthBoundsAt_bounds; rewrite newDate_two_digit_year by done.
  - apply firstOfMonth_behind; (done || lia).
  - apply lastOfMonth_behind; (done || lia).
Qed.

(** An Invalid Date as target makes [monthBounds] raise the RangeError
    of [toISOString]; the two summaries pass it on without reading the
    store. *)
Theorem invalid_target_is_refused (w : World) :
  opened w = true →
  monthBounds (Some None) w = (inl invalidTime, w)
  ∧ fetchMonthlyTotals (Some None) w = (inl invalidTime, w)
  ∧ fetchMonthlyTotalsByCategory (Some None) w = (inl invalidTime, w).
Proof.
  intros Ho.
  assert (Hb : monthBounds (Some None) w = (inl invalidTime, w)) by reflexivity.
  split; [exact Hb|]. split.
  - unfold fetchMonthlyTotals. rewrite run_bind, run_orNow. cbn [from_option id].
    rewrite run_bind, getDatabase_opened by done.
    rewrite run_bind. reflexivity.
  - unfold fetchMonthlyTotalsByCategory. rewrite run_bind, run_orNow. cbn [from_option id].
    rewrite run_bind, getDatabase_opened by done.
    rewrite run_bind. reflexivity.
Qed.

(** ** The date of today *)

Lemma is_digit_digit x : is_digit (digit (x mod 10)) = true.
Proof.
  pose proof (Z.mod_pos_bound x 10 ltac:(lia)) as Hk.
  set (k := x mod 10) in *. clearbody k.
  assert (E : k = 0 ∨ k = 1 ∨ k = 2 ∨ k = 3 ∨ k = 4 ∨ k = 5 ∨ k = 6 ∨ k = 7 ∨ k = 8 ∨ k = 9)
    by lia.
  repeat destruct E as [-> | E]; try subst k; reflexivity.
Qed.

Lemma dateRegex_isoDate y m d : dateRegex (isoDate y m d) = true.
Proof.
  cbv [isoDate pad digits String.append dateRegex].
  rewrite !is_digit_digit. reflexivity.
Qed.

Lemma MonthFromDay_brackets k leap :
  0 <= leap <= 1 → 0 <= k < 365 + leap →
  monthStart (MonthFromDay k leap) leap <= k
  ∧ k < monthStart (MonthFromDay k leap + 1) leap.
Proof.
  intros Hl Hk. unfold MonthFromDay.
  repeat match goal with
         | |- context [?a <? ?b] => destruct (Z.ltb_spec a b)
         end;
    repeat match goal with
           | |- context [monthStart (?a + 1) _] =>
               let v := eval compute in (a + 1) in change (a + 1) with v
           end;
    cbn [monthStart]; lia.
Qed.

Lemma DateFromTime_range t :
  1 <= DateFromTime t <= daysInMonth (YearFromTime t) (MonthFromTime t).
Proof.
  unfold DateFromTime, daysInMonth, MonthFromTime, InLeapYear, DayWithinYear, YearFromTime.
  cbv zeta. pose proof (YearFromDay_bounds (Day t)) as Hy.
  rewrite DayFromYear_succ, DaysInYear_leap in Hy.
  pose proof (leap_flag_range (YearFromDay (Day t))) as Hl.
  set (leap := if isLeapYear _ then 1 else 0) in *.
  pose proof (MonthFromDay_brackets (Day t - DayFromYear (YearFromDay (Day t))) leap Hl) as Hb.
  lia.
Qed.

(** While the year has four digits, [today()] is the UTC date of the
    clock, a day that exists in its month, written YYYY-MM-DD: the
    date the transaction form starts from passes the form's own
    [dateRegex].  From the year 10000 on it does not. *)
Theorem today_passes_dateRegex (w : World) :
  0 <= YearFromTime (clock w) →
  ∃ day,
    today w = (inr day, w)
    ∧ (YearFromTime (clock w) <= 9999 →
       day = isoDate (YearFromTime (clock w)) (MonthFromTime (clock w) + 1)
                     (DateFromTime (clock w))
       ∧ 1 <= MonthFromTime (clock w) + 1 <= 12
       ∧ 1 <= DateFromTime (clock w)
            <= daysInMonth (YearFromTime (clock w)) (MonthFromTime (clock w))
       ∧ dateRegex day = true)
    ∧ (9999 < YearFromTime (clock w) → dateRegex day = false).
Proof.
  intros Hy0.
  destruct (toDateOnlyString_valid (clock w)) as [day Hday].
  exists day. split.
  { unfold today. rewrite run_bind. unfold now. by rewrite Hday. }
  split.
  - intros Hy. rewrite toDateOnlyString_fields in Hday by lia. injection Hday as <-.
    split; [reflexivity|].
    split; [pose proof (MonthFromDay_range (DayWithinYear (clock w)) (InLeapYear (clock w)));
            unfold MonthFromTime; lia|].
    split; [apply DateFromTime_range|apply dateRegex_isoDate].
  - intros Hy. revert Hday. unfold toDateOnlyString, toISOString, yearString.
    cbn [mbind option_bind fmap option_fmap option_map].
    replace ((0 <=? YearFromTime (clock w)) && (YearFromTime (clock w) <=? 9999)) with false
      by (symmetry; apply andb_false_iff; right; apply Z.leb_gt; lia).
    rewrite (proj2 (Z.leb_le _ _)) by lia.
    intros [= <-]. reflexivity.
Qed.

(** ** The sections of the categories screen *)

Lemma by_type_partition (cs : list Category) :
  (filter (λ c, cat_type c = income) cs ++ filter (λ c, cat_type c = expense) cs)%list ≡ₚ cs.
Proof.
  induction cs as [|c cs IH]; [reflexivity|].
  rewrite !filter_cons. destruct (cat_type c) eqn:E.
  - rewrite decide_True, decide_False by done. cbn. by rewrite IH.
  - rewrite decide_False, decide_True by done.
    rewrite <- Permutation_middle. by rewrite IH.
Qed.

Lemma by_type_sorted (cs : list Category) :
  StronglySorted SqlList.category_order cs →
  (filter (λ c, cat_type c = income) cs ++ filter (λ c, cat_type c = expense) cs)%list = cs.
Proof.
  induction 1 as [|c cs Hcs IH Hc]; [reflexivity|].
  rewrite !filter_cons. destruct (cat_type c) eqn:E.
  - rewrite decide_True, decide_False by done. cbn. by rewrite IH.
  - rewrite decide_False, decide_True by done.
    assert (Hall : Forall (λ c', cat_type c' = expense) cs).
    { eapply Forall_impl; [exact Hc|]. intros c'. unfold SqlList.category_order.
      rewrite E. destruct (cat_type c'); cbn; intros [?|[? ?]]; (done || lia). }
    assert (Hnone : filter (λ c, cat_type c = income) cs = []).
    { clear -Hall. induction Hall as [|c' cs Hc' _ IH']; [reflexivity|].
      rewrite filter_cons, decide_False by congruence. exact IH'. }
    assert (Hsame : filter (λ c, cat_type c = expense) cs = cs).
    { clear -Hall. induction Hall as [|c' cs Hc' _ IH']; [reflexivity|].
      rewrite filter_cons, decide_True by done. by rewrite IH'. }
    by rewrite Hnone, Hsame.
Qed.

Lemma sections_data (cs : list Category) :
  mjoin ((sections cs).*2)
  = (filter (λ c, cat_type c = income) cs ++ filter (λ c, cat_type c = expense) cs)%list.
Proof.
  unfold sections. cbv zeta.
  destruct (filter (λ c, cat_type c = income) cs) as [|i is_];
    destruct (filter (λ c, cat_type c = expense) cs) as [|e es]; cbn;
    rewrite ?app_nil_r; reflexivity.
Qed.

(** The categories screen puts every category into one section: the
    income categories under "Income", then the expense categories
    under "Expenses", each in the order received and no section empty.
    On a list ordered as [fetchCategories] orders it, the sections read
    in sequence are the list itself. *)
Theorem sections_partition (cs : list Category) :
  mjoin ((sections cs).*2) ≡ₚ cs
  ∧ (∀ title data, (title, data) ∈ sections cs →
       data ≠ []
       ∧ ((title = "Income" ∧ data = filter (λ c, cat_type c = income) cs)
          ∨ (title = "Expenses" ∧ data = filter (λ c, cat_type c = expense) cs)))
  ∧ (sections cs).*1 `sublist_of` ["Income"; "Expenses"]
  ∧ (StronglySorted SqlList.category_order cs → mjoin ((sections cs).*2) = cs).
Proof.
  split; [rewrite sections_data; apply by_type_partition|].
  split; [|split; [|intros Hs; rewrite sections_data; by apply by_type_sorted]].
  - intros title data. unfold sections. cbv zeta.
    destruct (filter (λ c, cat_type c = income) cs) as [|i is_];
      destruct (filter (λ c, cat_type c = expense) cs) as [|e es]; cbn;
      rewrite ?elem_of_cons, ?elem_of_nil; intros H;
      repeat destruct H as [H|H]; try done; injection H as -> ->; split; auto.
  - unfold sections. cbv zeta.
    destruct (filter (λ c, cat_type c = income) cs) as [|i is_];
      destruct (filter (λ c, cat_type c = expense) cs) as [|e es]; cbn;
      repeat constructor.
Qed.

(** ** The aggregation engine *)

(** *** Sums of doubles *)


Lemma round_nonneg x : 0 <= x → 0 <= Double.round x.
Proof.
  intros Hx. unfold Double.round. cbv zeta.
  destruct (Z.leb_spec (Z.log2 (Z.abs x) - 52) 0) as [|He]; [exact Hx|].
  set (ulp := 2 ^ _). assert (0 <= ulp) by (apply Z.pow_nonneg; lia).
  assert (0 <= Z.abs x / ulp)
    by (apply Z.div_pos; [lia|]; unfold ulp; apply Z.pow_pos_nonneg; lia).
  apply Z.mul_nonneg_nonneg; [lia|]. apply Z.mul_nonneg_nonneg; [|done].
  repeat match goal with |- context [if ?b then _ else _] => destruct b end; lia.
Qed.

Lemma round_opp x : Double.round (- x) = - Double.round x.
Proof.
  unfold Double.round. cbv zeta. rewrite Z.abs_opp, Z.sgn_opp.
  destruct (_ <=? 0); lia.
Qed.

Lemma round_nonpos x : x <= 0 → Double.round x <= 0.
Proof.
  intros Hx. pose proof (round_nonneg (- x)) as H. rewrite round_opp in H. lia.
Qed.

Lemma magnitude_cons a l : magnitude (a :: l) = Z.abs a + magnitude l.
Proof. reflexivity. Qed.

Lemma sumOf_cons a l : sumOf (a :: l) = a + sumOf l.
Proof. reflexivity. Qed.



#[global] Instance sumOf_Permutation : Proper ((≡ₚ) ==> (=)) sumOf.
Proof. intros l1 l2 H. induction H; rewrite ?sumOf_cons; lia. Qed.

#[global] Instance magnitude_Permutation : Proper ((≡ₚ) ==> (=)) magnitude.
Proof. intros l1 l2 H. induction H; rewrite ?magnitude_cons; lia. Qed.












(** *** Dates as text *)




(** *** The window of the month *)









(** *** Grouping by category *)

Section Grouping.
Variable db : Database.
Variable b : Bounds.

Let joined := Sql.inner_join (b_start b) (b_end b) db.

Lemma inner_join_keys k :
  k ∈ joined.*1 ↔
  ∃ c, categories db !! k.1.1 = Some c ∧ k.1.2 = c_name c ∧ k.2 = c_type c
       ∧ linkedAmountsIn b k.1.1 db ≠ [].
Proof.
  unfold joined, Sql.inner_join, linkedAmountsIn.
  induction (Sql.rows_between (b_start b) (b_end b) db) as [|kt l IH].
  { simpl. split; [intros H; inversion H|]. intros (c & _ & _ & _ & H). done. }
  rewrite filter_cons. cbn [omap list_omap].
  destruct (t_category_id kt.2) as [cid|] eqn:Ecid; cbn [mbind option_bind].
  2:{ rewrite decide_False by done. exact IH. }
  destruct (categories db !! cid) as [c|] eqn:Ec; cbn [mbind option_bind].
  - rewrite fmap_cons, elem_of_cons, IH. cbn [fst]. split.
    + intros [-> | (c' & Hc' & Hn & Ht & Hl)].
      * exists c. cbn [fst snd]. rewrite decide_True by done. done.
      * exists c'. repeat split; try done.
        destruct (decide (Some cid = Some k.1.1)); [done|exact Hl].
    + intros (c' & Hc' & Hn & Ht & Hl).
      destruct (decide (cid = k.1.1)) as [->|Hne].
      * left. rewrite Hc' in Ec. injection Ec as ->.
        destruct k as [[? ?] ?]; cbn [fst snd] in *. congruence.
      * right. exists c'. rewrite decide_False in Hl by congruence. done.
  - rewrite IH. split; intros (c' & Hc' & Hn & Ht & Hl); exists c'; repeat split; try done.
    + destruct (decide (Some cid = Some k.1.1)); [done|exact Hl].
    + destruct (decide (Some cid = Some k.1.1)) as [E|]; [|exact Hl].
      injection E as ->. congruence.
Qed.

Lemma inner_join_group k c :
  categories db !! k.1.1 = Some c → k.1.2 = c_name c → k.2 = c_type c →
  (filter (λ r : (Z * string * CategoryType) * Z, r.1 = k) joined).*2
  = linkedAmountsIn b k.1.1 db.
Proof.
  intros Hc Hn Ht. unfold joined, Sql.inner_join, linkedAmountsIn.
  induction (Sql.rows_between (b_start b) (b_end b) db) as [|kt l IH]; [reflexivity|].
  rewrite (filter_cons (λ kt : Z * TransactionRow, _)). cbn [omap list_omap].
  destruct (t_category_id kt.2) as [cid|] eqn:Ecid; cbn [mbind option_bind].
  2:{ rewrite decide_False by done. exact IH. }
  destruct (categories db !! cid) as [c'|] eqn:Ec; cbn [mbind option_bind].
  - rewrite filter_cons. cbn [fst].
    destruct (decide (cid = k.1.1)) as [->|Hne].
    + rewrite Hc in Ec. injection Ec as <-.
      rewrite !decide_True; [rewrite !fmap_cons, IH; reflexivity|done|].
      destruct k as [[? ?] ?]; cbn [fst snd] in *. congruence.
    + rewrite !decide_False; [exact IH|congruence|].
      intros <-. cbn [fst] in Hne. done.
  - destruct (decide (Some cid = Some k.1.1)) as [E|]; [|exact IH].
    injection E as ->. congruence.
Qed.


Lemma group_by_rows g :
  g ∈ Sql.group_by joined ↔
  ∃ c, categories db !! Sql.g_category_id g = Some c
       ∧ Sql.g_category_name g = c_name c
       ∧ Sql.g_category_type g = c_type c
       ∧ linkedAmountsIn b (Sql.g_category_id g) db ≠ []
       ∧ Sql.g_total g = Sql.total (linkedAmountsIn b (Sql.g_category_id g) db).
Proof.
  unfold Sql.group_by. rewrite list_elem_of_fmap. split.
  - intros (k & -> & Hk). rewrite elem_of_remove_dups, inner_join_keys in Hk.
    destruct Hk as (c & Hc & Hn & Ht & Hl). exists c. cbn.
    rewrite (inner_join_group k c) by done. done.
  - intros (c & Hc & Hn & Ht & Hl & Hs).
    exists (Sql.g_category_id g, Sql.g_category_name g, Sql.g_category_type g).
    split.
    + cbn [fst snd]. rewrite (inner_join_group _ c) by done.
      destruct g; cbn in *. congruence.
    + rewrite elem_of_remove_dups, inner_join_keys. exists c. done.
Qed.


End Grouping.
#[global] Instance order_by_total : Total Sql.order_by.
Proof.
  intros r1 r2. unfold Sql.order_by.
  destruct (Sql.g_category_type r1), (Sql.g_category_type r2); cbn;
    destruct (Z.le_ge_cases (Sql.g_total r1) (Sql.g_total r2)); auto with lia.
Qed.

#[global] Instance order_by_transitive : Transitive Sql.order_by.
Proof.
  intros r1 r2 r3. unfold Sql.order_by.
  destruct (Sql.g_category_type r1), (Sql.g_category_type r2), (Sql.g_category_type r3);
    cbn; intros [?|[? ?]] [?|[? ?]]; try lia; try discriminate; right; split; auto; lia.
Qed.

Lemma order_by_report g1 g2 :
  Sql.order_by g1 g2 → reportOrder (toCategoryMonthlyTotal g1) (toCategoryMonthlyTotal g2).
Proof.
  unfold Sql.order_by, reportOrder, storedSum, toCategoryMonthlyTotal. cbn.
  intros [H|[E H]]; [left; exact H|right]. split; [exact E|].
  rewrite <- E. destruct (Sql.g_category_type g1); lia.
Qed.

Lemma StronglySorted_report l :
  StronglySorted Sql.order_by l → StronglySorted reportOrder (toCategoryMonthlyTotal <$> l).
Proof.
  induction 1 as [|g l Hl IH Hg]; [constructor|].
  rewrite fmap_cons. constructor; [exact IH|].
  apply Forall_fmap. eapply Forall_impl; [exact Hg|].
  intros g' Hg'. by apply order_by_report.
Qed.

Lemma run_fetchMonthlyTotalsByCategory (w : World) (target : option Date) (b : Bounds) :
  opened w = true →
  faults w = [] →
  monthBoundsAt (tza w) (default (Some (clock w)) target) = Some b →
  fetchMonthlyTotalsByCategory target w
  = (inr (toCategoryMonthlyTotal
            <$> merge_sort Sql.order_by
                  (Sql.group_by (Sql.inner_join (b_start b) (b_end b) (store w)))), w).
Proof.
  intros Ho Hf Hb. unfold fetchMonthlyTotalsByCategory.
  rewrite run_bind, run_orNow.
  rewrite run_bind, getDatabase_opened by done.
  rewrite run_bind, (run_monthBounds _ _ b) by done.
  rewrite run_bind, run_statement by done.
  unfold Sql.select_totals_by_category. rewrite withStore_id. reflexivity.
Qed.






(** *** The per-category report *)

Lemma total_signMatches type l :
  Forall (signMatches type) l → signMatches type (Sql.total l).
Proof.
  unfold Sql.total. assert (H0 : signMatches type 0) by by destruct type.
  revert H0. generalize 0. intros acc Hacc Hl. revert acc Hacc.
  induction Hl as [|a l Ha Hl IH]; intros acc Hacc; [exact Hacc|].
  cbn [foldl]. apply IH. unfold Double.add.
  destruct type; cbn [signMatches] in *; [apply round_nonneg|apply round_nonpos]; lia.
Qed.

Lemma linkedAmountsIn_signs (db : Database) (b : Bounds) (cid : Z) (c : CategoryRow) :
  signsMatch db → categories db !! cid = Some c →
  Forall (signMatches (c_type c)) (linkedAmountsIn b cid db).
Proof.
  intros Hs Hc. unfold linkedAmountsIn. apply Forall_fmap, Forall_forall.
  intros [k t] Hkt. apply list_elem_of_filter in Hkt as [Hcid Hkt].
  apply list_elem_of_filter in Hkt as [_ Hkt]. apply elem_of_map_to_list in Hkt.
  cbn in *. by apply (Hs k t cid c).
Qed.

(** As long as the storage has not failed, no total of the report is
    negative: an income category shows the sum of its amounts, which
    are at least zero, and an expense category the negation of a sum
    of amounts that are at most zero. *)
Theorem report_totals_are_nonnegative (w : World) (target : option Date) (b : Bounds) :
  faultless w →
  opened w = true →
  monthBoundsAt (tza w) (default (Some (clock w)) target) = Some b →
  ∃ rows,
    fetchMonthlyTotalsByCategory target w = (inr rows, w)
    ∧ ∀ r, r ∈ rows → 0 <= cmt_total r.
Proof.
  intros Hw Ho Hb. destruct (faultless_consistent w Hw) as [Hf [_ Hs]].
  rewrite (run_fetchMonthlyTotalsByCategory w target b) by done.
  eexists. split; [reflexivity|].
  intros r Hr. apply list_elem_of_fmap in Hr as (g & -> & Hg).
  rewrite merge_sort_Permutation in Hg.
  apply group_by_rows in Hg as (c & Hc & _ & Hty & _ & Htot).
  pose proof (total_signMatches _ _ (linkedAmountsIn_signs _ b _ c Hs Hc)) as Hsign.
  unfold toCategoryMonthlyTotal. cbn. rewrite Hty, Htot.
  destruct (c_type c); cbn in Hsign; lia.
Qed.

Lemma StronglySorted_lookup_lt {A} (R : relation A) (l : list A) i j x y :
  StronglySorted R l → l !! i = Some x → l !! j = Some y → (i < j)%nat → R x y.
Proof.
  intros Hl. revert i j. induction Hl as [|a l Hl IH Ha]; intros i j Hi Hj Hij.
  { by rewrite lookup_nil in Hi. }
  destruct j as [|j]; [lia|]. destruct i as [|i].
  - injection Hi as <-. cbn in Hj. rewrite Forall_forall in Ha.
    apply Ha. by eapply list_elem_of_lookup_2.
  - cbn in Hi, Hj. apply (IH i j); [done|done|lia].
Qed.

(** In the report, and so among the four rows the home screen shows as
    "Top Categories", every income category stands before every
    expense category; income categories run from the largest total
    down, expense categories from the smallest total up. *)
Theorem report_runs_income_down_expense_up
    (w : World) (target : option Date) (b : Bounds) :
  opened w = true →
  faults w = [] →
  monthBoundsAt (tza w) (default (Some (clock w)) target) = Some b →
  ∃ rows,
    fetchMonthlyTotalsByCategory target w = (inr rows, w)
    ∧ (length (topCategories rows) <= 4)%nat
    ∧ ∀ shown, shown = rows ∨ shown = topCategories rows →
        ∀ i j r1 r2, shown !! i = Some r1 → shown !! j = Some r2 → (i < j)%nat →
          (cmt_categoryType r1 = expense →
           cmt_categoryType r2 = expense ∧ cmt_total r1 <= cmt_total r2)
          ∧ (cmt_categoryType r2 = income →
             cmt_categoryType r1 = income ∧ cmt_total r2 <= cmt_total r1).
Proof.
  intros Ho Hf Hb.
  rewrite (run_fetchMonthlyTotalsByCategory w target b) by done.
  set (rows := toCategoryMonthlyTotal <$> _).
  assert (Hsorted : StronglySorted reportOrder rows).
  { apply StronglySorted_report, StronglySorted_merge_sort; apply _. }
  exists rows. split; [reflexivity|].
  split; [unfold topCategories; rewrite length_take; lia|].
  assert (Hrows : ∀ i j r1 r2, rows !! i = Some r1 → rows !! j = Some r2 → (i < j)%nat →
            (cmt_categoryType r1 = expense →
             cmt_categoryType r2 = expense ∧ cmt_total r1 <= cmt_total r2)
            ∧ (cmt_categoryType r2 = income →
               cmt_categoryType r1 = income ∧ cmt_total r2 <= cmt_total r1)).
  { intros i j r1 r2 Hi Hj Hij.
    pose proof (StronglySorted_lookup_lt _ _ _ _ _ _ Hsorted Hi Hj Hij) as Hord.
    unfold reportOrder, storedSum in Hord.
    destruct (cmt_categoryType r1), (cmt_categoryType r2); cbn in Hord;
      destruct Hord as [?|[? ?]]; split; intros ?; try discriminate; try lia;
      split; (done || lia). }
  intros shown [->| ->]; [exact Hrows|].
  intros i j r1 r2 Hi Hj. unfold topCategories in Hi, Hj.
  apply lookup_take_Some in Hi as [Hi _]. apply lookup_take_Some in Hj as [Hj _].
  by apply Hrows.
Qed.

(** *** A transaction dated today and the totals of the month *)



(** ** A first call that fails *)


(** Keeping its own name is no collision. *)
Lemma own_name_not_taken (db : Database) (id : Z) (c : CategoryRow) :
  wellFormed db → categories db !! id = Some c →
  ¬ Sql.name_taken (Some id) (c_name c) (categories db).
Proof.
  intros Hwf Hc (j & c' & Hj & Hne & Hn).
  apply Hne. f_equal. exact (names_unique _ Hwf j id c' c Hj Hc Hn).
Qed.

(** In every reachable state a category can be retyped or recolored
    under the name it has: the name it keeps is not blank and collides
    with no other row, so the update succeeds.  The row keeps its id,
    name and creation time and takes the input's type and color, and
    no other category changes. *)
Theorem updateCategory_keeps_own_name
    (w : World) (id : Z) (input : CategoryInput) (c : CategoryRow) :
  reachable w →
  opened w = true →
  faults w = [] →
  categories (store w) !! id = Some c →
  trim (ci_name input) = c_name c →
  ∃ r w',
    updateCategory id input w = (inr r, w')
    ∧ r = mkCategory id (c_name c) (ci_type input) (colorOrDefault input) (c_created_at c)
    ∧ categories (store w') = <[id := rowOf r]> (categories (store w))
    ∧ opened w' = true ∧ faults w' = [].
Proof.
  intros Hw Ho Hf Hc Hn.
  pose proof (reachable_wellFormed w Hw) as Hwf.
  pose proof (names_nonempty _ Hwf id c Hc) as Hne.
  pose proof (own_name_not_taken _ id c Hwf Hc) as Hfree.
  unfold updateCategory.
  rewrite run_bind, getDatabase_opened by done.
  rewrite Hn. rewrite truthy_nonempty by done. cbn [negb].
  erewrite run_try_catch_ok; cycle 1.
  { rewrite run_bind, run_statement by done.
    unfold Sql.update_category. rewrite Hc.
    rewrite decide_False by done. cbn [Z.eqb].
    rewrite run_bind, run_statement by done.
    unfold Sql.update_transactions_sign.
    rewrite run_bind, run_statement by done.
    unfold Sql.select_category. rewrite !withStore_store. cbn [categories].
    rewrite lookup_insert_eq. cbn [fmap option_fmap option_map]. reflexivity. }
  eexists _, _. split; [reflexivity|].
  split; [reflexivity|].
  cbn [store withStore categories transactions opened faults].
  repeat split; done.
Qed.

(** ** Worked instances *)

Lemma booked_faultless : faultless booked.
Proof. do 4 apply faultless_call. apply faultless_install. Defined.

Lemma initializeDatabase_seeds_witness :
  handle restarted = false ∧ faults restarted = []
  ∧ ∃ w', initializeDatabase restarted = (inr tt, w')
          ∧ opened w' = true
          ∧ transactions (store w') = transactions (store restarted).
Proof.
  do 2 (split; [reflexivity|]).
  destruct (initializeDatabase_seeds restarted eq_refl eq_refl)
    as (w' & Hrun & Ho & Htx & _).
  exists w'. auto.
Defined.

Lemma pets_name_free :
  ¬ Sql.name_taken None (trim (ci_name pets)) (categories (store installed)).
Proof. apply (bool_decide_eq_false_1 _). vm_compute. reflexivity. Defined.

Lemma pets_name_free_reseeded :
  ¬ Sql.name_taken None (trim (ci_name pets)) (categories (store reseeded)).
Proof. apply (bool_decide_eq_false_1 _). vm_compute. reflexivity. Defined.

Lemma createCategory_stores_witness :
  opened installed = true ∧ faults installed = []
  ∧ trim (ci_name pets) ≠ ""
  ∧ ¬ Sql.name_taken None (trim (ci_name pets)) (categories (store installed))
  ∧ (∃ r w', createCategory pets installed = (inr r, w')
             ∧ cat_name r = "Pets" ∧ cat_color r = "#c62828"
             ∧ seq_categories (store installed) = 10 ∧ 10 < cat_id r)
  ∧ (∃ r w', createCategory pets reseeded = (inr r, w')
             ∧ seq_categories (store reseeded) = 20 ∧ 20 < cat_id r).
Proof.
  do 2 (split; [reflexivity|]). split; [discriminate|]. split; [exact pets_name_free|].
  split.
  - destruct (createCategory_stores installed pets eq_refl eq_refl)
      as (r & w' & Hrun & Hn & _ & _ & _ & Hc & _ & Hseq & _);
      [discriminate|exact pets_name_free|].
    exists r, w'. split; [exact Hrun|]. split; [exact Hn|].
    split; [exact (Hc eq_refl)|]. split; [reflexivity|exact Hseq].
  - destruct (createCategory_stores reseeded pets eq_refl eq_refl)
      as (r & w' & Hrun & _ & _ & _ & _ & _ & _ & Hseq & _);
      [discriminate|exact pets_name_free_reseeded|].
    exists r, w'. split; [exact Hrun|]. split; [reflexivity|exact Hseq].
Defined.

Lemma first_call_installs : getDatabase newInstallation = (inr tt, installed).
Proof. vm_compute. reflexivity. Defined.

Lemma blank_name_is_refused_witness :
  trim (ci_name blank) = ""
  ∧ createCategory blank installed = (inl nameRequired, installed)
  ∧ updateCategory 1 blank installed = (inl nameRequired, installed)
  ∧ createCategory blank newInstallation = (inl nameRequired, installed).
Proof.
  split; [reflexivity|].
  destruct (blank_name_is_refused installed 1 blank eq_refl) as (_ & _ & Hopen & _).
  destruct (Hopen eq_refl) as [Hcreate Hupdate].
  split; [exact Hcreate|]. split; [exact Hupdate|].
  destruct (blank_name_is_refused newInstallation 1 blank eq_refl) as (Hfirst & _).
  rewrite first_call_installs in Hfirst. exact Hfirst.
Defined.

Lemma updateCategory_not_found_witness :
  opened booked = true ∧ faults booked = []
  ∧ trim (ci_name salaryAsExpense) ≠ ""
  ∧ categories (store booked) !! 999 = None
  ∧ updateCategory 999 salaryAsExpense booked = (inl categoryNotFound, booked).
Proof.
  do 2 (split; [reflexivity|]). split; [discriminate|]. split; [reflexivity|].
  apply (updateCategory_not_found booked 999 salaryAsExpense eq_refl eq_refl);
    [discriminate|reflexivity].
Defined.

Lemma groceries_name_taken :
  Sql.name_taken (Some 1) (trim (ci_name salaryAsGroceries)) (categories (store booked)).
Proof. apply (bool_decide_unpack _). vm_compute. exact I. Defined.

Lemma updateCategory_rejects_taken_name_witness :
  opened booked = true ∧ faults booked = []
  ∧ trim (ci_name salaryAsGroceries) ≠ ""
  ∧ categories (store booked) !! 1 = Some salaryRow
  ∧ Sql.name_taken (Some 1) (trim (ci_name salaryAsGroceries)) (categories (store booked))
  ∧ updateCategory 1 salaryAsGroceries booked = (inl duplicateName, booked).
Proof.
  do 2 (split; [reflexivity|]). split; [discriminate|]. split; [reflexivity|].
  split; [exact groceries_name_taken|].
  apply (updateCategory_rejects_taken_name booked 1 salaryAsGroceries salaryRow
           eq_refl eq_refl); [discriminate|reflexivity|exact groceries_name_taken].
Defined.

Lemma fetchCategories_lists_all_witness :
  opened installed = true ∧ faults installed = []
  ∧ ∃ rows, fetchCategories installed = (inr rows, installed)
            ∧ cat_name <$> rows
              = ["Freelance"; "Investment Income"; "Salary"; "Dining Out"; "Groceries";
                 "Health"; "Housing"; "Savings"; "Transportation"; "Utilities"].
Proof.
  do 2 (split; [reflexivity|]).
  destruct (fetchCategories_lists_all installed eq_refl eq_refl) as (rows & Hrun & _).
  exists rows. split; [exact Hrun|].
  assert (H : cat_name <$> default [] (from_option Some None
                 (match (fetchCategories installed).1 with inr l => Some l | inl _ => None end))
              = ["Freelance"; "Investment Income"; "Salary"; "Dining Out"; "Groceries";
                 "Health"; "Housing"; "Savings"; "Transportation"; "Utilities"])
    by (vm_compute; reflexivity).
  rewrite Hrun in H. exact H.
Defined.

Lemma createTransaction_uncategorised_witness :
  opened booked = true ∧ faults booked = [] ∧ ti_categoryId cash = None
  ∧ ∃ r w', createTransaction cash booked = (inr r, w')
            ∧ rec_categoryType r = Some income ∧ rec_categoryName r = None.
Proof.
  do 3 (split; [reflexivity|]).
  destruct (createTransaction_uncategorised booked cash eq_refl eq_refl eq_refl)
    as (r & w' & row & Hrun & _ & _ & _ & _ & _ & _ & _ & _ & Hn & Ht & _).
  exists r, w'. auto.
Defined.

Lemma updateTransaction_not_found_witness :
  opened booked = true ∧ faults booked = []
  ∧ transactions (store booked) !! 77 = None
  ∧ updateTransaction 77 stale booked = (inl transactionNotFound, booked).
Proof.
  do 3 (split; [reflexivity|]).
  exact (updateTransaction_not_found booked 77 stale eq_refl eq_refl eq_refl).
Defined.

Lemma updateTransaction_rewrites_row_witness :
  opened booked = true ∧ faults booked = []
  ∧ transactions (store booked) !! 1 = Some salaryStored
  ∧ (c_type <$> categories (store booked) !! 5) = Some expense
  ∧ ti_occurredOn rentOnThe20th = Some "2024-02-20"
  ∧ ∃ r w', updateTransaction 1 rentOnThe20th booked = (inr r, w')
            ∧ rec_amount r = -700 ∧ rec_createdAt r = "2024-02-15T11:00:00.000Z".
Proof.
  do 5 (split; [reflexivity|]).
  destruct (updateTransaction_rewrites_row booked 1 rentOnThe20th salaryStored expense
              "2024-02-20" eq_refl eq_refl eq_refl eq_refl eq_refl)
    as (r & w' & Hrun & _ & _ & _ & Hc & Ha & _); [discriminate|].
  exists r, w'. auto.
Defined.

Lemma transaction_ids_are_not_reused_witness :
  opened booked = true ∧ faults booked = []
  ∧ Sql.references_ok (ti_categoryId salary) (categories (store booked)) = true
  ∧ Sql.references_ok (ti_categoryId cash) (categories (store booked)) = true
  ∧ ∃ r1 w1 w2 r2 w3,
      createTransaction salary booked = (inr r1, w1)
      ∧ deleteTransaction (rec_id r1) w1 = (inr tt, w2)
      ∧ createTransaction cash w2 = (inr r2, w3)
      ∧ rec_id r1 < rec_id r2.
Proof.
  do 4 (split; [reflexivity|]).
  destruct (transaction_ids_are_not_reused booked salary cash eq_refl eq_refl eq_refl eq_refl)
    as (r1 & w1 & w2 & r2 & w3 & H1 & _ & H2 & _ & H3 & Hlt).
  exists r1, w1, w2, r2, w3. auto.
Defined.

Lemma booked_reachable : reachable booked.
Proof. do 4 apply reachable_call. apply reachable_install. Defined.

Lemma fetchTransactionsForRange_lists_range_witness :
  opened booked = true ∧ faults booked = []
  ∧ ∃ rows, fetchTransactionsForRange "2024-02-01" "2024-02-29" booked = (inr rows, booked)
            ∧ NoDup (rec_id <$> rows)
            ∧ StronglySorted recordOrder rows.
Proof.
  do 2 (split; [reflexivity|]).
  destruct (fetchTransactionsForRange_lists_range booked "2024-02-01" "2024-02-29"
              eq_refl eq_refl) as (rows & Hrun & _ & Hnd & Hs & _).
  exists rows. auto.
Defined.

Lemma fetchTransactions_lists_newest_witness :
  opened booked = true ∧ faults booked = []
  ∧ ∃ rows, fetchTransactions (Some 2) booked = (inr rows, booked)
            ∧ length rows = 2%nat.
Proof.
  do 2 (split; [reflexivity|]).
  destruct (fetchTransactions_lists_newest booked (Some 2) eq_refl eq_refl)
    as (rows & rest & Hrun & _ & _ & _ & Hlen & _).
  exists rows. split; [exact Hrun|].
  rewrite Hlen. vm_compute. reflexivity.
Defined.

Lemma listed_category_is_named_witness :
  reachable booked
  ∧ transactions (store booked) !! 1 = Some salaryStored
  ∧ ((rec_categoryId (recordOf (store booked) 1 salaryStored) = None
      ∧ rec_categoryName (recordOf (store booked) 1 salaryStored) = None
      ∧ rec_categoryType (recordOf (store booked) 1 salaryStored) = None)
     ∨ (∃ cid c,
          rec_categoryId (recordOf (store booked) 1 salaryStored) = Some cid
          ∧ categories (store booked) !! cid = Some c
          ∧ rec_categoryName (recordOf (store booked) 1 salaryStored) = Some (c_name c)
          ∧ rec_categoryType (recordOf (store booked) 1 salaryStored) = Some (c_type c))).
Proof.
  split; [exact booked_reachable|]. split; [reflexivity|].
  exact (listed_category_is_named booked 1 salaryStored booked_reachable eq_refl).
Defined.

Lemma yearFifty_is_two_digit :
  0 <= YearFromTime (LocalTime (fixedOffset (-18000000)) yearFifty) <= 99.
Proof. by vm_compute. Defined.

Lemma new_york_behind : - msPerDay < -18000000 <= 0.
Proof. by vm_compute. Defined.

Lemma monthBoundsAt_two_digit_year_witness :
  0 <= YearFromTime (LocalTime (fixedOffset (-18000000)) yearFifty) <= 99
  ∧ - msPerDay < -18000000 <= 0
  ∧ monthBoundsAt (fixedOffset (-18000000)) (Some yearFifty)
    = Some (mkBounds "1950-01-01" "1950-01-31").
Proof.
  split; [exact yearFifty_is_two_digit|]. split; [exact new_york_behind|].
  exact (monthBoundsAt_two_digit_year (fixedOffset (-18000000)) yearFifty
           yearFifty_is_two_digit new_york_behind new_york_behind).
Defined.

Lemma invalid_target_is_refused_witness :
  opened installed = true
  ∧ fetchMonthlyTotals (Some None) installed = (inl invalidTime, installed).
Proof.
  split; [reflexivity|].
  exact (proj1 (proj2 (invalid_target_is_refused installed eq_refl))).
Defined.

Lemma bookedWithCash_february :
  monthBoundsAt (tza bookedWithCash) (default (Some (clock bookedWithCash)) None)
  = Some february.
Proof. vm_compute. reflexivity. Defined.

Lemma report_totals_are_nonnegative_witness :
  faultless bookedWithCash ∧ opened bookedWithCash = true
  ∧ monthBoundsAt (tza bookedWithCash) (default (Some (clock bookedWithCash)) None)
    = Some february
  ∧ ∃ rows, fetchMonthlyTotalsByCategory None bookedWithCash = (inr rows, bookedWithCash)
            ∧ ∀ r, r ∈ rows → 0 <= cmt_total r.
Proof.
  split; [exact (faultless_call _ _ booked_faultless)|]. split; [reflexivity|].
  split; [exact bookedWithCash_february|].
  exact (report_totals_are_nonnegative bookedWithCash None february
           (faultless_call _ _ booked_faultless) eq_refl bookedWithCash_february).
Defined.

Lemma report_runs_income_down_expense_up_witness :
  opened bookedWithCash = true ∧ faults bookedWithCash = []
  ∧ monthBoundsAt (tza bookedWithCash) (default (Some (clock bookedWithCash)) None)
    = Some february
  ∧ ∃ rows, fetchMonthlyTotalsByCategory None bookedWithCash = (inr rows, bookedWithCash)
            ∧ (length (topCategories rows) <= 4)%nat.
Proof.
  do 2 (split; [reflexivity|]). split; [exact bookedWithCash_february|].
  destruct (report_runs_income_down_expense_up bookedWithCash None february
              eq_refl eq_refl bookedWithCash_february) as (rows & Hrun & Hlen & _).
  exists rows. auto.
Defined.

Lemma installed_year : 0 <= YearFromTime (clock installed).
Proof. by vm_compute. Defined.

Lemma today_passes_dateRegex_witness :
  0 <= YearFromTime (clock installed)
  ∧ ∃ day, today installed = (inr day, installed)
           ∧ (YearFromTime (clock installed) <= 9999 → dateRegex day = true).
Proof.
  split; [exact installed_year|].
  destruct (today_passes_dateRegex installed installed_year) as (day & Hrun & Hok & _).
  exists day. split; [exact Hrun|]. intros Hy. apply Hok, Hy.
Defined.



Lemma faultless_signs_witness :
  faultless booked
  ∧ transactions (store booked) !! 1 = Some salaryStored
  ∧ t_category_id salaryStored = Some 1
  ∧ categories (store booked) !! 1 = Some salaryRow
  ∧ signMatches (c_type salaryRow) (t_amount salaryStored).
Proof.
  split; [exact booked_faultless|]. do 3 (split; [reflexivity|]).
  exact (faultless_signs booked 1 salaryStored 1 salaryRow booked_faultless
           eq_refl eq_refl eq_refl).
Defined.

Lemma november15_in_london :
  100 <= YearFromTime (LocalTime london november15) <= 9999.
Proof. by vm_compute. Defined.

Lemma november_first_in_london :
  - msPerDay
  < offsetAtLocal london
      (localMidnight (YearFromTime (LocalTime london november15))
                     (MonthFromTime (LocalTime london november15)) 1) <= 0.
Proof. by vm_compute. Defined.

Lemma november_last_in_london :
  - msPerDay
  < offsetAtLocal london
      (localMidnight (YearFromTime (LocalTime london november15))
                     (MonthFromTime (LocalTime london november15) + 1) 0) <= 0.
Proof. by vm_compute. Defined.

Lemma monthBoundsAt_west_witness :
  100 <= YearFromTime (LocalTime london november15) <= 9999
  ∧ monthBoundsAt london (Some november15) = Some (mkBounds "2024-11-01" "2024-11-30").
Proof.
  split; [exact november15_in_london|].
  exact (monthBoundsAt_west london november15 november15_in_london
           november_first_in_london november_last_in_london).
Defined.

Lemma july15_in_london : 101 <= YearFromTime (LocalTime london july15) <= 9999.
Proof. by vm_compute. Defined.

Lemma july_first_in_london :
  0 < offsetAtLocal london
        (localMidnight (YearFromTime (LocalTime london july15))
                       (MonthFromTime (LocalTime london july15)) 1) < msPerDay.
Proof. by vm_compute. Defined.

Lemma july_last_in_london :
  0 < offsetAtLocal london
        (localMidnight (YearFromTime (LocalTime london july15))
                       (MonthFromTime (LocalTime london july15) + 1) 0) < msPerDay.
Proof. by vm_compute. Defined.

Lemma monthBoundsAt_east_witness :
  101 <= YearFromTime (LocalTime london july15) <= 9999
  ∧ monthBoundsAt london (Some july15) = Some (mkBounds "2024-06-30" "2024-07-30").
Proof.
  split; [exact july15_in_london|].
  exact (monthBoundsAt_east london july15 july15_in_london
           july_first_in_london july_last_in_london).
Defined.

Lemma october28_in_london : 101 <= YearFromTime (LocalTime london october28) <= 9999.
Proof. by vm_compute. Defined.

Lemma october_first_in_london :
  0 < offsetAtLocal london
        (localMidnight (YearFromTime (LocalTime london october28))
                       (MonthFromTime (LocalTime london october28)) 1) < msPerDay.
Proof. by vm_compute. Defined.

Lemma october_last_in_london :
  - msPerDay
  < offsetAtLocal london
      (localMidnight (YearFromTime (LocalTime london october28))
                     (MonthFromTime (LocalTime london october28) + 1) 0) <= 0.
Proof. by vm_compute. Defined.

Lemma monthBoundsAt_across_change_witness :
  101 <= YearFromTime (LocalTime london october28) <= 9999
  ∧ offsetAtUTC london october28 = 0
  ∧ monthBoundsAt london (Some october28) = Some (mkBounds "2024-09-30" "2024-10-31").
Proof.
  split; [exact october28_in_london|]. split; [reflexivity|].
  exact (monthBoundsAt_across_change london october28 october28_in_london
           october_first_in_london october_last_in_london).
Defined.

Lemma updateCategory_keeps_own_name_witness :
  reachable booked ∧ opened booked = true ∧ faults booked = []
  ∧ categories (store booked) !! 1 = Some salaryRow
  ∧ trim (ci_name salaryAgain) = c_name salaryRow
  ∧ ∃ r w', updateCategory 1 salaryAgain booked = (inr r, w')
            ∧ r = mkCategory 1 "Salary" expense "#c62828" "2024-02-15T11:00:00.000Z".
Proof.
  split; [exact booked_reachable|]. do 4 (split; [reflexivity|]).
  destruct (updateCategory_keeps_own_name booked 1 salaryAgain salaryRow booked_reachable
              eq_refl eq_refl eq_refl eq_refl) as (r & w' & Hrun & Hr & _).
  exists r, w'. split; [exact Hrun|exact Hr].
Defined.
